(** * Hybrid text search: normalisation, synonyms, ranking and query glue

    A shallow embedding of the TypeScript sources
    [TextNormalizationService], [synonyms] ([buildSearchIndex]),
    [SynonymService], [SynonymMatchStrategy], [HybridSearchEngine]
    (hierarchical and cumulative variants) and [QueryEngine].

    Conventions.
    - A JavaScript string is the list of its UTF-16 code units ([ustring]).
    - A JavaScript number used as a score is an exact rational ([Q]), and
      [None] where it can be [NaN]; the number used as a length or an index
      is a [nat] or a [Z].
    - A plain object or a [Map] used as a dictionary is an insertion-ordered
      association list of its own properties ([OMap]): assignment to a
      present key keeps its place. The synonym index is read with the term
      a user typed, and that read also finds the members a plain object
      inherits from [Object.prototype] ([SynonymService.readProperty]); the
      other objects are read and written with the keys of the data.
    - The host's Unicode tables ([toLowerCase], [normalize('NFD')]) and the
      Fuse.js matcher are parameters. *)

From Stdlib Require Import Ascii String.
From Stdlib Require Import List NArith ZArith QArith Qminmax Bool Lia.
From Stdlib Require Import Permutation Sorted Lqa.
Import ListNotations.
Open Scope list_scope.

Set Implicit Arguments.

(* ------------------------------------------------------------------ *)
(** ** JavaScript strings as UTF-16 code units *)

Module Text.

Definition ustring := list N.

(** String literals of this file are UTF-8; [u] turns one into code units. *)
Fixpoint utf16_of_utf8 (bs : list N) : ustring :=
  match bs with
  | [] => []
  | b1 :: r1 =>
    if (b1 <? 0x80)%N then b1 :: utf16_of_utf8 r1
    else
      match r1 with
      | [] => [0xFFFD%N]
      | b2 :: r2 =>
        if (b1 <? 0xE0)%N
        then ((b1 mod 32) * 64 + b2 mod 64)%N :: utf16_of_utf8 r2
        else
          match r2 with
          | [] => [0xFFFD%N]
          | b3 :: r3 =>
            if (b1 <? 0xF0)%N
            then ((b1 mod 16) * 4096 + (b2 mod 64) * 64 + b3 mod 64)%N
                   :: utf16_of_utf8 r3
            else
              match r3 with
              | [] => [0xFFFD%N]
              | b4 :: r4 =>
                let cp := ((b1 mod 8) * 262144 + (b2 mod 64) * 4096
                           + (b3 mod 64) * 64 + b4 mod 64)%N in
                let v := (cp - 0x10000)%N in
                (0xD800 + v / 1024)%N :: (0xDC00 + v mod 1024)%N
                  :: utf16_of_utf8 r4
              end
          end
      end
  end.

Definition u (s : String.string) : ustring :=
  utf16_of_utf8 (List.map N_of_ascii (String.list_ascii_of_string s)).
Arguments u s%_string.

Definition ustring_eqb (a b : ustring) : bool :=
  if list_eq_dec N.eq_dec a b then true else false.

Lemma ustring_eqb_eq a b : ustring_eqb a b = true <-> a = b.
Proof. unfold ustring_eqb. destruct (list_eq_dec N.eq_dec a b); intuition congruence. Qed.

Lemma ustring_eqb_neq a b : ustring_eqb a b = false <-> a <> b.
Proof. unfold ustring_eqb. destruct (list_eq_dec N.eq_dec a b); intuition congruence. Qed.

Lemma ustring_eqb_refl a : ustring_eqb a a = true.
Proof. now apply ustring_eqb_eq. Qed.

(** [\s] of a regular expression and the characters removed by
    [String.prototype.trim]: WhiteSpace and LineTerminator. *)
Definition isWhiteSpace (c : N) : bool :=
  ((9 <=? c) && (c <=? 13) || (c =? 32) || (c =? 0xA0) || (c =? 0x1680)
   || ((0x2000 <=? c) && (c <=? 0x200A)) || (c =? 0x2028) || (c =? 0x2029)
   || (c =? 0x202F) || (c =? 0x205F) || (c =? 0x3000) || (c =? 0xFEFF))%N.

Definition isUpper (c : N) : bool := ((0x41 <=? c) && (c <=? 0x5A))%N.

(** [\w] without the unicode flag: [A-Za-z0-9_]. *)
Definition isWordChar (c : N) : bool :=
  (isUpper c || ((0x61 <=? c) && (c <=? 0x7A))
   || ((0x30 <=? c) && (c <=? 0x39)) || (c =? 0x5F))%N.

(** The combining diacritical marks U+0300 to U+036F. *)
Definition isCombiningMark (c : N) : bool := ((0x300 <=? c) && (c <=? 0x36F))%N.

Fixpoint dropWhile (p : N -> bool) (s : ustring) : ustring :=
  match s with
  | [] => []
  | c :: r => if p c then dropWhile p r else s
  end.

Definition trimStart (s : ustring) : ustring := dropWhile isWhiteSpace s.
Definition trimEnd (s : ustring) : ustring := rev (dropWhile isWhiteSpace (rev s)).
Definition trim (s : ustring) : ustring := trimEnd (trimStart s).

(** [s.replace(/\s+/g, r)] for a one-unit replacement [r]: a white-space
    character is emitted, as [r], only when it closes its run. *)
Fixpoint replaceWhitespaceRuns (r : N) (s : ustring) : ustring :=
  match s with
  | [] => []
  | c :: t =>
    if isWhiteSpace c then
      match t with
      | [] => [r]
      | c' :: _ => if isWhiteSpace c' then replaceWhitespaceRuns r t
                   else r :: replaceWhitespaceRuns r t
      end
    else c :: replaceWhitespaceRuns r t
  end.

(** [s.replace(/\s+/g, ' ')] *)
Definition collapseWhitespace (s : ustring) : ustring := replaceWhitespaceRuns 32 s.

Fixpoint startsWith (s p : ustring) : bool :=
  match p, s with
  | [], _ => true
  | _ :: _, [] => false
  | a :: p', b :: s' => (a =? b)%N && startsWith s' p'
  end.

(** [s.indexOf(p)], [None] standing for -1. *)
Fixpoint indexOf (s p : ustring) : option nat :=
  if startsWith s p then Some 0%nat
  else match s with
       | [] => None
       | _ :: s' => option_map S (indexOf s' p)
       end.

Definition includes (s p : ustring) : bool :=
  match indexOf s p with Some _ => true | None => false end.

(** Code-unit order of [<] and [>] on two strings. *)
Fixpoint ustring_ltb (a b : ustring) : bool :=
  match a, b with
  | _, [] => false
  | [], _ :: _ => true
  | x :: a', y :: b' => (x <? y)%N || ((x =? y)%N && ustring_ltb a' b')
  end.

End Text.
Import Text.

(* ------------------------------------------------------------------ *)
(** ** The host's Unicode tables *)

(** [String.prototype.toLowerCase] and [String.prototype.normalize('NFD')]
    are supplied by the JavaScript host. *)
Class UnicodeTables := {
  toLowerCase : ustring -> ustring;
  normalizeNFD : ustring -> ustring
}.

Definition isAscii (c : N) : bool := (c <? 0x80)%N.

(** The facts about the tables that proofs below rely on. *)
Class UnicodeLaws (U : UnicodeTables) : Prop := {
  toLowerCase_nil : toLowerCase [] = [];
  normalizeNFD_nil : normalizeNFD [] = [];
  toLowerCase_ascii_lower :
    forall s, Forall (fun c => isAscii c && negb (isUpper c) = true) s ->
              toLowerCase s = s;
  normalizeNFD_ascii :
    forall s, Forall (fun c => isAscii c = true) s -> normalizeNFD s = s;
  toLowerCase_no_upper :
    forall s, Forall (fun c => isUpper c = false) (toLowerCase s);
  normalizeNFD_toLowerCase_no_upper :
    forall s, Forall (fun c => isUpper c = false) (normalizeNFD (toLowerCase s))
}.

(** Tables restricted to Basic Latin and Latin-1 Supplement, exact on strings
    of code units below U+0100 (all the strings of the vocabulary data). *)
Module Latin1.

Definition lowerUnit (c : N) : N :=
  if (isUpper c
      || ((0xC0 <=? c) && (c <=? 0xDE) && negb (c =? 0xD7)))%N
  then (c + 32)%N else c.

(** Base letter and combining mark of a precomposed Latin-1 capital. *)
Definition decomposeUpper (c : N) : option (N * N) :=
  match c with
  | 0xC0 => Some (0x41, 0x300) | 0xC1 => Some (0x41, 0x301)
  | 0xC2 => Some (0x41, 0x302) | 0xC3 => Some (0x41, 0x303)
  | 0xC4 => Some (0x41, 0x308) | 0xC5 => Some (0x41, 0x30A)
  | 0xC7 => Some (0x43, 0x327)
  | 0xC8 => Some (0x45, 0x300) | 0xC9 => Some (0x45, 0x301)
  | 0xCA => Some (0x45, 0x302) | 0xCB => Some (0x45, 0x308)
  | 0xCC => Some (0x49, 0x300) | 0xCD => Some (0x49, 0x301)
  | 0xCE => Some (0x49, 0x302) | 0xCF => Some (0x49, 0x308)
  | 0xD1 => Some (0x4E, 0x303)
  | 0xD2 => Some (0x4F, 0x300) | 0xD3 => Some (0x4F, 0x301)
  | 0xD4 => Some (0x4F, 0x302) | 0xD5 => Some (0x4F, 0x303)
  | 0xD6 => Some (0x4F, 0x308)
  | 0xD9 => Some (0x55, 0x300) | 0xDA => Some (0x55, 0x301)
  | 0xDB => Some (0x55, 0x302) | 0xDC => Some (0x55, 0x308)
  | 0xDD => Some (0x59, 0x301)
  | _ => None
  end%N.

Definition decomposeUnit (c : N) : list N :=
  match decomposeUpper c with
  | Some (b, m) => [b; m]
  | None =>
    if (c =? 0xFF)%N then [0x79; 0x308]%N
    else if ((0xE0 <=? c) && (c <=? 0xFE))%N then
      match decomposeUpper (c - 32) with
      | Some (b, m) => [(b + 32)%N; m]
      | None => [c]
      end
    else [c]
  end.

(** Checks run over the code units below U+0100. *)
Definition unitNoUpper (c : N) : bool :=
  forallb (fun d => negb (isUpper d)) (decomposeUnit (lowerUnit c)).

Definition asciiFixed (c : N) : bool :=
  implb (isAscii c)
        (match decomposeUnit c with [d] => (d =? c)%N | _ => false end
         && implb (negb (isUpper c)) (lowerUnit c =? c)%N).

#[export] Instance tables : UnicodeTables := {
  toLowerCase := List.map lowerUnit;
  normalizeNFD := List.flat_map decomposeUnit
}.

End Latin1.

(* ------------------------------------------------------------------ *)
(** ** TextNormalizationService *)

Record NormalizationOptions := {
  removeAccents : bool;
  toLowerCaseOpt : bool;
  removeSpecialChars : bool;
  trimWhitespace : bool
}.

(** [Partial<NormalizationOptions>] *)
Record PartialNormalizationOptions := {
  p_removeAccents : option bool;
  p_toLowerCase : option bool;
  p_removeSpecialChars : option bool;
  p_trimWhitespace : option bool
}.

Definition DEFAULT_OPTIONS : NormalizationOptions :=
  {| removeAccents := true; toLowerCaseOpt := true;
     removeSpecialChars := true; trimWhitespace := true |}.

(** The empty options object [{}]. *)
Definition noOptions : PartialNormalizationOptions :=
  {| p_removeAccents := None; p_toLowerCase := None;
     p_removeSpecialChars := None; p_trimWhitespace := None |}.

Definition orDefault (o : option bool) (d : bool) : bool :=
  match o with Some b => b | None => d end.

(** [{ ...DEFAULT_OPTIONS, ...options }] *)
Definition mergeOptions (options : PartialNormalizationOptions) : NormalizationOptions :=
  {| removeAccents := orDefault (p_removeAccents options) (removeAccents DEFAULT_OPTIONS);
     toLowerCaseOpt := orDefault (p_toLowerCase options) (toLowerCaseOpt DEFAULT_OPTIONS);
     removeSpecialChars := orDefault (p_removeSpecialChars options) (removeSpecialChars DEFAULT_OPTIONS);
     trimWhitespace := orDefault (p_trimWhitespace options) (trimWhitespace DEFAULT_OPTIONS) |}.

Section Normalization.
Context {U : UnicodeTables}.

Definition stripMarks (s : ustring) : ustring :=
  List.filter (fun c => negb (isCombiningMark c)) s.

Definition stripSpecial (s : ustring) : ustring :=
  List.filter (fun c => isWordChar c || isWhiteSpace c) s.

(** The steps of [normalize] after the options are merged. *)
Definition normalizeWith (config : NormalizationOptions) (text : ustring) : ustring :=
  let normalized := text in
  let normalized := if trimWhitespace config then trim normalized else normalized in
  let normalized := if toLowerCaseOpt config then toLowerCase normalized else normalized in
  let normalized := if removeAccents config
                    then stripMarks (normalizeNFD normalized) else normalized in
  let normalized := if removeSpecialChars config
                    then stripSpecial normalized else normalized in
  collapseWhitespace normalized.

Definition normalize (text : ustring) (options : PartialNormalizationOptions) : ustring :=
  match text with
  | [] => []
  | _ => normalizeWith (mergeOptions options) text
  end.

(** [normalize(text)] and [normalize(text, {}, 'standard')]: the function
    declares two parameters, a third argument is not read. *)
Definition normalize_default (text : ustring) : ustring := normalize text noOptions.

Definition normalizeTerms (terms : list ustring) (options : PartialNormalizationOptions)
  : list ustring :=
  List.filter (fun term => (0 <? length term)%nat)
              (List.map (fun term => normalize term options) terms).

End Normalization.

(* ------------------------------------------------------------------ *)
(** ** Insertion-ordered dictionaries, arrays, numbers *)

(** A [Map<string, V>] or a plain object keyed by (non-numeric) strings:
    iteration follows first insertion, assignment to a present key replaces
    the value where it stands. *)
Module OMap.
Section Defs.
Variable V : Type.

Definition t := list (ustring * V).

Definition empty : t := [].

Fixpoint get (m : t) (k : ustring) : option V :=
  match m with
  | [] => None
  | (k', v) :: r => if ustring_eqb k k' then Some v else get r k
  end.

Fixpoint set (m : t) (k : ustring) (v : V) : t :=
  match m with
  | [] => [(k, v)]
  | (k', v') :: r => if ustring_eqb k k' then (k, v) :: r else (k', v') :: set r k v
  end.

Definition keys (m : t) : list ustring := List.map fst m.
Definition values (m : t) : list V := List.map snd m.
Definition entries (m : t) : list (ustring * V) := m.

End Defs.
Arguments empty {V}.
End OMap.

(** [0 < q] on numbers. *)
Definition Qpositive (q : Q) : bool := negb (Qle_bool q 0).

(** [a < b] on numbers. *)
Definition Qlt_bool (a b : Q) : bool := negb (Qle_bool b a).

(** A number in a condition: [undefined] and [0] are falsy. *)
Definition truthyQ (o : option Q) : bool :=
  match o with Some q => negb (Qeq_bool q 0) | None => false end.

Definition truthyZ (o : option Z) : bool :=
  match o with Some k => negb (k =? 0)%Z | None => false end.

Definition lengthQ (s : ustring) : Q := inject_Z (Z.of_nat (length s)).

Section Arrays.
Variable A : Type.

(** [Array.prototype.sort(compareFn)] is stable: with a consistent
    comparator the outcome is that of a stable insertion sort, [x] going
    behind [y] exactly when [compareFn x y > 0]. *)
Fixpoint insertSorted (compareFn : A -> A -> Q) (x : A) (l : list A) : list A :=
  match l with
  | [] => [x]
  | y :: r => if Qpositive (compareFn x y) then y :: insertSorted compareFn x r
              else x :: l
  end.

Definition arraySort (compareFn : A -> A -> Q) (l : list A) : list A :=
  fold_right (insertSorted compareFn) [] l.

(** [l.slice(0, k)] for an integer [k]; a negative [k] counts from the end. *)
Definition slice0 (l : list A) (k : Z) : list A :=
  if (0 <=? k)%Z then firstn (Z.to_nat k) l
  else firstn (length l - Z.to_nat (- k)) l.

(** [l.find(p)] *)
Definition arrayFind (p : A -> bool) (l : list A) : option A := List.find p l.

(** Mutation, through the reference returned by [find], of the first
    element satisfying [p]. *)
Fixpoint updateFirst (p : A -> bool) (f : A -> A) (l : list A) : list A :=
  match l with
  | [] => []
  | x :: r => if p x then f x :: r else x :: updateFirst p f r
  end.

End Arrays.

(* ------------------------------------------------------------------ *)
(** ** Search types *)

Record Searchable := {
  id : ustring;
  name : ustring;
  category : option ustring
}.

(** [(item as any).category || ''] *)
Definition categoryOrEmpty (item : Searchable) : ustring :=
  match category item with Some c => c | None => [] end.

Inductive MatchType := mt_exact | mt_synonym | mt_fuzzy | mt_partial.

Record SearchResult := {
  item : Searchable;
  score : Q;
  matchType : MatchType;
  matchedTerms : list ustring;
  originalQuery : ustring
}.

Record SearchOptions := {
  threshold : option Q;
  minScore : option Q;
  maxResults : option Z
}.

(** The default argument [{ threshold: 0.4 }]. *)
Definition defaultSearchOptions : SearchOptions :=
  {| threshold := Some 0.4; minScore := None; maxResults := None |}.

(** The same options with another [maxResults]. *)
Definition withMaxResults (options : SearchOptions) (k : option Z) : SearchOptions :=
  {| threshold := threshold options; minScore := minScore options;
     maxResults := k |}.

(** [!query || query.trim().length === 0] *)
Definition isBlank (query : ustring) : bool :=
  match query with
  | [] => true
  | _ => (length (trim query) =? 0)%nat
  end.

(* ------------------------------------------------------------------ *)
(** ** Fuse.js *)

Record FuseMatch := { value : option ustring }.

Record FuseResult := {
  fr_item : Searchable;
  refIndex : nat;
  fr_score : option Q;
  matches : option (list FuseMatch)
}.

(** [new Fuse(items, getFuseConfig()).search(query)] *)
Class FuseLibrary := {
  fuseSearch : list Searchable -> ustring -> list FuseResult
}.

(** Fuse reports a record of its collection at most once, under the index
    it has there. *)
Definition fuseResultsOf (items : list Searchable) (rs : list FuseResult) : Prop :=
  NoDup (List.map refIndex rs) /\
  Forall (fun r => nth_error items (refIndex r) = Some (fr_item r)) rs.

(* ------------------------------------------------------------------ *)
(** ** HybridSearchEngine, hierarchical fallback
       (services/search/HybridSearchEngine.ts) *)

Module HybridSearchEngine.
Section Engine.
Context {U : UnicodeTables} {F : FuseLibrary}.

Record t := {
  items : list Searchable;
  fuse : ustring -> list FuseResult
}.

Definition new (items : list Searchable) : t :=
  {| items := items; fuse := fuseSearch items |}.

Definition updateItems (this : t) (items : list Searchable) : t :=
  {| items := items; fuse := fuseSearch items |}.

Definition passesMinScore (options : SearchOptions) (result : SearchResult) : bool :=
  negb (truthyQ (minScore options))
  || match minScore options with
     | Some m => Qle_bool m (score result)
     | None => false
     end.

Definition byScoreDesc (a b : SearchResult) : Q := score b - score a.

Definition limitAndSort (results : list SearchResult) (options : SearchOptions)
  : list SearchResult :=
  let filteredResults :=
    arraySort byScoreDesc (List.filter (passesMinScore options) results) in
  if truthyZ (maxResults options)
  then match maxResults options with
       | Some k => slice0 filteredResults k
       | None => filteredResults
       end
  else filteredResults.

Definition exactMatchOf (query normalizedQuery : ustring) (item : Searchable)
  : list SearchResult :=
  let normalizedName := normalize_default (name item) in
  let normalizedCategory := normalize_default (categoryOrEmpty item) in
  if ustring_eqb normalizedName normalizedQuery then
    [ {| item := item; score := 1.0; matchType := mt_exact;
         matchedTerms := [name item]; originalQuery := query |} ]
  else if ustring_eqb normalizedCategory normalizedQuery then
    [ {| item := item; score := 0.95; matchType := mt_exact;
         matchedTerms := [categoryOrEmpty item]; originalQuery := query |} ]
  else [].

Definition getExactMatches (this : t) (query normalizedQuery : ustring)
  : list SearchResult :=
  List.flat_map (exactMatchOf query normalizedQuery) (items this).

(** [Math.max(0, (1 - score) * 0.8)] with [score = 1] when Fuse gives none. *)
Definition fuzzyScoreOf (fuseResult : FuseResult) : Q :=
  let score := match fr_score fuseResult with Some s => s | None => 1 end in
  Qmax 0 ((1 - score) * 0.8).

Definition fuzzyTermsOf (fuseResult : FuseResult) : list ustring :=
  match matches fuseResult with
  | Some ms => List.map (fun m => match value m with Some v => v | None => [] end) ms
  | None => [name (fr_item fuseResult)]
  end.

Definition fuzzyMatchOf (query : ustring) (fuseResult : FuseResult) : SearchResult :=
  {| item := fr_item fuseResult; score := fuzzyScoreOf fuseResult;
     matchType := mt_fuzzy; matchedTerms := fuzzyTermsOf fuseResult;
     originalQuery := query |}.

Definition getFuzzyMatches (this : t) (query : ustring) (options : SearchOptions)
  : list SearchResult :=
  List.map (fuzzyMatchOf query) (fuse this query).

(** Score and matched terms gathered by the two [includes] tests. *)
Definition partialScoreOf (normalizedQuery : ustring) (item : Searchable)
  : Q * list ustring :=
  let normalizedName := normalize_default (name item) in
  let normalizedCategory := normalize_default (categoryOrEmpty item) in
  let '(matchScore, matchedTerms) := (0 : Q, @nil ustring) in
  let '(matchScore, matchedTerms) :=
    if includes normalizedName normalizedQuery
    then (Qmax matchScore 0.6, matchedTerms ++ [name item])
    else (matchScore, matchedTerms) in
  if includes normalizedCategory normalizedQuery
  then (Qmax matchScore 0.5, matchedTerms ++ [categoryOrEmpty item])
  else (matchScore, matchedTerms).

Definition partialMatchOf (normalizedQuery : ustring) (item : Searchable)
  : list SearchResult :=
  let '(matchScore, matchedTerms) := partialScoreOf normalizedQuery item in
  if Qpositive matchScore then
    [ {| item := item; score := matchScore; matchType := mt_partial;
         matchedTerms := matchedTerms; originalQuery := normalizedQuery |} ]
  else [].

Definition getPartialMatches (this : t) (normalizedQuery : ustring)
  : list SearchResult :=
  List.flat_map (partialMatchOf normalizedQuery) (items this).

Definition search (this : t) (query : ustring) (options : SearchOptions)
  : list SearchResult :=
  if isBlank query then []
  else
    let normalizedQuery := normalize_default query in
    let exactResults := getExactMatches this query normalizedQuery in
    if (0 <? length exactResults)%nat then limitAndSort exactResults options
    else
      let fuzzyResults := getFuzzyMatches this query options in
      if (0 <? length fuzzyResults)%nat then limitAndSort fuzzyResults options
      else
        let partialResults := getPartialMatches this normalizedQuery in
        limitAndSort partialResults options.

End Engine.
End HybridSearchEngine.

(* ------------------------------------------------------------------ *)
(** ** HybridSearchEngine, cumulative merge through a [Map] keyed by id
       (the other revision of the same class) *)

Module HybridSearchEngineCumulative.
Section Engine.
Context {U : UnicodeTables} {F : FuseLibrary}.

Record t := {
  items : list Searchable;
  fuse : ustring -> list FuseResult
}.

Definition new (items : list Searchable) : t :=
  {| items := items; fuse := fuseSearch items |}.

Definition updateItems (this : t) (items : list Searchable) : t :=
  {| items := items; fuse := fuseSearch items |}.

Definition Results := OMap.t SearchResult.

Definition exactStep (query normalizedQuery : ustring) (results : Results)
           (item : Searchable) : Results :=
  let normalizedName := normalize_default (name item) in
  let normalizedCategory := normalize_default (categoryOrEmpty item) in
  if ustring_eqb normalizedName normalizedQuery then
    OMap.set results (id item)
      {| item := item; score := 1.0; matchType := mt_exact;
         matchedTerms := [name item]; originalQuery := query |}
  else if ustring_eqb normalizedCategory normalizedQuery then
    OMap.set results (id item)
      {| item := item; score := 0.95; matchType := mt_exact;
         matchedTerms := [categoryOrEmpty item]; originalQuery := query |}
  else results.

Definition exactSearch (this : t) (query normalizedQuery : ustring)
           (results : Results) : Results :=
  fold_left (exactStep query normalizedQuery) (items this) results.

Definition isPartial (r : SearchResult) : bool :=
  match matchType r with mt_partial => true | _ => false end.

Definition fuzzyStep (query : ustring) (results : Results)
           (fuseResult : FuseResult) : Results :=
  let item := fr_item fuseResult in
  let existingResult := OMap.get results (id item) in
  let fuzzyScore := HybridSearchEngine.fuzzyScoreOf fuseResult in
  let replace :=
    match existingResult with
    | None => true
    | Some existing => isPartial existing && Qlt_bool (score existing) fuzzyScore
    end in
  if replace then
    OMap.set results (id item)
      {| item := item; score := fuzzyScore; matchType := mt_fuzzy;
         matchedTerms := HybridSearchEngine.fuzzyTermsOf fuseResult;
         originalQuery := query |}
  else results.

Definition fuzzySearch (this : t) (query : ustring) (options : SearchOptions)
           (results : Results) : Results :=
  fold_left (fuzzyStep query) (fuse this query) results.

Definition partialStep (normalizedQuery : ustring) (results : Results)
           (item : Searchable) : Results :=
  let skip :=
    match OMap.get results (id item) with
    | Some existing => negb (isPartial existing)
    | None => false
    end in
  if skip then results
  else
    let '(matchScore, matchedTerms) :=
      HybridSearchEngine.partialScoreOf normalizedQuery item in
    if Qpositive matchScore then
      OMap.set results (id item)
        {| item := item; score := matchScore; matchType := mt_partial;
           matchedTerms := matchedTerms; originalQuery := normalizedQuery |}
    else results.

Definition partialSearch (this : t) (normalizedQuery : ustring)
           (results : Results) : Results :=
  fold_left (partialStep normalizedQuery) (items this) results.

Definition search (this : t) (query : ustring) (options : SearchOptions)
  : list SearchResult :=
  if isBlank query then []
  else
    let normalizedQuery := normalize_default query in
    let results : Results := OMap.empty in
    let results := exactSearch this query normalizedQuery results in
    let results := fuzzySearch this query options results in
    let results := partialSearch this normalizedQuery results in
    let sortedResults :=
      arraySort HybridSearchEngine.byScoreDesc
        (List.filter (HybridSearchEngine.passesMinScore options)
                     (OMap.values results)) in
    if truthyZ (maxResults options)
    then match maxResults options with
         | Some k => slice0 sortedResults k
         | None => sortedResults
         end
    else sortedResults.

End Engine.
End HybridSearchEngineCumulative.

(* ------------------------------------------------------------------ *)
(** ** data/synonyms: the regional vocabulary and its search index *)

Module Synonyms.

Record RegionInfo := {
  region : ustring;
  country : ustring;
  language : option ustring
}.

Record SynonymEntry := {
  canonical : ustring;
  productId : ustring;
  confidence : Q;
  regionInfo : option RegionInfo
}.

(** One group of [synonymsData]: [{ canonical, productId, synonyms }]. *)
Record SynonymGroup := {
  g_canonical : ustring;
  g_productId : option ustring;
  g_synonyms : OMap.t (list ustring)
}.

Record MetadataEntry := {
  m_canonical : ustring;
  m_regions : OMap.t (list ustring)
}.

Record SynonymDatabase := {
  searchIndex : OMap.t SynonymEntry;
  metadata : OMap.t MetadataEntry
}.

Definition group (canonical productId : string)
           (synonyms : list (string * list string)) : ustring * SynonymGroup :=
  (u canonical,
   {| g_canonical := u canonical; g_productId := Some (u productId);
      g_synonyms := List.map (fun '(s, rs) => (u s, List.map u rs)) synonyms |}).

Definition synonymsData : OMap.t SynonymGroup := [
  group "avocado" "avocado_001"
    [("palta", ["AR"; "CL"; "PE"; "UY"]);
     ("aguacate", ["MX"; "ES"; "CO"; "VE"; "EC"])];
  group "sweet potato" "sweet_potato_006"
    [("batata", ["AR"; "UY"]); ("boniato", ["ES"]); ("camote", ["MX"; "PE"]);
     ("ñame", ["CO"; "VE"]); ("papa dulce", ["CL"; "EC"])];
  group "potato chips" "chips_009"
    [("papas fritas", ["MX"; "CO"; "VE"; "EC"]); ("patatas fritas", ["ES"]);
     ("papitas", ["AR"; "CL"; "UY"]); ("chips", ["US"; "GB"])];
  group "broccoli" "broccoli_001"
    [("brócoli", ["MX"; "ES"; "CO"; "AR"]); ("brécol", ["ES"])];
  group "kale" "kale_005"
    [("col rizada", ["ES"; "MX"; "CO"]); ("col crespa", ["AR"; "CL"]);
     ("berza", ["ES"]); ("acelga silvestre", ["EC"; "PE"])];
  group "chia seeds" "chia_seeds_008"
    [("semillas de chía", ["MX"; "ES"; "CO"; "AR"]); ("chía", ["MX"; "GT"; "SV"])];
  group "greek yogurt" "greek_yogurt_007"
    [("yogur griego", ["ES"; "MX"; "CO"; "AR"]); ("yogurt griego", ["MX"; "VE"]);
     ("yoghurt griego", ["AR"; "UY"])];
  group "quinoa" "quinoa_002"
    [("quinua", ["PE"; "BO"; "EC"]); ("kinoa", ["CL"]); ("quínoa", ["ES"])];
  group "blueberries" "blueberries_005"
    [("arándanos", ["ES"; "MX"; "CO"; "AR"]); ("arándanos azules", ["ES"]);
     ("mirtilo", ["AR"; "UY"]); ("blueberry", ["US"; "GB"])];
  group "carrot" "carrot_004"
    [("zanahoria", ["ES"; "MX"; "CO"; "AR"]); ("carlota", ["VE"]);
     ("daucus", ["ES"])];
  group "banana" "banana_010"
    [("banana", ["AR"; "UY"; "PY"]); ("banano", ["CO"; "VE"; "EC"; "PE"]);
     ("plátano", ["MX"; "ES"; "GT"; "SV"; "HN"]); ("cambur", ["VE"]);
     ("guineo", ["DO"; "PR"; "CU"])];
  group "apple" "apple_002"
    [("manzana", ["MX"; "ES"; "CO"; "AR"; "VE"; "EC"]); ("poma", ["CL"])];
  group "spinach" "spinach_003"
    [("espinaca", ["MX"; "ES"; "CO"; "AR"; "VE"; "EC"]); ("espinafre", ["BR"])];
  group "cauliflower" "cauliflower_006"
    [("coliflor", ["MX"; "ES"; "CO"; "AR"; "VE"; "EC"]); ("couve-flor", ["BR"])];
  group "brussels sprouts" "brussels_007"
    [("coles de bruselas", ["ES"; "MX"; "CO"; "AR"]);
     ("repollitas de bruselas", ["AR"; "CL"]);
     ("couvinha de bruxelas", ["BR"])];
  group "pear" "pear_008"
    [("pera", ["MX"; "ES"; "CO"; "AR"; "VE"; "EC"]); ("pêra", ["BR"])];
  group "orange" "orange_009"
    [("naranja", ["MX"; "ES"; "CO"; "AR"; "VE"; "EC"]); ("china", ["PR"; "DO"]);
     ("laranja", ["BR"])];
  group "salmon" "salmon_003"
    [("salmón", ["MX"; "ES"; "CO"; "AR"; "VE"; "EC"]); ("salmão", ["BR"])];
  group "almonds" "almonds_004"
    [("almendras", ["MX"; "ES"; "CO"; "AR"; "VE"; "EC"]); ("amêndoas", ["BR"])];
  group "popcorn" "chips_009"
    [("palomitas de maíz", ["MX"; "ES"; "CO"; "VE"]); ("palomitas", ["MX"; "ES"]);
     ("pochoclo", ["AR"; "UY"]); ("canguil", ["EC"; "PE"]); ("cotufas", ["VE"]);
     ("crispetas", ["CO"]); ("pororó", ["BR"]);
     ("rositas de maíz", ["GT"; "SV"; "HN"])]
]%string.

Definition countries : OMap.t ustring :=
  List.map (fun '(k, v) => (u k, u v)) [
    ("AR", "Argentina"); ("MX", "México"); ("ES", "España"); ("CO", "Colombia");
    ("EC", "Ecuador"); ("PE", "Perú"); ("CL", "Chile"); ("VE", "Venezuela");
    ("UY", "Uruguay"); ("PY", "Paraguay"); ("DO", "República Dominicana");
    ("GT", "Guatemala"); ("SV", "El Salvador"); ("BR", "Brasil");
    ("US", "Estados Unidos"); ("GB", "Reino Unido")
  ]%string.

(** [countries[regionCode] || regionCode], for the region codes of the
    vocabularies (pairs of capitals; none names an inherited member). *)
Definition getCountryName (regionCode : ustring) : ustring :=
  match OMap.get countries regionCode with
  | Some ((_ :: _) as c) => c
  | _ => regionCode
  end.

Section Build.
Context {U : UnicodeTables}.

(** One synonym of a group; [regions[0]] of an empty list is [undefined]
    and reading its [length] throws: [None]. *)
Definition addSynonym (canonical productId : ustring)
           (index : option (OMap.t SynonymEntry))
           (entry : ustring * list ustring) : option (OMap.t SynonymEntry) :=
  let '(synonym, regions) := entry in
  match index, nth_error regions 0 with
  | Some searchIndex, Some region0 =>
    Some (OMap.set searchIndex (toLowerCase synonym)
            {| canonical := canonical; productId := productId;
               confidence := 0.9;
               regionInfo := Some {| region := region0;
                                     country := getCountryName region0;
                                     language := Some (if (length region0 =? 2)%nat
                                                       then u "es" else u "en") |} |})
  | _, _ => None
  end.

Definition addGroup (db : option SynonymDatabase)
           (entry : ustring * SynonymGroup) : option SynonymDatabase :=
  let '(canonical, data) := entry in
  match db with
  | None => None
  | Some db =>
    let productId :=
      match g_productId data with
      | Some ((_ :: _) as p) => p
      | _ => u "temp_" ++ replaceWhitespaceRuns 0x5F canonical
      end in
    let searchIndex :=
      OMap.set (searchIndex db) (toLowerCase canonical)
        {| canonical := canonical; productId := productId;
           confidence := 1.0; regionInfo := None |} in
    match fold_left (addSynonym canonical productId)
                    (OMap.entries (g_synonyms data)) (Some searchIndex) with
    | None => None
    | Some searchIndex =>
      Some {| searchIndex := searchIndex;
              metadata := OMap.set (metadata db) productId
                            {| m_canonical := canonical;
                               m_regions := g_synonyms data |} |}
    end
  end.

(** [buildSearchIndex] over a vocabulary. *)
Definition buildSearchIndexFrom (data : OMap.t SynonymGroup) : option SynonymDatabase :=
  fold_left addGroup (OMap.entries data)
            (Some {| searchIndex := OMap.empty; metadata := OMap.empty |}).

Definition buildSearchIndex : option SynonymDatabase :=
  buildSearchIndexFrom synonymsData.

End Build.
End Synonyms.
Import Synonyms.

(* ------------------------------------------------------------------ *)
(** ** SynonymService *)

Module SynonymService.

(** The index is a plain object, [{ [key: string]: SynonymEntry }], created
    by the literal [{}]: a read [searchIndex[key]] finds the own property
    [key] and, when there is none, the member of that name that every plain
    object inherits from [Object.prototype]. *)
Definition objectPrototypeMembers : list ustring :=
  List.map u [ "constructor"; "__defineGetter__"; "__defineSetter__";
               "hasOwnProperty"; "__lookupGetter__"; "__lookupSetter__";
               "isPrototypeOf"; "propertyIsEnumerable"; "toString";
               "valueOf"; "__proto__"; "toLocaleString" ]%string.

(** What [searchIndex[key]] evaluates to: an entry of the index, a member
    of [Object.prototype] (a function, or the prototype object itself for
    [__proto__]: truthy, and without a [canonical], [confidence] or
    [regionInfo] property), or [undefined]. *)
Inductive Property :=
| own (entry : SynonymEntry)
| inherited
| absent.

Definition isPrototypeMember (key : ustring) : bool :=
  existsb (ustring_eqb key) objectPrototypeMembers.

Definition readProperty (searchIndex : OMap.t SynonymEntry) (key : ustring)
  : Property :=
  match OMap.get searchIndex key with
  | Some entry => own entry
  | None => if isPrototypeMember key then inherited else absent
  end.

(** The fields copied from the value read are [undefined] ([None]) when
    that value is an inherited member. *)
Record SynonymMatch := {
  canonicalTerm : option ustring;
  originalTerm : ustring;
  sm_confidence : option Q;
  sm_regionInfo : option RegionInfo
}.

Record t := { index : OMap.t SynonymEntry }.

Section Service.
Context {U : UnicodeTables}.

Definition findSynonyms (this : t) (term : ustring) : list SynonymMatch :=
  if isBlank term then []
  else
    let normalizedTerm := normalize_default term in
    let matches : list SynonymMatch := [] in
    match readProperty (index this) normalizedTerm with
    | own synonymEntry =>
      matches ++ [ {| canonicalTerm := Some (canonical synonymEntry);
                      originalTerm := term;
                      sm_confidence := Some (confidence synonymEntry);
                      sm_regionInfo := regionInfo synonymEntry |} ]
    | inherited =>
      matches ++ [ {| canonicalTerm := None;
                      originalTerm := term;
                      sm_confidence := None;
                      sm_regionInfo := None |} ]
    | absent => matches
    end.

(** [!!this.searchIndex[normalizedTerm]] *)
Definition hasSynonyms (this : t) (term : ustring) : bool :=
  match readProperty (index this) (normalize_default term) with
  | own _ | inherited => true
  | absent => false
  end.

(** [entry ? entry.canonical : null]; [null] and the [undefined] read from
    an inherited member are both [None]. *)
Definition getCanonicalTerm (this : t) (term : ustring) : option ustring :=
  match readProperty (index this) (normalize_default term) with
  | own entry => Some (canonical entry)
  | inherited => None
  | absent => None
  end.

(** [Object.entries] lists the own properties only. *)
Definition variationStep (normalizedCanonical : ustring)
           (variations : list SynonymMatch) (e : ustring * SynonymEntry)
  : list SynonymMatch :=
  let '(term, entry) := e in
  let normalizedEntry := normalize_default (canonical entry) in
  if ustring_eqb normalizedEntry normalizedCanonical
     && negb (ustring_eqb term normalizedCanonical)
  then variations ++ [ {| canonicalTerm := Some (canonical entry);
                          originalTerm := term;
                          sm_confidence := Some (confidence entry);
                          sm_regionInfo := regionInfo entry |} ]
  else variations.

Definition findAllVariations (this : t) (canonicalTerm : ustring)
  : list SynonymMatch :=
  let normalizedCanonical := normalize_default canonicalTerm in
  fold_left (variationStep normalizedCanonical) (OMap.entries (index this)) [].

End Service.
End SynonymService.

(* ------------------------------------------------------------------ *)
(** ** SynonymMatchStrategy *)

Module SynonymMatchStrategy.
Import SynonymService.
Section Strategy.
Context {U : UnicodeTables}.

(** The arrow of a matched-term note, U+2192 between two spaces; an
    [undefined] canonical term prints as the word. *)
Definition arrowNote (m : SynonymMatch) : ustring :=
  originalTerm m ++ [0x20; 0x2192; 0x20]%N
    ++ match canonicalTerm m with
       | Some canonicalTerm => canonicalTerm
       | None => u "undefined"
       end.

(** [confidence * factor]: [NaN] ([None]) when the confidence is
    [undefined]. *)
Definition times (x : option Q) (factor : Q) : option Q :=
  option_map (fun x => x * factor) x.

(** Score and matched terms of one item against one synonym match. *)
Definition scoreAgainst (synonymMatch : SynonymMatch) (canonicalNormalized : ustring)
           (item : Searchable) : option Q * list ustring :=
  let normalizedName := normalize_default (name item) in
  let normalizedCategory := normalize_default (categoryOrEmpty item) in
  if ustring_eqb normalizedName canonicalNormalized then
    (times (sm_confidence synonymMatch) 0.95, [name item])
  else if startsWith normalizedName canonicalNormalized then
    let lengthRatio := lengthQ canonicalNormalized / lengthQ normalizedName in
    (times (sm_confidence synonymMatch) (0.85 + lengthRatio * 0.1), [name item])
  else if (4 <=? length canonicalNormalized)%nat
          && includes normalizedName canonicalNormalized then
    let position :=
      match indexOf normalizedName canonicalNormalized with
      | Some i => inject_Z (Z.of_nat i)
      | None => -1
      end in
    let lengthRatio := lengthQ canonicalNormalized / lengthQ normalizedName in
    let positionPenalty := position / lengthQ normalizedName in
    (times (times (sm_confidence synonymMatch) (0.7 + lengthRatio * 0.15))
           (1 - positionPenalty * 0.3), [name item])
  else if ustring_eqb normalizedCategory canonicalNormalized then
    (times (sm_confidence synonymMatch) 0.8, [categoryOrEmpty item])
  else (Some 0, []).

(** [r => r.item.id === item.id] *)
Definition sameItem (target : Searchable) (r : SearchResult) : bool :=
  ustring_eqb (id (item r)) (id target).

(** [existingResult.score = matchScore; existingResult.matchedTerms.push(note)] *)
Definition improve (matchScore : Q) (note : ustring) (existing : SearchResult)
  : SearchResult :=
  {| item := item existing;
     score := matchScore;
     matchType := matchType existing;
     matchedTerms := matchedTerms existing ++ [note];
     originalQuery := originalQuery existing |}.

(** [matchScore > 0] is false of [NaN]. *)
Definition itemStep (query : ustring) (synonymMatch : SynonymMatch)
           (canonicalNormalized : ustring)
           (results : list SearchResult) (item : Searchable) : list SearchResult :=
  let '(matchScore, matchedTerms) :=
    scoreAgainst synonymMatch canonicalNormalized item in
  match matchScore with
  | Some matchScore =>
    if Qpositive matchScore then
      match arrayFind (sameItem item) results with
      | None =>
        results ++ [ {| item := item; score := matchScore;
                        matchType := mt_partial;
                        matchedTerms := matchedTerms ++ [arrowNote synonymMatch];
                        originalQuery := query |} ]
      | Some existingResult =>
        if Qlt_bool (score existingResult) matchScore then
          updateFirst (sameItem item)
                      (improve matchScore (arrowNote synonymMatch)) results
        else results
      end
    else results
  | None => results
  end.

(** [normalize(undefined)] is the empty string. *)
Definition synonymStep (items : list Searchable) (query : ustring)
           (results : list SearchResult) (synonymMatch : SynonymMatch)
  : list SearchResult :=
  let canonicalNormalized :=
    match canonicalTerm synonymMatch with
    | Some canonicalTerm => normalize_default canonicalTerm
    | None => []
    end in
  fold_left (itemStep query synonymMatch canonicalNormalized) items results.

Definition findMatches (service : SynonymService.t) (items : list Searchable)
           (query normalizedQuery : ustring) : list SearchResult :=
  let results : list SearchResult := [] in
  let synonymMatches := findSynonyms service query in
  if (length synonymMatches =? 0)%nat then results
  else
    let results := fold_left (synonymStep items query) synonymMatches results in
    arraySort HybridSearchEngine.byScoreDesc results.

Definition getType : ustring := u "synonym".
Definition getPriority : Z := 85.

End Strategy.
End SynonymMatchStrategy.

(* ------------------------------------------------------------------ *)
(** ** QueryEngine *)

Module QueryEngine.

Inductive SortOrder := asc | desc.

Section Engine.
Context {U : UnicodeTables}.

(** What a filter carries besides its [type]. *)
Variable Payload : Type.

Record FilterCriteria := {
  type : ustring;
  payload : Payload
}.

Record FilterDefinition := {
  fd_type : ustring;
  applyFilter : list Searchable -> FilterCriteria -> list Searchable
}.

Record QueryOptions := {
  searchTerm : option ustring;
  filters : option (list FilterCriteria);
  sortBy : option ustring;
  sortOrder : option SortOrder
}.

Record QueryResult := {
  items : list Searchable;
  totalCount : nat;
  appliedFilters : list FilterCriteria
}.

Record t := { filterRegistry : OMap.t FilterDefinition }.

(** [a[key] > b[key]] on two items, and the host's [sort] under a
    comparator that never answers 0. *)
Variable propertyGreater : ustring -> Searchable -> Searchable -> bool.
Variable hostSort : (Searchable -> Searchable -> Z) -> list Searchable -> list Searchable.

Definition registerFilter (this : t) (definition : FilterDefinition) : t :=
  {| filterRegistry := OMap.set (filterRegistry this) (fd_type definition) definition |}.

(** [options.searchTerm && options.searchTerm.trim()] *)
Definition hasSearchTerm (options : QueryOptions) : bool :=
  match searchTerm options with
  | Some ((_ :: _) as s) => (0 <? length (trim s))%nat
  | _ => false
  end.

Definition matchesTerm (searchTerm : ustring) (item : Searchable) : bool :=
  includes (toLowerCase (name item)) searchTerm
  || match category item with
     | Some c => includes (toLowerCase c) searchTerm
     | None => false
     end.

Definition textStage (options : QueryOptions) (filteredItems : list Searchable)
  : list Searchable :=
  if hasSearchTerm options then
    match searchTerm options with
    | Some s =>
      let searchTerm := trim (toLowerCase s) in
      List.filter (matchesTerm searchTerm) filteredItems
    | None => filteredItems
    end
  else filteredItems.

Definition filterStep (this : t)
           (state : list Searchable * list FilterCriteria) (filter : FilterCriteria)
  : list Searchable * list FilterCriteria :=
  let '(filteredItems, appliedFilters) := state in
  match OMap.get (filterRegistry this) (type filter) with
  | Some filterDef => (applyFilter filterDef filteredItems filter,
                       appliedFilters ++ [filter])
  | None => state
  end.

Definition filterStage (this : t) (options : QueryOptions)
           (state : list Searchable * list FilterCriteria)
  : list Searchable * list FilterCriteria :=
  match filters options with
  | Some fs => fold_left (filterStep this) fs state
  | None => state
  end.

Definition compareBy (options : QueryOptions) (key : ustring) (a b : Searchable) : Z :=
  match sortOrder options with
  | Some desc => if propertyGreater key b a then 1 else -1
  | _ => if propertyGreater key a b then 1 else -1
  end%Z.

Definition sortStage (options : QueryOptions) (filteredItems : list Searchable)
  : list Searchable :=
  match sortBy options with
  | Some ((_ :: _) as key) => hostSort (compareBy options key) filteredItems
  | _ => filteredItems
  end.

Definition executeQuery (this : t) (items : list Searchable) (options : QueryOptions)
  : QueryResult :=
  let filteredItems := items in
  let appliedFilters : list FilterCriteria := [] in
  let filteredItems := textStage options filteredItems in
  let '(filteredItems, appliedFilters) :=
    filterStage this options (filteredItems, appliedFilters) in
  let filteredItems := sortStage options filteredItems in
  {| items := filteredItems;
     totalCount := length filteredItems;
     appliedFilters := appliedFilters |}.

(** Vocabulary of the statements about [executeQuery]. *)
Definition isRegistered (this : t) (filter : FilterCriteria) : bool :=
  match OMap.get (filterRegistry this) (type filter) with
  | Some _ => true
  | None => false
  end.

Definition suppliedFilters (options : QueryOptions) : list FilterCriteria :=
  match filters options with Some fs => fs | None => [] end.

Definition withFilters (options : QueryOptions) (fs : option (list FilterCriteria))
  : QueryOptions :=
  {| searchTerm := searchTerm options; filters := fs;
     sortBy := sortBy options; sortOrder := sortOrder options |}.

Definition withoutSearchTerm (options : QueryOptions) : QueryOptions :=
  {| searchTerm := None; filters := filters options;
     sortBy := sortBy options; sortOrder := sortOrder options |}.

End Engine.
End QueryEngine.

(* ------------------------------------------------------------------ *)
(** ** Concrete inputs used by the examples *)

Module Examples.

(** A stand-in for Fuse.js: a record is reported, at its index, when its
    lower-cased name and the lower-cased query share their first three code
    units. *)
Section PrefixFuse.
Context {U : UnicodeTables}.

Fixpoint scanFrom (i : nat) (items : list Searchable) (query : ustring)
  : list FuseResult :=
  match items with
  | [] => []
  | it :: rest =>
    (if startsWith (toLowerCase (name it)) (firstn 3 (toLowerCase query))
     then [ {| fr_item := it; refIndex := i; fr_score := Some 0.25;
               matches := Some [ {| value := Some (name it) |} ] |} ]
     else []) ++ scanFrom (S i) rest query
  end.

Definition prefixFuse : FuseLibrary := {| fuseSearch := scanFrom 0 |}.

End PrefixFuse.

(** The host's sort stood in for by the stable insertion sort, and the
    property comparison by the code-unit order of names. *)
Definition insertionHostSort (compareFn : Searchable -> Searchable -> Z)
           (l : list Searchable) : list Searchable :=
  arraySort (fun a b => inject_Z (compareFn a b)) l.

Definition nameGreater (key : ustring) (a b : Searchable) : bool :=
  ustring_ltb (name b) (name a).

(** A filter keeping the items of one category, and an engine that
    registers it under the type "category". *)
Definition categoryFilter : QueryEngine.FilterDefinition ustring :=
  {| QueryEngine.fd_type := u "category";
     QueryEngine.applyFilter := fun items f =>
       List.filter (fun it => ustring_eqb (categoryOrEmpty it) (QueryEngine.payload f))
                   items |}.

Definition queryEngine : QueryEngine.t ustring :=
  QueryEngine.registerFilter {| QueryEngine.filterRegistry := OMap.empty |}
                             categoryFilter.

Definition latinFuse : FuseLibrary := prefixFuse (U := Latin1.tables).

Definition mkItem (i n c : string) : Searchable :=
  {| id := u i; name := u n; category := Some (u c) |}.

(** The two-item catalog of the end-to-end scenarios. *)
Definition catalog : list Searchable :=
  [ mkItem "1" "Zanahoria" "Verduras"; mkItem "2" "Aguacate" "Frutas" ].

(** The search index shipped with the service, under the Latin-1 tables. *)
Definition shippedIndex : OMap.t SynonymEntry :=
  match buildSearchIndex (U := Latin1.tables) with
  | Some db => searchIndex db
  | None => []
  end.

Definition shippedService : SynonymService.t :=
  {| SynonymService.index := shippedIndex |}.

(** The avocado group as the first vocabulary had it: Spanish canonical
    term, no product id. *)
Definition aguacateVocabulary : OMap.t SynonymGroup :=
  [ (u "aguacate",
     {| g_canonical := u "aguacate"; g_productId := None;
        g_synonyms := [ (u "palta", [u "AR"; u "CL"; u "PE"; u "UY"]);
                        (u "avocado", [u "US"; u "GB"]) ] |}) ].

(** "palta → aguacate" *)
Definition paltaNote : ustring := u "palta → aguacate".

Definition aguacateService : SynonymService.t :=
  {| SynonymService.index :=
       match buildSearchIndexFrom (U := Latin1.tables) aguacateVocabulary with
       | Some db => searchIndex db
       | None => []
       end |}.

(** The passion-fruit group of the earlier vocabulary: a canonical term
    that carries an accent. *)
Definition maracuyaVocabulary : OMap.t SynonymGroup :=
  [ group "maracuyá" "exotic_passion_001"
      [("parchita", ["VE"]); ("chinola", ["DO"]);
       ("fruta de la pasión", ["ES"]); ("passion fruit", ["US"; "GB"])] ]%string.

Definition maracuyaService : SynonymService.t :=
  {| SynonymService.index :=
       match buildSearchIndexFrom (U := Latin1.tables) maracuyaVocabulary with
       | Some db => searchIndex db
       | None => []
       end |}.

End Examples.

(* ------------------------------------------------------------------ *)
(** ** Vocabulary of the statements *)

Definition resultId (r : SearchResult) : ustring := id (item r).

(** Scores in non-increasing order of position. *)
Definition nonIncreasing (rs : list SearchResult) : Prop :=
  StronglySorted (fun a b => score b <= score a) rs.


Section Candidates.
Context {U : UnicodeTables} {F : FuseLibrary}.
Import HybridSearchEngine.

(** What both revisions hand to the final filter, sort and slice. *)
Definition hierarchicalCandidates (this : HybridSearchEngine.t)
           (query : ustring) (options : SearchOptions) : list SearchResult :=
  let normalizedQuery := normalize_default query in
  let exactResults := getExactMatches this query normalizedQuery in
  if (0 <? length exactResults)%nat then exactResults
  else
    let fuzzyResults := getFuzzyMatches this query options in
    if (0 <? length fuzzyResults)%nat then fuzzyResults
    else getPartialMatches this normalizedQuery.

Definition cumulativeCandidates (this : HybridSearchEngineCumulative.t)
           (query : ustring) (options : SearchOptions) : list SearchResult :=
  let normalizedQuery := normalize_default query in
  OMap.values
    (HybridSearchEngineCumulative.partialSearch this normalizedQuery
       (HybridSearchEngineCumulative.fuzzySearch this query options
          (HybridSearchEngineCumulative.exactSearch this query normalizedQuery
             OMap.empty))).

End Candidates.

(** The ranking contract of a search entry point, seen as a function of its
    options: scores never increase along the list, a [minScore] bounds them
    from below, a positive [maxResults] keeps that many leading results of
    the unlimited answer, and a [maxResults] of 0 limits nothing. *)
Definition rankedOutput (searchWith : SearchOptions -> list SearchResult)
           (options : SearchOptions) : Prop :=
  let res := searchWith options in
  nonIncreasing res
  /\ (forall m r, minScore options = Some m -> In r res -> m <= score r)
  /\ (forall k, maxResults options = Some k -> (0 < k)%Z ->
        res = firstn (Z.to_nat k) (searchWith (withMaxResults options None))
        /\ (Z.of_nat (length res) <= k)%Z)
  /\ (maxResults options = Some 0%Z ->
        res = searchWith (withMaxResults options None)).

(** An entry of the cumulative engine's [Map]: stored under the id of its
    item, with a score that is not negative. *)
Definition wellKeyed (m : OMap.t SearchResult) : Prop :=
  NoDup (OMap.keys m)
  /\ Forall (fun e => resultId (snd e) = fst e /\ 0 <= score (snd e)) m.

(** No two adjacent white-space characters. *)
Fixpoint singleSpaced (s : ustring) : bool :=
  match s with
  | c :: (c' :: _) as r => negb (isWhiteSpace c && isWhiteSpace c') && singleSpaced r
  | _ => true
  end.

(** A unit left by [normalize] when special characters are removed: a word
    character, not a capital when lower-casing is on, or a space. *)
Definition cleanUnit (lower : bool) (c : N) : bool :=
  (isWordChar c && implb lower (negb (isUpper c))) || (c =? 32)%N.

(** The match reported for an index entry [(term, entry)]. *)
Definition matchOfEntry (originalTerm : ustring) (entry : SynonymEntry)
  : SynonymService.SynonymMatch :=
  {| SynonymService.canonicalTerm := Some (canonical entry);
     SynonymService.originalTerm := originalTerm;
     SynonymService.sm_confidence := Some (confidence entry);
     SynonymService.sm_regionInfo := regionInfo entry |}.

(** The match reported when the normalised term names a member inherited
    from [Object.prototype]: only the term as typed is defined. *)
Definition matchOfInherited (originalTerm : ustring)
  : SynonymService.SynonymMatch :=
  {| SynonymService.canonicalTerm := None;
     SynonymService.originalTerm := originalTerm;
     SynonymService.sm_confidence := None;
     SynonymService.sm_regionInfo := None |}.

(** The entries kept by [findAllVariations] for a normalised query. *)
Definition isVariationOf {U : UnicodeTables} (normalizedCanonical : ustring)
           (e : ustring * SynonymEntry) : bool :=
  ustring_eqb (normalize_default (canonical (snd e))) normalizedCanonical
  && negb (ustring_eqb (fst e) normalizedCanonical).

(* ------------------------------------------------------------------ *)
(** ** The remaining operations of the services *)

(** A [Set<string>]: [add] keeps the first insertion of a value,
    [Array.from] lists the values in insertion order. *)
Definition setAdd (s : list ustring) (x : ustring) : list ustring :=
  if existsb (ustring_eqb x) s then s else s ++ [x].

Module TextVariations.
Section Service.
Context {U : UnicodeTables}.

Definition accentsOnly : PartialNormalizationOptions :=
  {| p_removeAccents := Some true; p_toLowerCase := Some false;
     p_removeSpecialChars := None; p_trimWhitespace := None |}.

Definition lowerOnly : PartialNormalizationOptions :=
  {| p_removeAccents := Some false; p_toLowerCase := Some true;
     p_removeSpecialChars := None; p_trimWhitespace := None |}.

(** [TextNormalizationService.createSearchVariations] *)
Definition createSearchVariations (term : ustring) : list ustring :=
  let variations : list ustring := [] in
  let variations := setAdd variations term in
  let normalized := normalize term noOptions in
  let variations := setAdd variations normalized in
  let withoutAccents := normalize term accentsOnly in
  let variations := setAdd variations withoutAccents in
  let lowerCase := normalize term lowerOnly in
  let variations := setAdd variations lowerCase in
  List.filter (fun v => (0 <? length v)%nat) variations.

End Service.
End TextVariations.

Module SynonymQueries.
Import SynonymService.
Section Service.
Context {U : UnicodeTables}.

(** [SynonymService.getRegionInfo]: [entry?.regionInfo || null] *)
Definition getRegionInfo (this : SynonymService.t) (term : ustring)
  : option RegionInfo :=
  match readProperty (index this) (normalize_default term) with
  | own entry => regionInfo entry
  | inherited => None
  | absent => None
  end.

End Service.

End SynonymQueries.

Module QueryRegistry.
Section Engine.
Variable Payload : Type.

(** [QueryEngine.getRegisteredFilters] *)
Definition getRegisteredFilters (this : QueryEngine.t Payload)
  : list (QueryEngine.FilterDefinition Payload) :=
  OMap.values (QueryEngine.filterRegistry this).

End Engine.
End QueryRegistry.

(* ------------------------------------------------------------------ *)
(** ** components/Favorites: the two pure callbacks *)

Module Favorites.

Inductive FavoriteStatus := heart | thumb_down.

Record FavoriteItem := {
  id : ustring;
  name : ustring;
  image : ustring;
  rating : Q;
  status : FavoriteStatus
}.

Section Component.
Context {U : UnicodeTables}.

(** The product database and the translation hook. *)
Variable Product : Type.
Variable product_id : Product -> ustring.
Variable product_image : Product -> ustring.
Variable product_rating : Product -> Q.
Variable getProductById : ustring -> option Product.
Variable translateProductName : Product -> ustring.

Definition convertStep (items : list FavoriteItem)
           (e : ustring * FavoriteStatus) : list FavoriteItem :=
  let '(productId, favoriteStatus) := e in
  match favoriteStatus with
  | heart =>
    match getProductById productId with
    | Some product =>
      items ++ [ {| id := product_id product;
                    name := translateProductName product;
                    image := product_image product;
                    rating := product_rating product;
                    status := favoriteStatus |} ]
    | None => items
    end
  | thumb_down => items
  end.

(** [convertToFavoriteItems(favoritesData)] *)
Definition convertToFavoriteItems (favoritesData : OMap.t FavoriteStatus)
  : list FavoriteItem :=
  fold_left convertStep (OMap.entries favoritesData) [].

(** [handleSearch(searchTerm, items)] over the component's [favoriteItems]. *)
Definition handleSearch (favoriteItems : list FavoriteItem)
           (searchTerm : ustring) (items : list FavoriteItem) : list FavoriteItem :=
  if ustring_eqb (trim searchTerm) [] then favoriteItems
  else List.filter (fun item => includes (toLowerCase (name item))
                                         (toLowerCase searchTerm))
                   favoriteItems.

End Component.
End Favorites.

(* ------------------------------------------------------------------ *)
(** ** Vocabulary of the further statements *)

(** The results of one score. *)
Definition hasScore (q : Q) (r : SearchResult) : bool := Qeq_bool (score r) q.

(** A result without the query text it carries. *)
Definition resultCore (r : SearchResult)
  : Searchable * Q * MatchType * list ustring :=
  (item r, score r, matchType r, matchedTerms r).

(** The exact-match record of an item matched by name. *)
Definition exactByName (query : ustring) (it : Searchable) : SearchResult :=
  {| item := it; score := 1.0; matchType := mt_exact;
     matchedTerms := [name it]; originalQuery := query |}.

(** Some item of the catalog matches the normalised query exactly, by name
    or by category. *)
Definition hasExactMatch {U : UnicodeTables}
           (items : list Searchable) (query : ustring) : Prop :=
  exists it, In it items
             /\ (normalize_default (name it) = normalize_default query
                 \/ normalize_default (categoryOrEmpty it) = normalize_default query).

(** The score a result may carry, by the tier that produced it. *)
Definition scoreInBand (r : SearchResult) : Prop :=
  match matchType r with
  | mt_exact => score r = 1.0 \/ score r = 0.95
  | mt_fuzzy => 0 <= score r /\ score r <= 0.8
  | mt_partial => score r = 0.6 \/ score r = 0.5
  | mt_synonym => False
  end.

(** The query text a result carries: the raw query, or the normalised one
    for a partial match. *)
Definition carriesQuery {U : UnicodeTables} (query : ustring) (r : SearchResult) : Prop :=
  originalQuery r = match matchType r with
                    | mt_partial => normalize_default query
                    | _ => query
                    end.

(** Fuse scores are distances from 0 (perfect) upwards. *)
Definition fuseScoresNonneg (rs : list FuseResult) : Prop :=
  Forall (fun fr => forall s, fr_score fr = Some s -> 0 <= s) rs.

(** The same result carrying another query text. *)
Definition withQuery (query : ustring) (r : SearchResult) : SearchResult :=
  {| item := item r; score := score r; matchType := matchType r;
     matchedTerms := matchedTerms r; originalQuery := query |}.

(** The exact-match record of an item matched by category. *)
Definition exactByCategory (query : ustring) (it : Searchable) : SearchResult :=
  {| item := it; score := 0.95; matchType := mt_exact;
     matchedTerms := [categoryOrEmpty it]; originalQuery := query |}.

(** Two items of one category, and an item without a category. *)
Definition fruits : list Searchable :=
  [ Examples.mkItem "1" "Pera" "Frutas"; Examples.mkItem "2" "Aguacate" "Frutas" ].

Definition uncategorised : Searchable :=
  {| id := u "3"; name := u "Quinoa"; category := None |}.

(** Every synonym of the vocabulary lists at least one region. *)
Definition regionsListed (data : OMap.t SynonymGroup) : Prop :=
  Forall (fun g => Forall (fun s => snd s <> @nil ustring) (g_synonyms (snd g))) data.

(** The terms of a vocabulary: each group key, then its synonyms. *)
Definition termsOf (data : OMap.t SynonymGroup) : list ustring :=
  List.flat_map (fun g => fst g :: List.map fst (g_synonyms (snd g))) data.

(** An index entry as [buildSearchIndex] writes it: for a canonical term,
    confidence 1.0 and no region; for a synonym, confidence 0.9 and the
    region information derived from one region code. *)
Definition builtEntry (data : OMap.t SynonymGroup) (e : SynonymEntry) : Prop :=
  In (canonical e) (OMap.keys data)
  /\ ((confidence e = 1.0 /\ regionInfo e = None)
      \/ (confidence e = 0.9
          /\ exists r, regionInfo e
                       = Some {| region := r; country := getCountryName r;
                                 language := Some (if (length r =? 2)%nat
                                                   then u "es" else u "en") |})).

(** [data.productId || `temp_${canonical.replace(/\s+/g, '_')}`] *)
Definition groupProductId (canonical : ustring) (data : SynonymGroup) : ustring :=
  match g_productId data with
  | Some ((_ :: _) as p) => p
  | _ => u "temp_" ++ replaceWhitespaceRuns 0x5F canonical
  end.


(** Sample favourites: a product table, a name translation, stored marks. *)
Definition sampleProduct (k : ustring) : option Searchable :=
  List.find (fun it => ustring_eqb (id it) k) Examples.catalog.

Definition sampleFavorites : OMap.t Favorites.FavoriteStatus :=
  [ (u "2", Favorites.heart); (u "1", Favorites.thumb_down);
    (u "9", Favorites.heart) ].

Definition sampleConvert : OMap.t Favorites.FavoriteStatus -> list Favorites.FavoriteItem :=
  Favorites.convertToFavoriteItems id (fun _ => @nil N) (fun _ => 0)
                                   sampleProduct name.
(* ------------------------------------------------------------------ *)
(** ** The Latin-1 tables satisfy the laws *)

Module Latin1Facts.
Import Latin1.

Lemma decomposeUpper_range c b m :
  decomposeUpper c = Some (b, m) ->
  (0xC0 <= c <= 0xDD)%N /\ isUpper b = true.
Proof.
  destruct c as [|p]; [discriminate|].
  do 8 (try (destruct p as [p|p|]; try discriminate));
    intros H; injection H as <- <-; split; try reflexivity; lia.
Qed.

Lemma decomposeUpper_none c :
  (c < 0xC0 \/ 0xDD < c)%N -> decomposeUpper c = None.
Proof.
  intros H. destruct (decomposeUpper c) as [[b m]|] eqn:E; [|reflexivity].
  apply decomposeUpper_range in E. lia.
Qed.

(** A property of code units checked by evaluation below U+0100. *)
Lemma below_256 (p : N -> bool) :
  forallb (fun n => p (N.of_nat n)) (seq 0 256) = true ->
  forall c, (c < 256)%N -> p c = true.
Proof.
  intros H c Hc. rewrite forallb_forall in H.
  specialize (H (N.to_nat c)). rewrite N2Nat.id in H. apply H.
  apply in_seq. lia.
Qed.

Lemma unitNoUpper_all c : Latin1.unitNoUpper c = true.
Proof.
  destruct (N.ltb_spec c 256) as [Hc|Hc].
  - revert c Hc. apply below_256. vm_compute. reflexivity.
  - unfold Latin1.unitNoUpper, lowerUnit, decomposeUnit, isUpper.
    replace ((0x41 <=? c) && (c <=? 0x5A))%N with false
      by (symmetry; apply andb_false_iff; right; apply N.leb_gt; lia).
    replace ((0xC0 <=? c) && (c <=? 0xDE))%N with false
      by (symmetry; apply andb_false_iff; right; apply N.leb_gt; lia).
    simpl. rewrite decomposeUpper_none by lia.
    replace (c =? 0xFF)%N with false by (symmetry; apply N.eqb_neq; lia).
    replace ((0xE0 <=? c) && (c <=? 0xFE))%N with false
      by (symmetry; apply andb_false_iff; right; apply N.leb_gt; lia).
    simpl. unfold isUpper.
    replace ((0x41 <=? c) && (c <=? 0x5A))%N with false
      by (symmetry; apply andb_false_iff; right; apply N.leb_gt; lia).
    reflexivity.
Qed.

Lemma asciiFixed_all c : Latin1.asciiFixed c = true.
Proof.
  destruct (N.ltb_spec c 256) as [Hc|Hc].
  - revert c Hc. apply below_256. vm_compute. reflexivity.
  - unfold Latin1.asciiFixed, isAscii.
    replace (c <? 0x80)%N with false by (symmetry; apply N.ltb_ge; lia).
    reflexivity.
Qed.

Lemma lowerUnit_no_upper c : isUpper (lowerUnit c) = false.
Proof.
  destruct (N.ltb_spec c 256) as [Hc|Hc].
  - apply negb_true_iff. revert c Hc. apply below_256. vm_compute. reflexivity.
  - unfold lowerUnit, isUpper.
    replace ((0x41 <=? c) && (c <=? 0x5A))%N with false
      by (symmetry; apply andb_false_iff; right; apply N.leb_gt; lia).
    replace ((0xC0 <=? c) && (c <=? 0xDE))%N with false
      by (symmetry; apply andb_false_iff; right; apply N.leb_gt; lia).
    simpl.
    apply andb_false_iff; right; apply N.leb_gt; lia.
Qed.

Lemma decomposeUnit_ascii c : isAscii c = true -> decomposeUnit c = [c].
Proof.
  intros H. pose proof (asciiFixed_all c) as A. unfold Latin1.asciiFixed in A.
  rewrite H in A. simpl in A. apply andb_prop in A as [A _].
  destruct (decomposeUnit c) as [|d [|? ?]]; try discriminate.
  apply N.eqb_eq in A. now subst.
Qed.

Lemma lowerUnit_ascii_lower c :
  isAscii c && negb (isUpper c) = true -> lowerUnit c = c.
Proof.
  intros H. apply andb_prop in H as [H1 H2].
  pose proof (asciiFixed_all c) as A. unfold Latin1.asciiFixed in A.
  rewrite H1, H2 in A. simpl in A. apply andb_prop in A as [_ A].
  now apply N.eqb_eq.
Qed.

#[export] Instance laws : UnicodeLaws Latin1.tables.
Proof.
  constructor; simpl.
  - reflexivity.
  - reflexivity.
  - induction 1 as [|c s Hc _ IH]; simpl; [reflexivity|].
    now rewrite lowerUnit_ascii_lower, IH.
  - induction 1 as [|c s Hc _ IH]; simpl; [reflexivity|].
    now rewrite decomposeUnit_ascii, IH.
  - induction s as [|c s IH]; simpl; constructor; auto.
    apply lowerUnit_no_upper.
  - induction s as [|c s IH]; simpl; [constructor|].
    apply Forall_app. split; [|exact IH].
    pose proof (unitNoUpper_all c) as A. unfold Latin1.unitNoUpper in A.
    rewrite forallb_forall in A. apply Forall_forall. intros d Hd.
    apply A in Hd. now apply negb_true_iff.
Qed.

End Latin1Facts.


(* ================================================================== *)
(** * Properties *)

(* ------------------------------------------------------------------ *)
(** ** Lists, sorting and dictionaries *)

Section ListFacts.
Variables A B : Type.

Lemma NoDup_map_filter (f : A -> B) (p : A -> bool) l :
  NoDup (List.map f l) -> NoDup (List.map f (List.filter p l)).
Proof.
  induction l as [|x l IH]; simpl; intros H; [constructor|].
  inversion H as [|? ? Hx Hl]; subst.
  destruct (p x); simpl; auto.
  constructor; auto.
  intros Hin. apply Hx. apply in_map_iff in Hin as (y & <- & Hy).
  apply in_map. apply filter_In in Hy. tauto.
Qed.

Lemma NoDup_firstn n (l : list A) : NoDup l -> NoDup (firstn n l).
Proof.
  intros H. rewrite <- (firstn_skipn n l) in H.
  now apply NoDup_app_remove_r in H.
Qed.

Lemma NoDup_map_agree (g : A -> B) l x y :
  NoDup (List.map g l) -> In x l -> In y l -> g x = g y -> x = y.
Proof.
  induction l as [|a l IH]; simpl; [tauto|].
  intros H Hx Hy E. inversion H as [|? ? Ha Hl]; subst.
  destruct Hx as [->|Hx], Hy as [->|Hy]; auto.
  - exfalso. apply Ha. rewrite E. now apply in_map.
  - exfalso. apply Ha. rewrite <- E. now apply in_map.
Qed.

Lemma NoDup_map_on (f : A -> B) l :
  (forall x y, In x l -> In y l -> f x = f y -> x = y) ->
  NoDup l -> NoDup (List.map f l).
Proof.
  induction l as [|a l IH]; simpl; intros Hinj H; [constructor|].
  inversion H as [|? ? Ha Hl]; subst. constructor.
  - intros Hin. apply in_map_iff in Hin as (y & E & Hy).
    assert (y = a) by (apply Hinj; auto). now subst.
  - apply IH; auto.
Qed.

End ListFacts.

Section SortFacts.
Variable A : Type.
Variable compareFn : A -> A -> Q.

Lemma insertSorted_perm x l : Permutation (x :: l) (insertSorted compareFn x l).
Proof.
  induction l as [|y l IH]; simpl; [reflexivity|].
  destruct (Qpositive (compareFn x y)); [|reflexivity].
  rewrite perm_swap. now constructor.
Qed.

Lemma arraySort_perm l : Permutation l (arraySort compareFn l).
Proof.
  induction l as [|x l IH]; simpl; [constructor|].
  rewrite <- insertSorted_perm. now constructor.
Qed.

Lemma arraySort_In x l : In x (arraySort compareFn l) <-> In x l.
Proof.
  split; apply Permutation_in;
    [symmetry|]; apply arraySort_perm.
Qed.

Lemma arraySort_length l : length (arraySort compareFn l) = length l.
Proof. symmetry. apply Permutation_length, arraySort_perm. Qed.

End SortFacts.

Lemma slice0_positive (A : Type) (l : list A) k :
  (0 < k)%Z -> slice0 l k = firstn (Z.to_nat k) l.
Proof. intros H. unfold slice0. destruct (Z.leb_spec 0 k); [reflexivity|lia]. Qed.

Lemma firstn_In (A : Type) n (l : list A) x : In x (firstn n l) -> In x l.
Proof.
  intros H. rewrite <- (firstn_skipn n l). apply in_or_app. now left.
Qed.

Lemma slice0_incl (A : Type) (l : list A) k x : In x (slice0 l k) -> In x l.
Proof. unfold slice0. destruct (0 <=? k)%Z; apply firstn_In. Qed.

Lemma slice0_is_firstn (A : Type) (l : list A) k : exists n, slice0 l k = firstn n l.
Proof. unfold slice0. destruct (0 <=? k)%Z; eauto. Qed.

Lemma Qpositive_false q : Qpositive q = false <-> q <= 0.
Proof.
  unfold Qpositive. rewrite negb_false_iff. apply Qle_bool_iff.
Qed.

Lemma Qpositive_true q : Qpositive q = true <-> 0 < q.
Proof.
  unfold Qpositive. rewrite negb_true_iff. split.
  - intros H. apply Qnot_le_lt. intros L. apply Qle_bool_iff in L. congruence.
  - intros H. destruct (Qle_bool q 0) eqn:E; [|reflexivity].
    apply Qle_bool_iff in E. exfalso. eapply Qlt_not_le; eauto.
Qed.

Lemma insertSorted_nonIncreasing x l :
  nonIncreasing l -> nonIncreasing (insertSorted HybridSearchEngine.byScoreDesc x l).
Proof.
  unfold nonIncreasing.
  induction l as [|y l IH]; simpl; intros H.
  - repeat constructor.
  - inversion H as [|? ? Hl Hy]; subst.
    destruct (Qpositive (HybridSearchEngine.byScoreDesc x y)) eqn:E.
    + apply Qpositive_true in E. unfold HybridSearchEngine.byScoreDesc in E.
      constructor; [now apply IH|].
      apply Forall_forall. intros z Hz.
      apply (Permutation_in _ (Permutation_sym (insertSorted_perm _ x l))) in Hz.
      destruct Hz as [<-|Hz].
      * lra.
      * rewrite Forall_forall in Hy. now apply Hy.
    + apply Qpositive_false in E. unfold HybridSearchEngine.byScoreDesc in E.
      assert (Hxy : score y <= score x).
      { lra. }
      constructor; [constructor; assumption|].
      constructor; [exact Hxy|].
      rewrite Forall_forall in Hy |- *. intros z Hz.
      eapply Qle_trans; [apply Hy; exact Hz|exact Hxy].
Qed.

Lemma arraySort_nonIncreasing l :
  nonIncreasing (arraySort HybridSearchEngine.byScoreDesc l).
Proof.
  induction l as [|x l IH]; simpl; [constructor|].
  now apply insertSorted_nonIncreasing.
Qed.

Lemma nonIncreasing_firstn n l : nonIncreasing l -> nonIncreasing (firstn n l).
Proof.
  unfold nonIncreasing. revert n.
  induction l as [|x l IH]; intros [|n] H; simpl; try constructor.
  - inversion H; subst. now apply IH.
  - inversion H as [|? ? _ Hx]; subst.
    rewrite Forall_forall in Hx |- *. intros z Hz. apply Hx.
    rewrite <- (firstn_skipn n l). apply in_or_app. now left.
Qed.

Module OMapFacts.
Section Facts.
Variable V : Type.
Implicit Types (m : OMap.t V) (k : ustring) (v : V).

Lemma set_In m k v e : In e (OMap.set m k v) -> e = (k, v) \/ In e m.
Proof.
  induction m as [|[k' v'] m IH]; simpl.
  - intros [<-|[]]. now left.
  - destruct (ustring_eqb k k'); simpl; intros [<-|H]; auto.
    destruct (IH H); auto.
Qed.

Lemma set_keys_In m k v k' :
  In k' (OMap.keys (OMap.set m k v)) -> k' = k \/ In k' (OMap.keys m).
Proof.
  unfold OMap.keys. intros H. apply in_map_iff in H as ([k0 v0] & <- & H).
  apply set_In in H as [E|H]; [inversion E; now left|].
  right. now apply (in_map fst) in H.
Qed.

Lemma set_keys_NoDup m k v :
  NoDup (OMap.keys m) -> NoDup (OMap.keys (OMap.set m k v)).
Proof.
  induction m as [|[k' v'] m IH]; simpl; intros H.
  - repeat constructor. intros [].
  - inversion H as [|? ? Hk Hm]; subst.
    destruct (ustring_eqb k k') eqn:E; simpl.
    + apply ustring_eqb_eq in E. subst. now constructor.
    + apply ustring_eqb_neq in E. constructor; [|now apply IH].
      intros Hin. apply set_keys_In in Hin as [->|Hin]; auto.
Qed.

Lemma get_In m k v : OMap.get m k = Some v -> In (k, v) m.
Proof.
  induction m as [|[k' v'] m IH]; simpl; [discriminate|].
  destruct (ustring_eqb k k') eqn:E.
  - apply ustring_eqb_eq in E. subst. intros [= ->]. now left.
  - auto.
Qed.

Lemma get_None m k : OMap.get m k = None <-> ~ In k (OMap.keys m).
Proof.
  induction m as [|[k' v'] m IH]; simpl; [tauto|].
  destruct (ustring_eqb k k') eqn:E.
  - apply ustring_eqb_eq in E. subst. split; [discriminate|tauto].
  - apply ustring_eqb_neq in E. rewrite IH. intuition congruence.
Qed.

End Facts.
End OMapFacts.

(* ------------------------------------------------------------------ *)
(** ** The two engines: blank queries, ranking, identifiers *)

Lemma dropWhile_all p s : forallb p s = true -> dropWhile p s = [].
Proof.
  induction s as [|c s IH]; simpl; [reflexivity|].
  intros H. apply andb_prop in H as [-> H]. auto.
Qed.

Lemma isBlank_whitespace q : forallb isWhiteSpace q = true -> isBlank q = true.
Proof.
  intros H. unfold isBlank. destruct q; [reflexivity|].
  unfold trim, trimStart, trimEnd. now rewrite (dropWhile_all _ _ H).
Qed.

Section EngineFacts.
Context {U : UnicodeTables} {F : FuseLibrary}.

Import HybridSearchEngine.

Lemma search_hierarchical_eq this query options :
  search this query options =
  if isBlank query then []
  else limitAndSort (hierarchicalCandidates this query options) options.
Proof.
  unfold search, hierarchicalCandidates.
  destruct (isBlank query); [reflexivity|].
  cbv zeta.
  destruct (0 <? length (getExactMatches this query (normalize_default query)))%nat;
    [reflexivity|].
  destruct (0 <? length (getFuzzyMatches this query options))%nat; reflexivity.
Qed.

Lemma search_cumulative_eq this query options :
  HybridSearchEngineCumulative.search this query options =
  if isBlank query then []
  else limitAndSort (cumulativeCandidates this query options) options.
Proof. reflexivity. Qed.

(** *** [limitAndSort] *)

Lemma limitAndSort_In rs options r :
  In r (limitAndSort rs options) ->
  In r rs /\ passesMinScore options r = true.
Proof.
  unfold limitAndSort. intros H.
  assert (H' : In r (arraySort byScoreDesc (List.filter (passesMinScore options) rs))).
  { destruct (truthyZ (maxResults options)); [|exact H].
    destruct (maxResults options); [|exact H].
    eapply slice0_incl; eauto. }
  apply arraySort_In in H'. now apply filter_In in H'.
Qed.

Lemma limitAndSort_nonIncreasing rs options :
  nonIncreasing (limitAndSort rs options).
Proof.
  unfold limitAndSort.
  destruct (truthyZ (maxResults options)); [|apply arraySort_nonIncreasing].
  destruct (maxResults options) as [k|]; [|apply arraySort_nonIncreasing].
  destruct (slice0_is_firstn
              (arraySort byScoreDesc (List.filter (passesMinScore options) rs)) k)
    as [n ->].
  apply nonIncreasing_firstn, arraySort_nonIncreasing.
Qed.

Lemma limitAndSort_positive rs options k :
  maxResults options = Some k -> (0 < k)%Z ->
  limitAndSort rs options =
  firstn (Z.to_nat k) (limitAndSort rs (withMaxResults options None)).
Proof.
  intros E Hk. unfold limitAndSort, withMaxResults. rewrite E. simpl.
  destruct (Z.eqb_spec k 0); [lia|]. simpl.
  now rewrite slice0_positive.
Qed.

Lemma limitAndSort_zero rs options :
  maxResults options = Some 0%Z ->
  limitAndSort rs options = limitAndSort rs (withMaxResults options None).
Proof.
  intros E. unfold limitAndSort, withMaxResults. rewrite E. reflexivity.
Qed.

Lemma limitAndSort_ids_NoDup rs options :
  NoDup (List.map resultId rs) -> NoDup (List.map resultId (limitAndSort rs options)).
Proof.
  intros H. unfold limitAndSort.
  assert (S : NoDup (List.map resultId
              (arraySort byScoreDesc (List.filter (passesMinScore options) rs)))).
  { eapply Permutation_NoDup.
    - apply Permutation_map, arraySort_perm.
    - now apply NoDup_map_filter. }
  destruct (truthyZ (maxResults options)); [|exact S].
  destruct (maxResults options) as [k|]; [|exact S].
  destruct (slice0_is_firstn
              (arraySort byScoreDesc (List.filter (passesMinScore options) rs)) k)
    as [n ->].
  rewrite <- firstn_map. now apply NoDup_firstn.
Qed.

(** *** Candidates: origin, scores *)

Lemma exactMatchOf_cases query nq it :
  exactMatchOf query nq it = [] \/
  exists r, exactMatchOf query nq it = [r] /\ item r = it /\
            matchType r = mt_exact /\ 0 <= score r.
Proof.
  unfold exactMatchOf.
  destruct (ustring_eqb _ _).
  - right. eexists. repeat split. simpl. lra.
  - destruct (ustring_eqb _ _); [right|now left].
    eexists. repeat split. simpl. lra.
Qed.

Lemma partialScoreOf_nonneg nq it : 0 <= fst (partialScoreOf nq it).
Proof.
  unfold partialScoreOf. simpl.
  destruct (includes _ _), (includes _ _); simpl; try lra.
  - eapply Qle_trans; [apply (Q.le_max_l 0 0.6)|apply Q.le_max_l].
  - apply Q.le_max_l.
  - apply Q.le_max_l.
Qed.

Lemma partialMatchOf_cases nq it :
  partialMatchOf nq it = [] \/
  exists r, partialMatchOf nq it = [r] /\ item r = it /\
            matchType r = mt_partial /\ 0 <= score r.
Proof.
  unfold partialMatchOf.
  pose proof (partialScoreOf_nonneg nq it) as N.
  destruct (partialScoreOf nq it) as [s ts]. simpl in N.
  destruct (Qpositive s); [right|now left].
  eexists. repeat split. exact N.
Qed.

Lemma fuzzyScoreOf_nonneg fr : 0 <= fuzzyScoreOf fr.
Proof. unfold fuzzyScoreOf. apply Q.le_max_l. Qed.

End EngineFacts.

Section EngineClaims.
Context {U : UnicodeTables} {F : FuseLibrary}.
Import HybridSearchEngine.

Lemma flat_map_ids_NoDup (g : Searchable -> list SearchResult) items :
  (forall it, g it = [] \/ exists r, g it = [r] /\ item r = it) ->
  NoDup (List.map id items) -> NoDup (List.map resultId (List.flat_map g items)).
Proof.
  intros Hg. induction items as [|it items IH]; simpl; intros H; [constructor|].
  inversion H as [|? ? Hit Hitems]; subst.
  destruct (Hg it) as [->|(r & -> & Hr)]; simpl; [auto|].
  constructor; [|auto].
  intros Hin. apply Hit.
  apply in_map_iff in Hin as (r' & E & Hr').
  apply in_flat_map in Hr' as (it' & Hit' & Hr').
  destruct (Hg it') as [E'|(r'' & E' & Hr'')]; rewrite E' in Hr'; [destruct Hr'|].
  destruct Hr' as [<-|[]].
  unfold resultId in E. rewrite Hr, Hr'' in E. rewrite <- E. now apply in_map.
Qed.

Lemma flat_map_Forall (A B : Type) (P : B -> Prop) (g : A -> list B) l :
  (forall a, Forall P (g a)) -> Forall P (List.flat_map g l).
Proof.
  intros H. induction l; simpl; [constructor|].
  apply Forall_app. auto.
Qed.

Lemma fuzzy_ids_NoDup items frs query :
  NoDup (List.map id items) -> fuseResultsOf items frs ->
  NoDup (List.map resultId (List.map (fuzzyMatchOf query) frs)).
Proof.
  intros Hitems [Hidx Hat]. rewrite map_map.
  apply NoDup_map_on; [|eapply NoDup_map_inv; exact Hidx].
  intros x y Hx Hy E. unfold resultId in E. simpl in E.
  apply (NoDup_map_agree refIndex frs); auto.
  rewrite Forall_forall in Hat.
  pose proof (Hat x Hx) as Ax. pose proof (Hat y Hy) as Ay.
  apply (map_nth_error id) in Ax. apply (map_nth_error id) in Ay.
  rewrite NoDup_nth_error in Hitems. apply Hitems.
  - apply nth_error_Some. congruence.
  - congruence.
Qed.

Lemma hierarchical_ids_NoDup items query options :
  NoDup (List.map id items) -> fuseResultsOf items (fuseSearch items query) ->
  NoDup (List.map resultId (hierarchicalCandidates (new items) query options)).
Proof.
  intros Hitems Hfuse. unfold hierarchicalCandidates. cbv zeta.
  destruct (0 <? length _)%nat.
  - apply flat_map_ids_NoDup; [|exact Hitems].
    intros it. destruct (exactMatchOf_cases query (normalize_default query) it)
      as [->|(r & -> & Hr & _)]; eauto.
  - destruct (0 <? length _)%nat.
    + now apply fuzzy_ids_NoDup with (items := items).
    + apply flat_map_ids_NoDup; [|exact Hitems].
      intros it. destruct (partialMatchOf_cases (normalize_default query) it)
        as [->|(r & -> & Hr & _)]; eauto.
Qed.

Lemma hierarchical_scores_nonneg this query options :
  Forall (fun r => 0 <= score r) (hierarchicalCandidates this query options).
Proof.
  unfold hierarchicalCandidates. cbv zeta.
  destruct (0 <? length _)%nat.
  - apply flat_map_Forall. intros it.
    destruct (exactMatchOf_cases query (normalize_default query) it)
      as [->|(r & -> & _ & _ & Hs)]; repeat constructor; auto.
  - destruct (0 <? length _)%nat.
    + unfold getFuzzyMatches. apply Forall_map, Forall_forall.
      intros fr _. apply fuzzyScoreOf_nonneg.
    + apply flat_map_Forall. intros it.
      destruct (partialMatchOf_cases (normalize_default query) it)
        as [->|(r & -> & _ & _ & Hs)]; repeat constructor; auto.
Qed.

(** *** The [Map] of the cumulative revision *)

Lemma wellKeyed_empty : wellKeyed OMap.empty.
Proof. split; constructor. Qed.

Lemma wellKeyed_set m k v :
  wellKeyed m -> resultId v = k -> 0 <= score v -> wellKeyed (OMap.set m k v).
Proof.
  intros [Hk Hm] Hv Hs. split; [now apply OMapFacts.set_keys_NoDup|].
  rewrite Forall_forall in Hm |- *. intros e He.
  apply OMapFacts.set_In in He as [->|He]; auto.
Qed.

Lemma fold_left_invariant (A B : Type) (P : A -> Prop) (f : A -> B -> A) l a :
  (forall a b, P a -> P (f a b)) -> P a -> P (fold_left f l a).
Proof. intros Hf. revert a. induction l; simpl; auto. Qed.

Lemma exactStep_wellKeyed query nq m it :
  wellKeyed m -> wellKeyed (HybridSearchEngineCumulative.exactStep query nq m it).
Proof.
  intros H. unfold HybridSearchEngineCumulative.exactStep.
  destruct (ustring_eqb _ _); [apply wellKeyed_set; simpl; auto; lra|].
  destruct (ustring_eqb _ _); [apply wellKeyed_set; simpl; auto; lra|exact H].
Qed.

Lemma fuzzyStep_wellKeyed query m fr :
  wellKeyed m -> wellKeyed (HybridSearchEngineCumulative.fuzzyStep query m fr).
Proof.
  intros H. unfold HybridSearchEngineCumulative.fuzzyStep. cbv zeta.
  match goal with |- wellKeyed (if ?c then _ else _) => destruct c end;
    [|exact H].
  apply wellKeyed_set; auto. simpl. apply fuzzyScoreOf_nonneg.
Qed.

Lemma partialStep_wellKeyed nq m it :
  wellKeyed m -> wellKeyed (HybridSearchEngineCumulative.partialStep nq m it).
Proof.
  intros H. unfold HybridSearchEngineCumulative.partialStep. cbv zeta.
  match goal with |- wellKeyed (if ?c then _ else _) => destruct c end;
    [exact H|].
  pose proof (partialScoreOf_nonneg nq it) as N.
  destruct (partialScoreOf nq it) as [s ts]. simpl in N.
  destruct (Qpositive s); [|exact H].
  apply wellKeyed_set; auto.
Qed.

Lemma cumulative_wellKeyed this query options :
  wellKeyed
    (HybridSearchEngineCumulative.partialSearch this (normalize_default query)
       (HybridSearchEngineCumulative.fuzzySearch this query options
          (HybridSearchEngineCumulative.exactSearch this query
             (normalize_default query) OMap.empty))).
Proof.
  unfold HybridSearchEngineCumulative.partialSearch,
    HybridSearchEngineCumulative.fuzzySearch,
    HybridSearchEngineCumulative.exactSearch.
  apply fold_left_invariant; [intros; now apply partialStep_wellKeyed|].
  apply fold_left_invariant; [intros; now apply fuzzyStep_wellKeyed|].
  apply fold_left_invariant; [intros; now apply exactStep_wellKeyed|].
  apply wellKeyed_empty.
Qed.

Lemma wellKeyed_values_ids m :
  wellKeyed m -> List.map resultId (OMap.values m) = OMap.keys m.
Proof.
  intros [_ H]. unfold OMap.values, OMap.keys. rewrite map_map.
  apply map_ext_in. intros e He. rewrite Forall_forall in H. now apply H.
Qed.

Lemma cumulative_ids_NoDup this query options :
  NoDup (List.map resultId (cumulativeCandidates this query options)).
Proof.
  unfold cumulativeCandidates. cbv zeta.
  pose proof (cumulative_wellKeyed this query options) as W.
  rewrite (wellKeyed_values_ids W). apply W.
Qed.

Lemma cumulative_scores_nonneg this query options :
  Forall (fun r => 0 <= score r) (cumulativeCandidates this query options).
Proof.
  unfold cumulativeCandidates. cbv zeta.
  destruct (cumulative_wellKeyed this query options) as [_ W].
  unfold OMap.values. apply Forall_map.
  eapply Forall_impl; [|exact W]. simpl. tauto.
Qed.

(** *** The ranking contract of [limitAndSort] over scores that are not negative *)

Lemma passesMinScore_bound options m r :
  minScore options = Some m -> 0 <= score r ->
  passesMinScore options r = true -> m <= score r.
Proof.
  unfold passesMinScore, truthyQ. intros -> Hs H.
  destruct (Qeq_bool m 0) eqn:E; simpl in H.
  - apply Qeq_bool_iff in E. rewrite E. exact Hs.
  - now apply Qle_bool_iff.
Qed.

Lemma limitAndSort_ranked (candidates : SearchOptions -> list SearchResult)
      (blank : bool) options :
  (forall o, candidates (withMaxResults options o) = candidates options) ->
  Forall (fun r => 0 <= score r) (candidates options) ->
  rankedOutput (fun o => if blank then [] else limitAndSort (candidates o) o) options.
Proof.
  intros Hc Hs. unfold rankedOutput. cbv zeta.
  destruct blank.
  - repeat split; try constructor; try (intros; contradiction).
    + now rewrite firstn_nil.
    + simpl. lia.
  - split; [apply limitAndSort_nonIncreasing|].
    split; [|split].
    + intros m r Em Hr. apply limitAndSort_In in Hr as [Hr Hp].
      rewrite Forall_forall in Hs.
      eapply passesMinScore_bound; eauto.
    + intros k Ek Hk. rewrite Hc.
      rewrite (limitAndSort_positive _ _ Ek Hk). split; [reflexivity|].
      pose proof (firstn_le_length (Z.to_nat k)
        (limitAndSort (candidates options) (withMaxResults options None))). lia.
    + intros Ek. rewrite Hc. now apply limitAndSort_zero.
Qed.

End EngineClaims.

(** C7. For every item set, a query that is empty or made only of
    white-space characters gets the empty result sequence, from the
    hierarchical engine and from the cumulative one; the model has no
    failing path, so no error is raised. *)
Theorem search_blank_query_is_empty
        (U : UnicodeTables) (F : FuseLibrary)
        (items : list Searchable) (query : ustring) (options : SearchOptions) :
  forallb isWhiteSpace query = true ->
  HybridSearchEngine.search (HybridSearchEngine.new items) query options = []
  /\ HybridSearchEngineCumulative.search
       (HybridSearchEngineCumulative.new items) query options = [].
Proof.
  intros H. apply isBlank_whitespace in H.
  unfold HybridSearchEngine.search, HybridSearchEngineCumulative.search.
  now rewrite H.
Qed.

Lemma search_blank_query_is_empty_witness :
  (forallb isWhiteSpace (u "") = true /\ forallb isWhiteSpace (u "   ") = true)
  /\ (HybridSearchEngine.search (U := Latin1.tables)
        (HybridSearchEngine.new (F := Examples.latinFuse) Examples.catalog) (u "") defaultSearchOptions = []
      /\ HybridSearchEngine.search (U := Latin1.tables)
        (HybridSearchEngine.new (F := Examples.latinFuse) Examples.catalog) (u "   ") defaultSearchOptions = []).
Proof.
  split; [split; reflexivity|].
  split.
  - apply (@search_blank_query_is_empty Latin1.tables Examples.latinFuse
             Examples.catalog (u "") defaultSearchOptions). reflexivity.
  - apply (@search_blank_query_is_empty Latin1.tables Examples.latinFuse
             Examples.catalog (u "   ") defaultSearchOptions). reflexivity.
Defined.

(** C1. Over a catalog whose items carry pairwise distinct ids, and with
    Fuse reporting each record of its collection at most once, no search
    returns two results for the same item id: in the hierarchical engine
    and in the cumulative one. *)
Theorem search_no_duplicate_ids
        (U : UnicodeTables) (F : FuseLibrary)
        (items : list Searchable) (query : ustring) (options : SearchOptions) :
  NoDup (List.map id items) ->
  fuseResultsOf items (fuseSearch items query) ->
  NoDup (List.map resultId
           (HybridSearchEngine.search (HybridSearchEngine.new items) query options))
  /\ NoDup (List.map resultId
           (HybridSearchEngineCumulative.search
              (HybridSearchEngineCumulative.new items) query options)).
Proof.
  intros Hitems Hfuse.
  rewrite search_hierarchical_eq, search_cumulative_eq.
  destruct (isBlank query); [split; constructor|].
  split; apply limitAndSort_ids_NoDup.
  - now apply hierarchical_ids_NoDup.
  - apply cumulative_ids_NoDup.
Qed.

Lemma search_no_duplicate_ids_witness :
  NoDup (List.map id Examples.catalog)
  /\ fuseResultsOf Examples.catalog
       (fuseSearch (FuseLibrary := Examples.latinFuse)
                   Examples.catalog (u "zanaoria"))
  /\ NoDup (List.map resultId
       (HybridSearchEngine.search (U := Latin1.tables)
          (HybridSearchEngine.new (F := Examples.latinFuse) Examples.catalog) (u "zanaoria")
          defaultSearchOptions)).
Proof.
  assert (Hids : NoDup (List.map id Examples.catalog)).
  { repeat constructor; simpl; intuition discriminate. }
  assert (Hfuse : fuseResultsOf Examples.catalog
            (fuseSearch (FuseLibrary := Examples.latinFuse)
                        Examples.catalog (u "zanaoria"))).
  { split; vm_compute; repeat constructor. intros []. }
  split; [exact Hids|]. split; [exact Hfuse|].
  exact (proj1 (@search_no_duplicate_ids Latin1.tables Examples.latinFuse
                  Examples.catalog (u "zanaoria") defaultSearchOptions
                  Hids Hfuse)).
Defined.

(** [updateItems] leaves the engine as the constructor would. *)
Lemma updateItems_is_new (F : FuseLibrary) this items :
  HybridSearchEngine.updateItems this items = HybridSearchEngine.new items.
Proof. reflexivity. Qed.

(** The premise on ids is used by the hierarchical revision only: it emits
    one result per matching array element, so an array that repeats an item
    gets it back twice. *)
Example hierarchical_search_repeats_a_repeated_item :
  let twice := [Examples.mkItem "2" "Aguacate" "Frutas";
                Examples.mkItem "2" "Aguacate" "Frutas"] in
  List.map resultId
    (HybridSearchEngine.search (U := Latin1.tables)
       (HybridSearchEngine.new (F := Examples.latinFuse) twice)
       (u "aguacate") defaultSearchOptions)
  = [u "2"; u "2"].
Proof. vm_compute. reflexivity. Qed.

(** The cumulative revision keeps one entry per [Map] key whatever the
    catalog and whatever Fuse reports. *)
Lemma cumulative_ids_unique
      (U : UnicodeTables) (F : FuseLibrary) this query options :
  NoDup (List.map resultId (HybridSearchEngineCumulative.search this query options)).
Proof.
  rewrite search_cumulative_eq.
  destruct (isBlank query); [constructor|].
  apply limitAndSort_ids_NoDup, cumulative_ids_NoDup.
Qed.

(** C6, as the code has it. The results of a search are in non-increasing
    order of score; with [minScore] set no result scores below it; with
    [maxResults] set to a positive integer the answer is the first
    [maxResults] results of the sorted, filtered list, hence at most that
    many; a [maxResults] of 0 is read as no limit. *)
Theorem search_ranked_filtered_limited
        (U : UnicodeTables) (F : FuseLibrary)
        (items : list Searchable) (query : ustring) (options : SearchOptions) :
  rankedOutput (HybridSearchEngine.search (HybridSearchEngine.new items) query) options
  /\ rankedOutput (HybridSearchEngineCumulative.search
                     (HybridSearchEngineCumulative.new items) query) options.
Proof.
  split.
  - pose proof (@limitAndSort_ranked
      (hierarchicalCandidates (HybridSearchEngine.new items) query)
      (isBlank query) options (fun _ => eq_refl)
      (hierarchical_scores_nonneg _ _ _)) as R.
    unfold rankedOutput in *.
    now rewrite !search_hierarchical_eq.
  - pose proof (@limitAndSort_ranked
      (cumulativeCandidates (HybridSearchEngineCumulative.new items) query)
      (isBlank query) options (fun _ => eq_refl)
      (cumulative_scores_nonneg _ _ _)) as R.
    unfold rankedOutput in *.
    now rewrite !search_cumulative_eq.
Qed.

Lemma search_ranked_filtered_limited_witness :
  let options := {| threshold := None; minScore := Some 0.5;
                    maxResults := Some 1%Z |} in
  let engine := HybridSearchEngine.new (F := Examples.latinFuse) Examples.catalog in
  (maxResults options = Some 1%Z /\ (0 < 1)%Z)
  /\ HybridSearchEngine.search (U := Latin1.tables) engine (u "r") options
     = firstn 1 (HybridSearchEngine.search (U := Latin1.tables) engine (u "r")
                   (withMaxResults options None))
  /\ List.map resultId
       (HybridSearchEngine.search (U := Latin1.tables) engine (u "r")
          (withMaxResults options None)) = [u "1"; u "2"].
Proof.
  cbv zeta. split; [split; reflexivity|]. split; [|vm_compute; reflexivity].
  destruct (@search_ranked_filtered_limited Latin1.tables Examples.latinFuse
              Examples.catalog (u "r")
              {| threshold := None; minScore := Some 0.5; maxResults := Some 1%Z |})
    as [(_ & _ & H & _) _].
  exact (proj1 (H 1%Z eq_refl eq_refl)).
Defined.

(** C6, counterexample. With [maxResults: 0] the engine returns the one
    exact match for "aguacate": more results than the limit. *)
Lemma maxResults_zero_returns_results :
  let options := {| threshold := None; minScore := None; maxResults := Some 0%Z |} in
  let res := HybridSearchEngine.search (U := Latin1.tables)
               (HybridSearchEngine.new (F := Examples.latinFuse) Examples.catalog) (u "aguacate") options in
  maxResults options = Some 0%Z /\ ~ (Z.of_nat (length res) <= 0)%Z.
Proof.
  cbv zeta. split; [reflexivity|].
  vm_compute. intros H. apply H. reflexivity.
Qed.

(* ------------------------------------------------------------------ *)
(** ** normalize: what a second application does *)

Lemma dropWhile_suffix p s : exists a, s = a ++ dropWhile p s.
Proof.
  induction s as [|c s [a IH]]; simpl.
  - now exists [].
  - destruct (p c); [|now exists []].
    exists (c :: a). simpl. now rewrite <- IH.
Qed.

Lemma trim_infix s : exists a b, s = a ++ trim s ++ b.
Proof.
  unfold trim, trimEnd, trimStart.
  destruct (dropWhile_suffix isWhiteSpace s) as [a Ha].
  destruct (dropWhile_suffix isWhiteSpace (rev (dropWhile isWhiteSpace s))) as [b Hb].
  exists a, (rev b).
  rewrite <- rev_app_distr, <- Hb, rev_involutive. exact Ha.
Qed.

Lemma singleSpaced_tail c s : singleSpaced (c :: s) = true -> singleSpaced s = true.
Proof.
  destruct s as [|c' s]; [reflexivity|].
  cbn [singleSpaced]. intros H. now apply andb_prop in H.
Qed.

Lemma singleSpaced_app_r a s : singleSpaced (a ++ s) = true -> singleSpaced s = true.
Proof.
  induction a as [|c a IH]; [auto|].
  intros H. apply IH. now apply singleSpaced_tail with (c := c).
Qed.

Lemma singleSpaced_app_l s b : singleSpaced (s ++ b) = true -> singleSpaced s = true.
Proof.
  induction s as [|c s IH]; [reflexivity|].
  destruct s as [|c' s]; [reflexivity|].
  simpl app. cbn [singleSpaced]. intros H.
  apply andb_prop in H as [H1 H2]. rewrite H1. apply IH. exact H2.
Qed.

Lemma singleSpaced_infix a s b :
  singleSpaced (a ++ s ++ b) = true -> singleSpaced s = true.
Proof.
  intros H. apply singleSpaced_app_r in H. now apply singleSpaced_app_l in H.
Qed.

Lemma Forall_infix (P : N -> Prop) a s b : Forall P (a ++ s ++ b) -> Forall P s.
Proof.
  intros H. apply Forall_app in H as [_ H]. now apply Forall_app in H as [H _].
Qed.

Lemma collapse_cons_not_ws c s :
  isWhiteSpace c = false ->
  collapseWhitespace (c :: s) = c :: collapseWhitespace s.
Proof. intros H. unfold collapseWhitespace. simpl. now rewrite H. Qed.

Lemma collapse_cons_ws c c' s :
  isWhiteSpace c = true ->
  collapseWhitespace (c :: c' :: s) =
  if isWhiteSpace c' then collapseWhitespace (c' :: s)
  else 32%N :: collapseWhitespace (c' :: s).
Proof.
  intros H. unfold collapseWhitespace.
  change (replaceWhitespaceRuns 32 (c :: c' :: s))
    with (if isWhiteSpace c
          then if isWhiteSpace c' then replaceWhitespaceRuns 32 (c' :: s)
               else 32%N :: replaceWhitespaceRuns 32 (c' :: s)
          else c :: replaceWhitespaceRuns 32 (c' :: s)).
  now rewrite H.
Qed.

Lemma singleSpaced_cons c c' r :
  singleSpaced (c :: c' :: r) =
  negb (isWhiteSpace c && isWhiteSpace c') && singleSpaced (c' :: r).
Proof. reflexivity. Qed.

Lemma collapse_singleSpaced s : singleSpaced (collapseWhitespace s) = true.
Proof.
  induction s as [|c s IH]; [reflexivity|].
  destruct (isWhiteSpace c) eqn:Ec.
  - destruct s as [|c' s]; [unfold collapseWhitespace; simpl; now rewrite Ec|].
    rewrite collapse_cons_ws by exact Ec.
    destruct (isWhiteSpace c') eqn:Ec'; [exact IH|].
    rewrite collapse_cons_not_ws in * by exact Ec'.
    rewrite singleSpaced_cons, Ec', andb_false_r. exact IH.
  - rewrite collapse_cons_not_ws by exact Ec.
    destruct (collapseWhitespace s) as [|x r]; [reflexivity|].
    rewrite singleSpaced_cons, Ec. exact IH.
Qed.

Lemma collapse_units (P : N -> Prop) s :
  P 32%N -> Forall (fun c => isWhiteSpace c = false -> P c) s ->
  Forall P (collapseWhitespace s).
Proof.
  intros H32. unfold collapseWhitespace.
  induction s as [|c s IH]; intros H; [constructor|].
  inversion H as [|? ? Hc Hs]; subst. simpl.
  destruct (isWhiteSpace c) eqn:Ec.
  - destruct s as [|c' s]; [repeat constructor; exact H32|].
    destruct (isWhiteSpace c'); [now apply IH|].
    constructor; [exact H32|now apply IH].
  - constructor; auto.
Qed.

Lemma collapse_fixed s :
  Forall (fun c => isWhiteSpace c = true -> c = 32%N) s ->
  singleSpaced s = true -> collapseWhitespace s = s.
Proof.
  unfold collapseWhitespace.
  induction s as [|c s IH]; intros H S; [reflexivity|].
  inversion H as [|? ? Hc Hs]; subst.
  pose proof (singleSpaced_tail _ _ S) as S'.
  simpl. destruct (isWhiteSpace c) eqn:Ec.
  - rewrite (Hc eq_refl) in *.
    destruct s as [|c' s]; [reflexivity|].
    cbn [singleSpaced] in S. rewrite Ec in S. simpl in S.
    apply andb_prop in S as [S _]. apply negb_true_iff in S. rewrite S.
    f_equal. now apply IH.
  - f_equal. now apply IH.
Qed.

(** Ranges of the character classes. *)
Ltac unit_ranges :=
  unfold cleanUnit, isWordChar, isUpper, isAscii, isCombiningMark, isWhiteSpace in *;
  repeat match goal with
         | H : _ && _ = true |- _ => apply andb_prop in H as [? ?]
         | H : _ || _ = true |- _ => apply orb_prop in H as [?|?]
         | H : negb _ = true |- _ => apply negb_true_iff in H
         | H : implb true _ = true |- _ => simpl in H
         | H : (_ <=? _)%N = true |- _ => apply N.leb_le in H
         | H : (_ =? _)%N = true |- _ => apply N.eqb_eq in H
         | H : _ && _ = false |- _ => apply andb_false_iff in H as [?|?]
         | H : (_ <=? _)%N = false |- _ => apply N.leb_gt in H
         end.

Lemma cleanUnit_ascii b c : cleanUnit b c = true -> isAscii c = true.
Proof. intros H. unit_ranges; apply N.ltb_lt; lia. Qed.

Lemma cleanUnit_not_upper c : cleanUnit true c = true -> isUpper c = false.
Proof.
  intros H. unfold cleanUnit in H. apply orb_prop in H as [H|H].
  - apply andb_prop in H as [_ H]. simpl in H. now apply negb_true_iff.
  - apply N.eqb_eq in H. now subst.
Qed.

Lemma cleanUnit_not_mark b c : cleanUnit b c = true -> isCombiningMark c = false.
Proof.
  intros H. unit_ranges; apply andb_false_iff; left; apply N.leb_gt; lia.
Qed.

Lemma cleanUnit_kept b c : cleanUnit b c = true -> isWordChar c || isWhiteSpace c = true.
Proof.
  intros H. unfold cleanUnit in H. apply orb_prop in H as [H|H].
  - apply andb_prop in H as [-> _]. reflexivity.
  - apply N.eqb_eq in H. subst. reflexivity.
Qed.

Lemma isWordChar_not_ws c : isWordChar c = true -> isWhiteSpace c = false.
Proof.
  intros H. destruct (isWhiteSpace c) eqn:E; [|reflexivity]. exfalso.
  unfold isWordChar, isUpper in H. unfold isWhiteSpace in E.
  repeat match goal with
         | H : _ && _ = true |- _ => apply andb_prop in H as [? ?]
         | H : _ || _ = true |- _ => apply orb_prop in H as [?|?]
         | H : (_ <=? _)%N = true |- _ => apply N.leb_le in H
         | H : (_ =? _)%N = true |- _ => apply N.eqb_eq in H
         end; lia.
Qed.

Lemma cleanUnit_ws b c : cleanUnit b c = true -> isWhiteSpace c = true -> c = 32%N.
Proof.
  intros H W. unfold cleanUnit in H. apply orb_prop in H as [H|H].
  - apply andb_prop in H as [H _]. apply isWordChar_not_ws in H. congruence.
  - now apply N.eqb_eq.
Qed.

Lemma filter_fixed (p : N -> bool) s :
  Forall (fun c => p c = true) s -> List.filter p s = s.
Proof.
  induction 1 as [|c s Hc _ IH]; simpl; [reflexivity|]. now rewrite Hc, IH.
Qed.

Section NormalizeTwice.
Context {U : UnicodeTables} {L : UnicodeLaws U}.

(** The units that reach the special-character filter carry no capital
    when lower-casing is on. *)
Lemma before_special_no_upper config text :
  toLowerCaseOpt config = true ->
  let n1 := if trimWhitespace config then trim text else text in
  let n2 := toLowerCase n1 in
  let n3 := if removeAccents config then stripMarks (normalizeNFD n2) else n2 in
  Forall (fun c => isUpper c = false) n3.
Proof.
  intros Hl. cbv zeta. destruct (removeAccents config).
  - unfold stripMarks. apply Forall_forall. intros c Hc.
    apply filter_In in Hc as [Hc _].
    pose proof (normalizeNFD_toLowerCase_no_upper
                  (if trimWhitespace config then trim text else text)) as N.
    rewrite Forall_forall in N. now apply N.
  - apply toLowerCase_no_upper.
Qed.

Lemma normalizeWith_clean config text :
  removeSpecialChars config = true ->
  Forall (fun c => cleanUnit (toLowerCaseOpt config) c = true) (normalizeWith config text)
  /\ singleSpaced (normalizeWith config text) = true.
Proof.
  intros Hs. split; [|apply collapse_singleSpaced].
  unfold normalizeWith. rewrite Hs. cbv zeta.
  apply collapse_units.
  - unfold cleanUnit. apply orb_true_r.
  - unfold stripSpecial. apply Forall_forall. intros c Hc W.
    apply filter_In in Hc as [Hc K]. rewrite W, orb_false_r in K.
    unfold cleanUnit. rewrite K. simpl.
    destruct (toLowerCaseOpt config) eqn:El; [|reflexivity]. simpl.
    pose proof (before_special_no_upper config text El) as N. cbv zeta in N.
    rewrite Forall_forall in N. rewrite (N c Hc). reflexivity.
Qed.

Lemma normalizeWith_on_clean config s :
  removeSpecialChars config = true ->
  Forall (fun c => cleanUnit (toLowerCaseOpt config) c = true) s ->
  singleSpaced s = true ->
  normalizeWith config s = if trimWhitespace config then trim s else s.
Proof.
  intros Hs C S.
  set (t := if trimWhitespace config then trim s else s).
  assert (Ct : Forall (fun c => cleanUnit (toLowerCaseOpt config) c = true) t
               /\ singleSpaced t = true).
  { unfold t. destruct (trimWhitespace config); [|auto].
    destruct (trim_infix s) as (a & b & E). rewrite E in C, S.
    split; [eapply Forall_infix; eauto|eapply singleSpaced_infix; eauto]. }
  destruct Ct as [Ct St].
  unfold normalizeWith. rewrite Hs. cbv zeta. fold t.
  assert (E1 : (if toLowerCaseOpt config then toLowerCase t else t) = t).
  { destruct (toLowerCaseOpt config) eqn:El; [|reflexivity].
    apply toLowerCase_ascii_lower. eapply Forall_impl; [|exact Ct].
    intros c Hc. simpl in Hc.
    now rewrite (cleanUnit_ascii _ _ Hc), (cleanUnit_not_upper _ Hc). }
  rewrite E1.
  assert (E2 : (if removeAccents config then stripMarks (normalizeNFD t) else t) = t).
  { destruct (removeAccents config); [|reflexivity].
    rewrite normalizeNFD_ascii
      by (eapply Forall_impl; [|exact Ct]; intros c Hc; simpl in Hc;
          eapply cleanUnit_ascii; eauto).
    apply filter_fixed. eapply Forall_impl; [|exact Ct].
    intros c Hc. simpl in Hc. now rewrite (cleanUnit_not_mark _ _ Hc). }
  rewrite E2.
  unfold stripSpecial. rewrite filter_fixed
    by (eapply Forall_impl; [|exact Ct]; intros c Hc; simpl in Hc;
        eapply cleanUnit_kept; eauto).
  apply collapse_fixed; [|exact St].
  eapply Forall_impl; [|exact Ct]. intros c Hc. simpl in Hc.
  eapply cleanUnit_ws; eauto.
Qed.

End NormalizeTwice.

(** C2, as the code has it. With the removal of special characters on (the
    default), a second [normalize] under the same options only trims: it
    returns the first result without its leading and trailing white
    space when [trimWhitespace] is on, and the first result itself when it
    is off. So [normalize] is idempotent at every text whose normalised
    form neither starts nor ends with a space. *)
Theorem normalize_twice_trims
        (U : UnicodeTables) (L : UnicodeLaws U)
        (text : ustring) (options : PartialNormalizationOptions) :
  removeSpecialChars (mergeOptions options) = true ->
  let once := normalize text options in
  normalize once options =
    (if trimWhitespace (mergeOptions options) then trim once else once)
  /\ (trim once = once -> normalize once options = once).
Proof.
  intros Hs once.
  assert (E : normalize once options =
              if trimWhitespace (mergeOptions options) then trim once else once).
  { unfold once, normalize. destruct text as [|c text].
    - now destruct (trimWhitespace (mergeOptions options)).
    - destruct (normalizeWith_clean (mergeOptions options) (c :: text) Hs) as [C S].
      destruct (normalizeWith (mergeOptions options) (c :: text)) as [|d r] eqn:R.
      + now destruct (trimWhitespace (mergeOptions options)).
      + now apply normalizeWith_on_clean. }
  split; [exact E|].
  intros T. rewrite E, T. now destruct (trimWhitespace (mergeOptions options)).
Qed.

Lemma normalize_twice_trims_witness :
  removeSpecialChars (mergeOptions noOptions) = true
  /\ normalize (U := Latin1.tables)
       (normalize (U := Latin1.tables) (u " Brócoli,  Ñame !") noOptions) noOptions
     = trim (normalize (U := Latin1.tables) (u " Brócoli,  Ñame !") noOptions).
Proof.
  split; [reflexivity|].
  exact (proj1 (@normalize_twice_trims Latin1.tables Latin1Facts.laws
                  (u " Brócoli,  Ñame !") noOptions eq_refl)).
Defined.

(** C2, counterexample. Under the default options "a !" normalises to "a "
    (the space before the removed "!" is kept, trimming came first), and
    "a " normalises to "a". *)
Lemma normalize_not_idempotent :
  normalize (U := Latin1.tables) (u "a !") noOptions = u "a "
  /\ normalize (U := Latin1.tables)
       (normalize (U := Latin1.tables) (u "a !") noOptions) noOptions = u "a"
  /\ normalize (U := Latin1.tables)
       (normalize (U := Latin1.tables) (u "a !") noOptions) noOptions
     <> normalize (U := Latin1.tables) (u "a !") noOptions.
Proof.
  split; [reflexivity|]. split; [reflexivity|].
  vm_compute. discriminate.
Qed.

(* ------------------------------------------------------------------ *)
(** ** QueryEngine *)

Section QueryEngineFacts.
Context {U : UnicodeTables}.
Variable Payload : Type.
Variable propertyGreater : ustring -> Searchable -> Searchable -> bool.
Variable hostSort : (Searchable -> Searchable -> Z) -> list Searchable -> list Searchable.
Import QueryEngine.

Lemma filterStep_unregistered (this : QueryEngine.t Payload) state (f : FilterCriteria Payload) :
  isRegistered this f = false -> filterStep this state f = state.
Proof.
  unfold isRegistered, filterStep. destruct state as [its ap].
  destruct (OMap.get _ _); [discriminate|reflexivity].
Qed.

Lemma fold_filterStep (this : QueryEngine.t Payload) (fs : list (FilterCriteria Payload)) its ap :
  fold_left (filterStep this) fs (its, ap)
  = fold_left (filterStep this) (List.filter (isRegistered this) fs) (its, ap)
  /\ snd (fold_left (filterStep this) fs (its, ap))
     = ap ++ List.filter (isRegistered this) fs.
Proof.
  revert its ap. induction fs as [|f fs IH]; intros its ap.
  - simpl. now rewrite app_nil_r.
  - cbn [fold_left List.filter]. destruct (isRegistered this f) eqn:R.
    + cbn [fold_left]. unfold isRegistered in R.
      assert (E : filterStep this (its, ap) f
                  = (match OMap.get (filterRegistry this) (type f) with
                     | Some d => applyFilter d its f
                     | None => its
                     end, ap ++ [f])).
      { unfold filterStep.
        destruct (OMap.get (filterRegistry this) (type f)); [reflexivity|discriminate]. }
      rewrite E.
      destruct (IH (match OMap.get (filterRegistry this) (type f) with
                    | Some d => applyFilter d its f
                    | None => its
                    end) (ap ++ [f])) as [E1 E2].
      split; [exact E1|]. rewrite E2. now rewrite <- app_assoc.
    + rewrite filterStep_unregistered by exact R. apply IH.
Qed.

Lemma filterStage_registered (this : QueryEngine.t Payload) options its :
  filterStage this options (its, [])
  = filterStage this
      (withFilters options (Some (List.filter (isRegistered this) (suppliedFilters options))))
      (its, [])
  /\ snd (filterStage this options (its, []))
     = List.filter (isRegistered this) (suppliedFilters options).
Proof.
  unfold filterStage, suppliedFilters, withFilters. simpl.
  destruct (filters options) as [fs|]; [|split; reflexivity].
  apply (fold_filterStep this fs its []).
Qed.

End QueryEngineFacts.

(** C10. A supplied filter whose type has no registered definition is
    skipped: the step leaves items and applied filters as they are, the
    query gives what it gives without the unregistered filters, and
    [appliedFilters] lists exactly the registered ones in the order
    supplied. *)
Theorem executeQuery_skips_unregistered_filters
        (U : UnicodeTables) (Payload : Type)
        (propertyGreater : ustring -> Searchable -> Searchable -> bool)
        (hostSort : (Searchable -> Searchable -> Z) -> list Searchable -> list Searchable)
        (this : QueryEngine.t Payload) (items : list Searchable)
        (options : QueryEngine.QueryOptions Payload) :
  let registered := List.filter (QueryEngine.isRegistered this)
                                (QueryEngine.suppliedFilters options) in
  (forall state f, QueryEngine.isRegistered this f = false ->
                   QueryEngine.filterStep this state f = state)
  /\ QueryEngine.appliedFilters
       (QueryEngine.executeQuery propertyGreater hostSort this items options)
     = registered
  /\ QueryEngine.executeQuery propertyGreater hostSort this items options
     = QueryEngine.executeQuery propertyGreater hostSort this items
         (QueryEngine.withFilters options (Some registered)).
Proof.
  cbv zeta. split; [intros; now apply filterStep_unregistered|].
  unfold QueryEngine.executeQuery. cbv zeta.
  destruct (filterStage_registered this options
              (QueryEngine.textStage options items)) as [E1 E2].
  assert (T : QueryEngine.textStage
                (QueryEngine.withFilters options
                   (Some (List.filter (QueryEngine.isRegistered this)
                                      (QueryEngine.suppliedFilters options)))) items
              = QueryEngine.textStage options items) by reflexivity.
  rewrite T, <- E1.
  destruct (QueryEngine.filterStage this options
              (QueryEngine.textStage options items, [])) as [its ap] eqn:E.
  simpl in E2. subst ap. split; reflexivity.
Qed.

(** C3, as the code has it. With a search term that is not blank, the
    query engine keeps, in their order, the items whose lower-cased name or
    lower-cased category contains the lower-cased and trimmed term; the
    filters and the sort then run over that sequence, and it is the
    returned sequence when no filter and no sort key is supplied. The
    hybrid engine is not consulted. *)
Theorem executeQuery_text_search
        (U : UnicodeTables) (Payload : Type)
        (propertyGreater : ustring -> Searchable -> Searchable -> bool)
        (hostSort : (Searchable -> Searchable -> Z) -> list Searchable -> list Searchable)
        (this : QueryEngine.t Payload) (items : list Searchable)
        (options : QueryEngine.QueryOptions Payload) (term : ustring) :
  QueryEngine.searchTerm options = Some term ->
  QueryEngine.hasSearchTerm options = true ->
  let found := List.filter (QueryEngine.matchesTerm (trim (toLowerCase term))) items in
  QueryEngine.executeQuery propertyGreater hostSort this items options
  = QueryEngine.executeQuery propertyGreater hostSort this found
      (QueryEngine.withoutSearchTerm options)
  /\ (QueryEngine.filters options = None -> QueryEngine.sortBy options = None ->
      QueryEngine.items
        (QueryEngine.executeQuery propertyGreater hostSort this items options) = found)
  /\ (forall it, In it found <->
        In it items /\
        (includes (toLowerCase (name it)) (trim (toLowerCase term)) = true
         \/ exists c, category it = Some c
                      /\ includes (toLowerCase c) (trim (toLowerCase term)) = true)).
Proof.
  intros Et Hh found.
  assert (T : QueryEngine.textStage options items = found).
  { unfold QueryEngine.textStage. now rewrite Hh, Et. }
  split; [|split].
  - unfold QueryEngine.executeQuery. cbv zeta. rewrite T. reflexivity.
  - intros Ef Es. unfold QueryEngine.executeQuery. cbv zeta. rewrite T.
    unfold QueryEngine.filterStage, QueryEngine.sortStage. now rewrite Ef, Es.
  - intros it. unfold found. rewrite filter_In. unfold QueryEngine.matchesTerm.
    rewrite orb_true_iff. split; intros [Hi Hm]; (split; [exact Hi|]).
    + destruct Hm as [Hm|Hm]; [now left|right].
      destruct (category it) as [c|]; [eauto|discriminate].
    + destruct Hm as [Hm|(c & -> & Hm)]; auto.
Qed.

Lemma executeQuery_text_search_witness :
  let options := {| QueryEngine.searchTerm := Some (u " Zana ");
                    QueryEngine.filters := None;
                    QueryEngine.sortBy := None;
                    QueryEngine.sortOrder := None |} in
  QueryEngine.hasSearchTerm options = true
  /\ QueryEngine.items
       (QueryEngine.executeQuery (U := Latin1.tables) Examples.nameGreater
          Examples.insertionHostSort Examples.queryEngine Examples.catalog options)
     = [Examples.mkItem "1" "Zanahoria" "Verduras"].
Proof.
  cbv zeta. split; [reflexivity|].
  exact (proj1 (proj2 (@executeQuery_text_search Latin1.tables ustring
            Examples.nameGreater Examples.insertionHostSort Examples.queryEngine
            Examples.catalog
            {| QueryEngine.searchTerm := Some (u " Zana ");
               QueryEngine.filters := None;
               QueryEngine.sortBy := None;
               QueryEngine.sortOrder := None |}
            (u " Zana ") eq_refl eq_refl)) eq_refl eq_refl).
Defined.

(** C3, counterexample. For the term "aguacaté" the query engine returns
    nothing (no lower-cased name or category contains it), the hybrid
    engine returns the item named "Aguacate" as an exact match. *)
Lemma executeQuery_is_not_hybrid_search :
  let options := {| QueryEngine.searchTerm := Some (u "aguacaté");
                    QueryEngine.filters := None;
                    QueryEngine.sortBy := None;
                    QueryEngine.sortOrder := None |} in
  QueryEngine.items
    (QueryEngine.executeQuery (U := Latin1.tables) Examples.nameGreater
       Examples.insertionHostSort Examples.queryEngine Examples.catalog options)
  <> List.map item
       (HybridSearchEngine.search (U := Latin1.tables)
          (HybridSearchEngine.new (F := Examples.latinFuse) Examples.catalog)
          (u "aguacaté") defaultSearchOptions).
Proof. vm_compute. discriminate. Qed.

(* ------------------------------------------------------------------ *)
(** ** SynonymService *)

Section SynonymFacts.
Context {U : UnicodeTables}.
Import SynonymService.

Lemma isBlank_trim term : isBlank term = true -> trim term = [].
Proof.
  unfold isBlank. destruct term as [|c term]; [reflexivity|].
  intros H. apply Nat.eqb_eq in H. now apply length_zero_iff_nil.
Qed.

Lemma normalize_blank (L : UnicodeLaws U) term :
  isBlank term = true -> normalize_default term = [].
Proof.
  intros H. unfold normalize_default, normalize.
  destruct term as [|c term]; [reflexivity|].
  unfold normalizeWith. simpl mergeOptions. cbv iota beta zeta. simpl.
  rewrite (isBlank_trim _ H), toLowerCase_nil, normalizeNFD_nil. reflexivity.
Qed.

Lemma readProperty_own (searchIndex : OMap.t SynonymEntry) key entry :
  OMap.get searchIndex key = Some entry -> readProperty searchIndex key = own entry.
Proof. intros H. unfold readProperty. now rewrite H. Qed.

Lemma readProperty_None (searchIndex : OMap.t SynonymEntry) key :
  OMap.get searchIndex key = None ->
  readProperty searchIndex key
  = if isPrototypeMember key then inherited else absent.
Proof. intros H. unfold readProperty. now rewrite H. Qed.

Lemma findSynonyms_lookup this term :
  isBlank term = false ->
  findSynonyms this term =
  match readProperty (index this) (normalize_default term) with
  | own e => [matchOfEntry term e]
  | inherited => [matchOfInherited term]
  | absent => []
  end.
Proof.
  intros H. unfold findSynonyms. rewrite H.
  destruct (readProperty _ _); reflexivity.
Qed.

Lemma variations_fold nq (es : list (ustring * SynonymEntry)) acc :
  fold_left (variationStep nq) es acc
  = acc ++ List.map (fun e => matchOfEntry (fst e) (snd e))
                    (List.filter (isVariationOf nq) es).
Proof.
  revert acc. induction es as [|[k e] es IH]; intros acc; simpl.
  - now rewrite app_nil_r.
  - rewrite IH. unfold isVariationOf at 2. simpl.
    destruct (_ && _); simpl; [now rewrite <- app_assoc|reflexivity].
Qed.

End SynonymFacts.

(** What does hold of [findSynonyms], over an index without the empty
    key: at most one match is returned; it is the match of the entry stored
    under the normalised term when that is a key; when it is not, nothing
    is returned unless the normalised term names a member of
    [Object.prototype], and then the one match returned has the term as
    typed and no other field. *)
Lemma findSynonyms_own_inherited_absent
      (U : UnicodeTables) (L : UnicodeLaws U)
      (this : SynonymService.t) (term : ustring) :
  OMap.get (SynonymService.index this) [] = None ->
  let normalizedTerm := normalize_default term in
  let found := SynonymService.findSynonyms this term in
  (length found <= 1)%nat
  /\ (In normalizedTerm (OMap.keys (SynonymService.index this)) ->
      exists entry,
        OMap.get (SynonymService.index this) normalizedTerm = Some entry
        /\ found = [matchOfEntry term entry])
  /\ (~ In normalizedTerm (OMap.keys (SynonymService.index this)) ->
      found = if SynonymService.isPrototypeMember normalizedTerm
              then [matchOfInherited term] else []).
Proof.
  intros Hempty normalizedTerm found.
  destruct (isBlank term) eqn:B.
  - assert (E : found = []) by (unfold found, SynonymService.findSynonyms; now rewrite B).
    assert (N : normalizedTerm = []) by (now apply normalize_blank).
    rewrite E, N. split; [simpl; lia|]. split; [|reflexivity].
    intros Hin. apply OMapFacts.get_None in Hempty. contradiction.
  - unfold found. rewrite (findSynonyms_lookup this term B).
    fold normalizedTerm.
    destruct (OMap.get (SynonymService.index this) normalizedTerm) as [e|] eqn:G.
    + rewrite (readProperty_own _ _ G).
      split; [simpl; lia|]. split; [eauto|].
      intros Hn. apply OMapFacts.get_None in Hn. congruence.
    + rewrite (readProperty_None _ _ G).
      split; [destruct (SynonymService.isPrototypeMember _); simpl; lia|].
      split; [|intros _; now destruct (SynonymService.isPrototypeMember _)].
      intros Hin. apply OMapFacts.get_None in G. contradiction.
Qed.

(** C8, on the shipped index. "constructor" and "__proto__" are their own
    normalisations and are not keys of the index, yet [findSynonyms]
    returns one match for each: the bracket read of the plain index object
    finds the members inherited from [Object.prototype], and the match
    built from them has the term as typed and no canonical term, no
    confidence and no region. [hasSynonyms] answers true for both. A term
    that is neither a key nor such a member, like "xyz", is answered with
    no match. *)
Theorem findSynonyms_reads_inherited_members :
  normalize_default (U := Latin1.tables) (u "constructor") = u "constructor"
  /\ ~ In (u "constructor") (OMap.keys Examples.shippedIndex)
  /\ SynonymService.findSynonyms (U := Latin1.tables)
       Examples.shippedService (u "constructor")
     = [ {| SynonymService.canonicalTerm := None;
            SynonymService.originalTerm := u "constructor";
            SynonymService.sm_confidence := None;
            SynonymService.sm_regionInfo := None |} ]
  /\ normalize_default (U := Latin1.tables) (u "__proto__") = u "__proto__"
  /\ ~ In (u "__proto__") (OMap.keys Examples.shippedIndex)
  /\ SynonymService.findSynonyms (U := Latin1.tables)
       Examples.shippedService (u "__proto__")
     = [ {| SynonymService.canonicalTerm := None;
            SynonymService.originalTerm := u "__proto__";
            SynonymService.sm_confidence := None;
            SynonymService.sm_regionInfo := None |} ]
  /\ SynonymService.hasSynonyms (U := Latin1.tables)
       Examples.shippedService (u "constructor") = true
  /\ SynonymService.hasSynonyms (U := Latin1.tables)
       Examples.shippedService (u "__proto__") = true
  /\ SynonymService.findSynonyms (U := Latin1.tables)
       Examples.shippedService (u "xyz") = [].
Proof.
  split; [vm_compute; reflexivity|].
  split; [apply OMapFacts.get_None; vm_compute; reflexivity|].
  split; [vm_compute; reflexivity|].
  split; [vm_compute; reflexivity|].
  split; [apply OMapFacts.get_None; vm_compute; reflexivity|].
  split; [vm_compute; reflexivity|].
  split; [vm_compute; reflexivity|].
  split; vm_compute; reflexivity.
Qed.

(** What does hold of [findAllVariations]: it returns, in index order, the
    matches of exactly the entries whose stored canonical term normalises
    to the normalised query and whose key is not that normalised query. *)
Lemma findAllVariations_exact
      (U : UnicodeTables) (this : SynonymService.t) (canonicalTerm : ustring) :
  let normalizedCanonical := normalize_default canonicalTerm in
  let variations := SynonymService.findAllVariations this canonicalTerm in
  variations
  = List.map (fun e => matchOfEntry (fst e) (snd e))
             (List.filter (isVariationOf normalizedCanonical)
                          (OMap.entries (SynonymService.index this)))
  /\ (forall m, In m variations <->
        exists term entry,
          In (term, entry) (OMap.entries (SynonymService.index this))
          /\ normalize_default (canonical entry) = normalizedCanonical
          /\ term <> normalizedCanonical
          /\ m = matchOfEntry term entry)
  /\ (forall m, In m variations ->
        SynonymService.originalTerm m <> normalizedCanonical).
Proof.
  intros nq variations.
  assert (E : variations
              = List.map (fun e => matchOfEntry (fst e) (snd e))
                         (List.filter (isVariationOf nq)
                                      (OMap.entries (SynonymService.index this)))).
  { unfold variations, SynonymService.findAllVariations. cbv zeta.
    now rewrite variations_fold. }
  assert (M : forall m, In m variations <->
        exists term entry,
          In (term, entry) (OMap.entries (SynonymService.index this))
          /\ normalize_default (canonical entry) = nq
          /\ term <> nq
          /\ m = matchOfEntry term entry).
  { intros m. rewrite E, in_map_iff. split.
    - intros ([k e] & <- & H). apply filter_In in H as [Hin Hv].
      unfold isVariationOf in Hv. simpl in Hv. apply andb_prop in Hv as [H1 H2].
      apply ustring_eqb_eq in H1. apply negb_true_iff, ustring_eqb_neq in H2.
      exists k, e. auto.
    - intros (k & e & Hin & H1 & H2 & ->). exists (k, e). split; [reflexivity|].
      apply filter_In. split; [exact Hin|].
      unfold isVariationOf. simpl.
      apply ustring_eqb_eq in H1. apply ustring_eqb_neq in H2.
      now rewrite H1, H2. }
  split; [exact E|]. split; [exact M|].
  intros m Hm. apply M in Hm as (k & e & _ & _ & Hk & ->). exact Hk.
Qed.

(** C9, on the passion-fruit group of the earlier vocabulary and on the
    shipped index. The index built from the group keys its canonical entry
    by the lower-cased term "maracuyá", and [findAllVariations("maracuyá")]
    compares that key with the normalised query "maracuya": the canonical
    entry, confidence 1.0 and no region, is the first variation returned,
    before the four synonyms. On the shipped index
    [findAllVariations("salmón")] returns the entry keyed "salmón", the
    term asked for, and leaves out the one keyed "salmon". *)
Theorem findAllVariations_returns_canonical_entry :
  OMap.keys (SynonymService.index Examples.maracuyaService)
  = [ u "maracuyá"; u "parchita"; u "chinola"; u "fruta de la pasión";
      u "passion fruit" ]
  /\ normalize_default (U := Latin1.tables) (u "maracuyá") = u "maracuya"
  /\ List.map (fun m => (SynonymService.originalTerm m,
                         SynonymService.canonicalTerm m,
                         SynonymService.sm_confidence m))
       (SynonymService.findAllVariations (U := Latin1.tables)
          Examples.maracuyaService (u "maracuyá"))
     = [ (u "maracuyá", Some (u "maracuyá"), Some 1.0);
         (u "parchita", Some (u "maracuyá"), Some 0.9);
         (u "chinola", Some (u "maracuyá"), Some 0.9);
         (u "fruta de la pasión", Some (u "maracuyá"), Some 0.9);
         (u "passion fruit", Some (u "maracuyá"), Some 0.9) ]
  /\ In (matchOfEntry (u "maracuyá")
           {| canonical := u "maracuyá"; productId := u "exotic_passion_001";
              confidence := 1.0; regionInfo := None |})
        (SynonymService.findAllVariations (U := Latin1.tables)
           Examples.maracuyaService (u "maracuyá"))
  /\ List.map SynonymService.originalTerm
       (SynonymService.findAllVariations (U := Latin1.tables)
          Examples.shippedService (u "salmón"))
     = [ u "salmón"; u "salmão" ].
Proof.
  split; [vm_compute; reflexivity|].
  split; [vm_compute; reflexivity|].
  split; [vm_compute; reflexivity|].
  split; [vm_compute; left; reflexivity|].
  vm_compute; reflexivity.
Qed.

(** C4, on the shipped vocabulary. The index is built (no group has an
    empty region list), but its keys are only lower-cased: "brócoli" is a
    key and is not its own normalisation, so the normalising lookup never
    finds it; and the key "banana", first stored for the canonical term
    with confidence 1.0, is stored again for the synonym "banana" with
    confidence 0.9. *)
Theorem shipped_index_keys_not_normalized :
  buildSearchIndex (U := Latin1.tables) <> None
  /\ In (u "brócoli") (OMap.keys Examples.shippedIndex)
  /\ normalize_default (U := Latin1.tables) (u "brócoli") = u "brocoli"
  /\ normalize_default (U := Latin1.tables) (u "brócoli") <> u "brócoli"
  /\ SynonymService.findSynonyms (U := Latin1.tables)
       Examples.shippedService (u "brócoli") = []
  /\ In (u "banana") (OMap.keys synonymsData)
  /\ option_map confidence
       (OMap.get Examples.shippedIndex
                 (normalize_default (U := Latin1.tables) (u "banana")))
     = Some 0.9.
Proof.
  split; [vm_compute; discriminate|].
  split; [vm_compute; tauto|].
  split; [vm_compute; reflexivity|].
  split; [vm_compute; discriminate|].
  split; [vm_compute; reflexivity|].
  split; [vm_compute; tauto|].
  vm_compute; reflexivity.
Qed.

(** What does hold of the shipped index: the normalised form of every
    canonical term is one of its keys. *)
Lemma shipped_index_has_canonical_keys :
  forallb (fun canonical =>
             match OMap.get Examples.shippedIndex
                            (normalize_default (U := Latin1.tables) canonical) with
             | Some _ => true
             | None => false
             end)
          (OMap.keys synonymsData) = true.
Proof. vm_compute. reflexivity. Qed.

(* ------------------------------------------------------------------ *)
(** ** SynonymMatchStrategy and the "palta" scenario *)

Section StrategyFacts.
Context {U : UnicodeTables}.
Import SynonymService SynonymMatchStrategy.

Lemma updateFirst_Forall (A : Type) (P : A -> Prop) (p : A -> bool) (f : A -> A) l :
  (forall x, P x -> P (f x)) -> Forall P l -> Forall P (updateFirst p f l).
Proof.
  intros Hf. induction 1 as [|x l Hx Hl IH]; simpl; [constructor|].
  destruct (p x); constructor; auto.
Qed.

Lemma itemStep_partial query sm cn results it :
  Forall (fun r => matchType r = mt_partial) results ->
  Forall (fun r => matchType r = mt_partial) (itemStep query sm cn results it).
Proof.
  intros H. unfold itemStep.
  destruct (scoreAgainst sm cn it) as [[s|] ts]; [|exact H].
  destruct (Qpositive s); [|exact H].
  destruct (arrayFind _ _) as [existing|].
  - destruct (Qlt_bool _ _); [|exact H].
    apply updateFirst_Forall; auto.
  - apply Forall_app. split; [exact H|]. repeat constructor.
Qed.

Lemma findMatches_partial service items query nq :
  Forall (fun r => matchType r = mt_partial) (findMatches service items query nq).
Proof.
  unfold findMatches. cbv zeta.
  destruct (length _ =? 0)%nat; [constructor|].
  apply Forall_forall. intros r Hr. apply arraySort_In in Hr. revert r Hr.
  apply Forall_forall.
  apply fold_left_invariant; [|constructor].
  intros results sm H. unfold synonymStep.
  apply fold_left_invariant; [|exact H].
  intros. now apply itemStep_partial.
Qed.

End StrategyFacts.

Section PaltaScenario.
Context {F : FuseLibrary}.
#[local] Existing Instance Latin1.tables.
Import HybridSearchEngine.

Lemma palta_candidates options :
  hierarchicalCandidates (new Examples.catalog) (u "palta") options
  = getFuzzyMatches (new Examples.catalog) (u "palta") options.
Proof.
  unfold hierarchicalCandidates. cbv zeta.
  change (getExactMatches (new Examples.catalog) (u "palta")
            (normalize_default (u "palta")))
    with (List.flat_map (exactMatchOf (u "palta") (normalize_default (u "palta")))
                        Examples.catalog).
  replace (List.flat_map (exactMatchOf (u "palta") (normalize_default (u "palta")))
                         Examples.catalog)
    with (@nil SearchResult) by (vm_compute; reflexivity).
  simpl length. cbv iota beta. simpl (0 <? 0)%nat. cbv iota.
  destruct (0 <? length (getFuzzyMatches (new Examples.catalog) (u "palta") options))%nat
    eqn:E; [reflexivity|].
  apply Nat.ltb_ge in E.
  destruct (getFuzzyMatches (new Examples.catalog) (u "palta") options);
    [|simpl in E; lia].
  vm_compute. reflexivity.
Qed.

Lemma palta_results_are_fuzzy options r :
  In r (search (new Examples.catalog) (u "palta") options) ->
  exists fr, In fr (fuseSearch Examples.catalog (u "palta"))
             /\ r = fuzzyMatchOf (u "palta") fr.
Proof.
  rewrite search_hierarchical_eq.
  replace (isBlank (u "palta")) with false by (vm_compute; reflexivity).
  intros H. apply limitAndSort_In in H as [H _].
  rewrite palta_candidates in H. unfold getFuzzyMatches in H.
  apply in_map_iff in H as (fr & <- & H). eauto.
Qed.

End PaltaScenario.

Lemma Qpositive_scaled c : 0 < c -> Qpositive (c * 0.95) = true.
Proof. intros H. apply Qpositive_true. nra. Qed.

(** C5, as the code has it. On the two-item catalog the engine finds no
    exact and no partial match for "palta" and never consults the synonym
    strategy: every result it returns is one of Fuse's, tagged fuzzy, and
    there is none when Fuse reports none. The synonym strategy, called on
    its own with an index that resolves "palta" to the canonical term
    "aguacate" with confidence c > 0, returns one result: item "2", score
    c * 0.95, tagged partial, matched terms "Aguacate" and
    "palta → aguacate". With the shipped index "palta" resolves to
    "avocado" and the strategy returns nothing. *)
Theorem palta_scenario (F : FuseLibrary) (options : SearchOptions) :
  let engine := HybridSearchEngine.new (F := F) Examples.catalog in
  let found := HybridSearchEngine.search (U := Latin1.tables) engine (u "palta") options in
  (forall r, In r found ->
     matchType r = mt_fuzzy
     /\ exists fr, In fr (fuseSearch Examples.catalog (u "palta"))
                   /\ r = HybridSearchEngine.fuzzyMatchOf (u "palta") fr)
  /\ (fuseSearch Examples.catalog (u "palta") = [] -> found = [])
  /\ (forall service entry,
        OMap.get (SynonymService.index service) (u "palta") = Some entry ->
        canonical entry = u "aguacate" ->
        0 < confidence entry ->
        SynonymMatchStrategy.findMatches (U := Latin1.tables)
          service Examples.catalog (u "palta") (u "palta")
        = [ {| item := Examples.mkItem "2" "Aguacate" "Frutas";
               score := confidence entry * 0.95;
               matchType := mt_partial;
               matchedTerms := [u "Aguacate"; Examples.paltaNote];
               originalQuery := u "palta" |} ])
  /\ option_map canonical (OMap.get Examples.shippedIndex (u "palta"))
     = Some (u "avocado")
  /\ SynonymMatchStrategy.findMatches (U := Latin1.tables)
       Examples.shippedService Examples.catalog (u "palta") (u "palta") = [].
Proof.
  cbv zeta. split; [|split; [|split; [|split]]].
  - intros r Hr. apply palta_results_are_fuzzy in Hr as (fr & Hfr & ->).
    split; [reflexivity|eauto].
  - intros E.
    destruct (HybridSearchEngine.search (U := Latin1.tables)
                (HybridSearchEngine.new Examples.catalog) (u "palta") options)
      as [|r rest] eqn:S; [reflexivity|].
    assert (Hr : In r (r :: rest)) by now left.
    rewrite <- S in Hr.
    apply palta_results_are_fuzzy in Hr as (fr & Hfr & _).
    rewrite E in Hfr. destruct Hfr.
  - intros service entry G C P.
    unfold SynonymMatchStrategy.findMatches. cbv zeta.
    rewrite findSynonyms_lookup by (vm_compute; reflexivity).
    replace (normalize_default (U := Latin1.tables) (u "palta")) with (u "palta")
      by (vm_compute; reflexivity).
    rewrite (readProperty_own _ _ G). simpl length. simpl (1 =? 0)%nat. cbv iota.
    cbn [fold_left]. unfold SynonymMatchStrategy.synonymStep.
    cbn [SynonymService.canonicalTerm matchOfEntry]. rewrite C.
    unfold Examples.catalog. cbn [fold_left].
    unfold SynonymMatchStrategy.itemStep at 2.
    replace (SynonymMatchStrategy.scoreAgainst (U := Latin1.tables)
               (matchOfEntry (u "palta") entry)
               (normalize_default (U := Latin1.tables) (u "aguacate"))
               (Examples.mkItem "1" "Zanahoria" "Verduras"))
      with (Some (0 : Q), @nil ustring) by (vm_compute; reflexivity).
    cbv iota beta.
    replace (Qpositive 0) with false by reflexivity. cbv iota beta.
    unfold SynonymMatchStrategy.itemStep.
    replace (SynonymMatchStrategy.scoreAgainst (U := Latin1.tables)
               (matchOfEntry (u "palta") entry)
               (normalize_default (U := Latin1.tables) (u "aguacate"))
               (Examples.mkItem "2" "Aguacate" "Frutas"))
      with (Some (confidence entry * 0.95), [u "Aguacate"]).
    2:{ unfold SynonymMatchStrategy.scoreAgainst.
        replace (ustring_eqb
                   (normalize_default (U := Latin1.tables)
                      (name (Examples.mkItem "2" "Aguacate" "Frutas")))
                   (normalize_default (U := Latin1.tables) (u "aguacate")))
          with true by (vm_compute; reflexivity).
        reflexivity. }
    cbv iota beta. rewrite (Qpositive_scaled P).
    cbn [arrayFind find app]. unfold SynonymMatchStrategy.arrowNote.
    cbn [SynonymService.originalTerm SynonymService.canonicalTerm matchOfEntry].
    rewrite C. reflexivity.
  - vm_compute. reflexivity.
  - vm_compute. reflexivity.
Qed.

Lemma palta_scenario_witness :
  let entry := {| canonical := u "aguacate"; productId := u "temp_aguacate";
                  confidence := 0.9;
                  regionInfo := Some {| region := u "AR"; country := u "Argentina";
                                        language := Some (u "es") |} |} in
  (OMap.get (SynonymService.index Examples.aguacateService) (u "palta") = Some entry
   /\ canonical entry = u "aguacate" /\ 0 < confidence entry)
  /\ SynonymMatchStrategy.findMatches (U := Latin1.tables)
       Examples.aguacateService Examples.catalog (u "palta") (u "palta")
     = [ {| item := Examples.mkItem "2" "Aguacate" "Frutas";
            score := 0.9 * 0.95;
            matchType := mt_partial;
            matchedTerms := [u "Aguacate"; Examples.paltaNote];
            originalQuery := u "palta" |} ].
Proof.
  cbv zeta. split; [repeat split; reflexivity|].
  destruct (palta_scenario Examples.latinFuse defaultSearchOptions)
    as (_ & _ & H & _).
  exact (H Examples.aguacateService _ eq_refl eq_refl eq_refl).
Defined.

(** The same strategy run on the avocado group of the first vocabulary. *)
Example palta_finds_aguacate_through_its_first_vocabulary :
  List.map (fun r => (id (item r), matchedTerms r))
    (SynonymMatchStrategy.findMatches (U := Latin1.tables)
       Examples.aguacateService Examples.catalog (u "palta") (u "palta"))
  = [ (u "2", [u "Aguacate"; Examples.paltaNote]) ].
Proof. vm_compute. reflexivity. Qed.

(** C5, counterexample. Whatever Fuse reports and whatever the synonym
    index holds, the first result of [search("palta")] on the two-item
    catalog is not a result of the synonym strategy: the engine's results
    are tagged fuzzy, the strategy's partial. *)
Lemma search_palta_not_via_synonyms :
  ~ exists (F : FuseLibrary) (service : SynonymService.t)
           (options : SearchOptions) r rest,
      HybridSearchEngine.search (U := Latin1.tables)
        (HybridSearchEngine.new (F := F) Examples.catalog) (u "palta") options
      = r :: rest
      /\ id (item r) = u "2"
      /\ In r (SynonymMatchStrategy.findMatches (U := Latin1.tables)
                 service Examples.catalog (u "palta")
                 (normalize_default (U := Latin1.tables) (u "palta")))
      /\ In Examples.paltaNote (matchedTerms r).
Proof.
  intros (F & service & options & r & rest & S & _ & Hs & _).
  assert (Hr : In r (HybridSearchEngine.search (U := Latin1.tables)
                       (HybridSearchEngine.new (F := F) Examples.catalog)
                       (u "palta") options)) by (rewrite S; now left).
  apply palta_results_are_fuzzy in Hr as (fr & _ & ->).
  pose proof (findMatches_partial (U := Latin1.tables) service Examples.catalog
                (u "palta") (normalize_default (U := Latin1.tables) (u "palta"))) as P.
  rewrite Forall_forall in P. apply P in Hs. discriminate.
Qed.

(* ------------------------------------------------------------------ *)
(** ** Worked examples *)

Example normalize_ZANAHORIA :
  normalize_default (U := Latin1.tables) (u "ZANAHORIA") = u "zanahoria".
Proof. reflexivity. Qed.

Example normalize_brocoli :
  normalize_default (U := Latin1.tables) (u "  Brócoli,  ñame ") = u "brocoli name".
Proof. vm_compute. reflexivity. Qed.


(* ================================================================== *)
(** * Further properties of the code *)

(* ------------------------------------------------------------------ *)
(** ** Dictionaries and the stable sort *)

Section OMapMore.
Variable V : Type.
Implicit Types (m : OMap.t V) (k : ustring) (v : V).

Lemma get_set_same m k v : OMap.get (OMap.set m k v) k = Some v.
Proof.
  induction m as [|[k' v'] m IH]; simpl.
  - now rewrite ustring_eqb_refl.
  - destruct (ustring_eqb k k') eqn:E; simpl.
    + now rewrite ustring_eqb_refl.
    + now rewrite E.
Qed.

Lemma get_set_other m k v k' : k' <> k -> OMap.get (OMap.set m k v) k' = OMap.get m k'.
Proof.
  intros N. induction m as [|[k0 v0] m IH]; simpl.
  - apply ustring_eqb_neq in N. now rewrite N.
  - destruct (ustring_eqb k k0) eqn:E; simpl.
    + apply ustring_eqb_eq in E. subst k0.
      apply ustring_eqb_neq in N. now rewrite N.
    + destruct (ustring_eqb k' k0); auto.
Qed.

Lemma In_get m k v : NoDup (OMap.keys m) -> In (k, v) m -> OMap.get m k = Some v.
Proof.
  induction m as [|[k' v'] m IH]; simpl; [tauto|].
  intros H [E|Hin]; inversion H as [|? ? Hk Hm]; subst.
  - inversion E; subst. now rewrite ustring_eqb_refl.
  - destruct (ustring_eqb k k') eqn:E; [|auto].
    apply ustring_eqb_eq in E. subst k'. exfalso. apply Hk.
    now apply (in_map fst) in Hin.
Qed.

Lemma set_keys_incl m k v k' :
  In k' (OMap.keys m) -> In k' (OMap.keys (OMap.set m k v)).
Proof.
  induction m as [|[k0 v0] m IH]; simpl; [tauto|].
  destruct (ustring_eqb k k0) eqn:E; simpl.
  - apply ustring_eqb_eq in E. subst. tauto.
  - intros [->|H]; auto.
Qed.

Lemma set_keys_new m k v : In k (OMap.keys (OMap.set m k v)).
Proof.
  induction m as [|[k0 v0] m IH]; simpl; [now left|].
  destruct (ustring_eqb k k0) eqn:E; simpl; auto.
Qed.

Lemma set_length m k v :
  length (OMap.set m k v)
  = if existsb (ustring_eqb k) (OMap.keys m) then length m else S (length m).
Proof.
  induction m as [|[k0 v0] m IH]; simpl; [reflexivity|].
  destruct (ustring_eqb k k0); simpl; [reflexivity|].
  rewrite IH. now destruct (existsb _ _).
Qed.

End OMapMore.

Lemma insertSorted_hasScore q x l :
  List.filter (hasScore q) (insertSorted HybridSearchEngine.byScoreDesc x l)
  = List.filter (hasScore q) (x :: l).
Proof.
  induction l as [|y l IH]; [reflexivity|].
  cbn [insertSorted].
  destruct (Qpositive (HybridSearchEngine.byScoreDesc x y)) eqn:E; [|reflexivity].
  apply Qpositive_true in E. unfold HybridSearchEngine.byScoreDesc in E.
  cbn [List.filter]. rewrite IH. cbn [List.filter].
  destruct (hasScore q x) eqn:Hx, (hasScore q y) eqn:Hy; try reflexivity.
  exfalso. unfold hasScore in *.
  apply Qeq_bool_iff in Hx. apply Qeq_bool_iff in Hy. lra.
Qed.

Lemma arraySort_hasScore q l :
  List.filter (hasScore q) (arraySort HybridSearchEngine.byScoreDesc l)
  = List.filter (hasScore q) l.
Proof.
  induction l as [|x l IH]; [reflexivity|].
  cbn [arraySort fold_right]. fold (arraySort HybridSearchEngine.byScoreDesc l).
  rewrite insertSorted_hasScore. cbn [List.filter]. now rewrite IH.
Qed.

Lemma limitAndSort_unlimited rs options :
  truthyZ (maxResults options) = false ->
  HybridSearchEngine.limitAndSort rs options
  = arraySort HybridSearchEngine.byScoreDesc
      (List.filter (HybridSearchEngine.passesMinScore options) rs).
Proof. intros H. unfold HybridSearchEngine.limitAndSort. now rewrite H. Qed.

(** X1. Without a limit, [limitAndSort] returns a rearrangement of exactly
    the candidates that pass [minScore]: none is lost, none is added. *)
Theorem limitAndSort_rearranges_passing_candidates
        (rs : list SearchResult) (options : SearchOptions) :
  truthyZ (maxResults options) = false ->
  Permutation (List.filter (HybridSearchEngine.passesMinScore options) rs)
              (HybridSearchEngine.limitAndSort rs options).
Proof.
  intros H. rewrite (limitAndSort_unlimited rs options H). apply arraySort_perm.
Qed.

Lemma limitAndSort_rearranges_passing_candidates_witness :
  truthyZ (maxResults defaultSearchOptions) = false
  /\ Permutation
       (List.filter (HybridSearchEngine.passesMinScore defaultSearchOptions)
          [HybridSearchEngine.fuzzyMatchOf (u "a")
             {| fr_item := Examples.mkItem "1" "Zanahoria" "Verduras";
                refIndex := 0; fr_score := Some 0.5; matches := None |};
           exactByName (u "a") (Examples.mkItem "2" "Aguacate" "Frutas")])
       (HybridSearchEngine.limitAndSort
          [HybridSearchEngine.fuzzyMatchOf (u "a")
             {| fr_item := Examples.mkItem "1" "Zanahoria" "Verduras";
                refIndex := 0; fr_score := Some 0.5; matches := None |};
           exactByName (u "a") (Examples.mkItem "2" "Aguacate" "Frutas")]
          defaultSearchOptions).
Proof.
  split; [reflexivity|].
  apply limitAndSort_rearranges_passing_candidates. reflexivity.
Defined.

(** X2. The sort of [limitAndSort] is stable: without a limit, the results
    of any one score stand in the order the candidates had. *)
Theorem limitAndSort_keeps_tie_order
        (rs : list SearchResult) (options : SearchOptions) (q : Q) :
  truthyZ (maxResults options) = false ->
  List.filter (hasScore q) (HybridSearchEngine.limitAndSort rs options)
  = List.filter (hasScore q)
      (List.filter (HybridSearchEngine.passesMinScore options) rs).
Proof.
  intros H. rewrite (limitAndSort_unlimited rs options H).
  apply arraySort_hasScore.
Qed.

Lemma limitAndSort_keeps_tie_order_witness :
  truthyZ (maxResults defaultSearchOptions) = false
  /\ List.map resultId
       (List.filter (hasScore 1.0)
          (HybridSearchEngine.limitAndSort
             [exactByName (u "a") (Examples.mkItem "1" "Zanahoria" "Verduras");
              exactByName (u "a") (Examples.mkItem "2" "Aguacate" "Frutas")]
             defaultSearchOptions))
     = [u "1"; u "2"].
Proof.
  split; [reflexivity|].
  rewrite (limitAndSort_keeps_tie_order
             [exactByName (u "a") (Examples.mkItem "1" "Zanahoria" "Verduras");
              exactByName (u "a") (Examples.mkItem "2" "Aguacate" "Frutas")]
             defaultSearchOptions 1.0 eq_refl).
  reflexivity.
Defined.

(* ------------------------------------------------------------------ *)
(** ** The engines: where results come from and what they carry *)

Lemma fold_left_invariant_In (A B : Type) (P : A -> Prop) (f : A -> B -> A) l a :
  (forall a b, In b l -> P a -> P (f a b)) -> P a -> P (fold_left f l a).
Proof.
  revert a. induction l as [|b l IH]; simpl; intros a Hf Ha; [exact Ha|].
  apply IH; [intros; apply Hf; auto|apply Hf; auto].
Qed.

Lemma StronglySorted_split (A : Type) (R : A -> A -> Prop) l1 x l2 :
  StronglySorted R (l1 ++ x :: l2) -> Forall (R x) l2.
Proof.
  induction l1 as [|a l1 IH]; simpl; intros H; inversion H; subst; auto.
Qed.

Section EngineMore.
Context {U : UnicodeTables}.
Import HybridSearchEngine.

Lemma exactMatchOf_In query nq it r :
  In r (exactMatchOf query nq it) ->
  (r = exactByName query it /\ normalize_default (name it) = nq)
  \/ (r = exactByCategory query it /\ normalize_default (categoryOrEmpty it) = nq).
Proof.
  unfold exactMatchOf.
  destruct (ustring_eqb (normalize_default (name it)) nq) eqn:E1.
  - intros [<-|[]]. left. split; [reflexivity|now apply ustring_eqb_eq].
  - destruct (ustring_eqb (normalize_default (categoryOrEmpty it)) nq) eqn:E2;
      [|intros []].
    intros [<-|[]]. right. split; [reflexivity|now apply ustring_eqb_eq].
Qed.

Lemma exactMatchOf_name query nq it :
  normalize_default (name it) = nq -> exactMatchOf query nq it = [exactByName query it].
Proof.
  intros E. unfold exactMatchOf. apply ustring_eqb_eq in E. now rewrite E.
Qed.

Lemma exactMatchOf_nonempty query nq it :
  normalize_default (name it) = nq \/ normalize_default (categoryOrEmpty it) = nq ->
  exactMatchOf query nq it <> [].
Proof.
  unfold exactMatchOf. intros [E|E]; apply ustring_eqb_eq in E; rewrite E.
  - cbv iota. discriminate.
  - destruct (ustring_eqb (normalize_default (name it)) nq); discriminate.
Qed.

Lemma partialMatchOf_In nq it r :
  In r (partialMatchOf nq it) ->
  item r = it /\ matchType r = mt_partial /\ originalQuery r = nq
  /\ (score r = 0.6 \/ score r = 0.5).
Proof.
  unfold partialMatchOf, partialScoreOf. cbv zeta. cbv beta iota.
  destruct (includes (normalize_default (name it)) nq),
           (includes (normalize_default (categoryOrEmpty it)) nq);
    cbv beta iota.
  - replace (Qpositive (Qmax (Qmax 0 0.6) 0.5)) with true by reflexivity.
    intros [<-|[]]. repeat split. left. reflexivity.
  - replace (Qpositive (Qmax 0 0.6)) with true by reflexivity.
    intros [<-|[]]. repeat split. left. reflexivity.
  - replace (Qpositive (Qmax 0 0.5)) with true by reflexivity.
    intros [<-|[]]. repeat split. right. reflexivity.
  - replace (Qpositive 0) with false by reflexivity. intros [].
Qed.

Lemma exactStep_cases query nq (m : OMap.t SearchResult) it :
  HybridSearchEngineCumulative.exactStep query nq m it = m
  \/ exists r, In r (exactMatchOf query nq it)
               /\ HybridSearchEngineCumulative.exactStep query nq m it
                  = OMap.set m (id it) r.
Proof.
  unfold HybridSearchEngineCumulative.exactStep, exactMatchOf.
  destruct (ustring_eqb _ _); [right; eexists; split; [now left|reflexivity]|].
  destruct (ustring_eqb _ _); [right; eexists; split; [now left|reflexivity]|].
  now left.
Qed.

Lemma fuzzyStep_cases query (m : OMap.t SearchResult) fr :
  HybridSearchEngineCumulative.fuzzyStep query m fr = m
  \/ HybridSearchEngineCumulative.fuzzyStep query m fr
     = OMap.set m (id (fr_item fr)) (fuzzyMatchOf query fr).
Proof.
  unfold HybridSearchEngineCumulative.fuzzyStep. cbv zeta.
  match goal with |- (if ?c then _ else _) = _ \/ _ => destruct c end;
    [now right|now left].
Qed.

Lemma partialStep_cases nq (m : OMap.t SearchResult) it :
  HybridSearchEngineCumulative.partialStep nq m it = m
  \/ exists r, In r (partialMatchOf nq it)
               /\ HybridSearchEngineCumulative.partialStep nq m it
                  = OMap.set m (id it) r.
Proof.
  unfold HybridSearchEngineCumulative.partialStep, partialMatchOf. cbv zeta.
  match goal with |- (if ?c then _ else _) = _ \/ _ => destruct c end;
    [now left|].
  destruct (partialScoreOf nq it) as [s ts].
  destruct (Qpositive s); [right; eexists; split; [now left|reflexivity]|now left].
Qed.

Lemma set_values_Forall (P : SearchResult -> Prop) (m : OMap.t SearchResult) k v :
  Forall P (OMap.values m) -> P v -> Forall P (OMap.values (OMap.set m k v)).
Proof.
  unfold OMap.values. intros Hm Hv. apply Forall_forall. intros x Hx.
  apply in_map_iff in Hx as ([k' v'] & <- & He).
  apply OMapFacts.set_In in He as [E|He]; [now inversion E|].
  rewrite Forall_forall in Hm. apply Hm. now apply (in_map snd) in He.
Qed.

Section Origins.
Context {F : FuseLibrary}.
Variable P : SearchResult -> Prop.
Variables (items : list Searchable) (query : ustring) (options : SearchOptions).
Hypothesis exact_ok :
  forall it r, In it items ->
               In r (exactMatchOf query (normalize_default query) it) -> P r.
Hypothesis fuzzy_ok :
  forall fr, In fr (fuseSearch items query) -> P (fuzzyMatchOf query fr).
Hypothesis partial_ok :
  forall it r, In it items ->
               In r (partialMatchOf (normalize_default query) it) -> P r.

Lemma hierarchicalCandidates_Forall :
  Forall P (hierarchicalCandidates (new items) query options).
Proof.
  unfold hierarchicalCandidates. cbv zeta.
  destruct (0 <? length _)%nat.
  - apply Forall_forall. intros r Hr.
    apply in_flat_map in Hr as (it & Hit & Hr). eauto.
  - destruct (0 <? length _)%nat.
    + apply Forall_forall. intros r Hr.
      apply in_map_iff in Hr as (fr & <- & Hfr). eauto.
    + apply Forall_forall. intros r Hr.
      apply in_flat_map in Hr as (it & Hit & Hr). eauto.
Qed.

Lemma cumulativeCandidates_Forall :
  Forall P (cumulativeCandidates (HybridSearchEngineCumulative.new items)
                                 query options).
Proof.
  unfold cumulativeCandidates. cbv zeta.
  unfold HybridSearchEngineCumulative.partialSearch,
    HybridSearchEngineCumulative.fuzzySearch,
    HybridSearchEngineCumulative.exactSearch.
  apply (fold_left_invariant_In (fun m => Forall P (OMap.values m))).
  { intros m it Hit Hm.
    destruct (partialStep_cases (normalize_default query) m it)
      as [->|(r & Hr & ->)]; [exact Hm|].
    apply set_values_Forall; eauto. }
  apply (fold_left_invariant_In (fun m => Forall P (OMap.values m))).
  { intros m fr Hfr Hm.
    destruct (fuzzyStep_cases query m fr) as [->| ->]; [exact Hm|].
    apply set_values_Forall; auto. }
  apply (fold_left_invariant_In (fun m => Forall P (OMap.values m))).
  { intros m it Hit Hm.
    destruct (exactStep_cases query (normalize_default query) m it)
      as [->|(r & Hr & ->)]; [exact Hm|].
    apply set_values_Forall; eauto. }
  constructor.
Qed.

Lemma both_searches_Forall :
  Forall P (search (new items) query options)
  /\ Forall P (HybridSearchEngineCumulative.search
                 (HybridSearchEngineCumulative.new items) query options).
Proof.
  rewrite search_hierarchical_eq, search_cumulative_eq.
  destruct (isBlank query); [split; constructor|].
  split; apply Forall_forall; intros r Hr; apply limitAndSort_In in Hr as [Hr _].
  - pose proof hierarchicalCandidates_Forall as H.
    rewrite Forall_forall in H. now apply H.
  - pose proof cumulativeCandidates_Forall as H.
    rewrite Forall_forall in H. now apply H.
Qed.

End Origins.
End EngineMore.

Section EngineExtras.
Context {U : UnicodeTables}.
Import HybridSearchEngine.

Lemma fuseResultsOf_In items rs fr :
  fuseResultsOf items rs -> In fr rs -> In (fr_item fr) items.
Proof.
  intros [_ H] Hfr. rewrite Forall_forall in H.
  eapply nth_error_In. apply H. exact Hfr.
Qed.

Lemma fuzzyScoreOf_band fr :
  (forall s, fr_score fr = Some s -> 0 <= s) ->
  0 <= fuzzyScoreOf fr /\ fuzzyScoreOf fr <= 0.8.
Proof.
  intros H. split; [apply fuzzyScoreOf_nonneg|].
  unfold fuzzyScoreOf. apply Q.max_lub; [lra|].
  destruct (fr_score fr) as [s|]; [|lra].
  specialize (H s eq_refl). lra.
Qed.

Lemma exactStep_name query nq (m : OMap.t SearchResult) it :
  normalize_default (name it) = nq ->
  HybridSearchEngineCumulative.exactStep query nq m it
  = OMap.set m (id it) (exactByName query it).
Proof.
  intros E. unfold HybridSearchEngineCumulative.exactStep.
  apply ustring_eqb_eq in E. now rewrite E.
Qed.

Lemma exactStep_get_other query nq (m : OMap.t SearchResult) it k :
  id it <> k ->
  OMap.get (HybridSearchEngineCumulative.exactStep query nq m it) k = OMap.get m k.
Proof.
  intros N. destruct (exactStep_cases query nq m it) as [->|(r & _ & ->)];
    [reflexivity|].
  apply get_set_other. congruence.
Qed.

Lemma exactFold_get_other query nq l (m : OMap.t SearchResult) k :
  (forall b, In b l -> id b <> k) ->
  OMap.get (fold_left (HybridSearchEngineCumulative.exactStep query nq) l m) k
  = OMap.get m k.
Proof.
  revert m. induction l as [|b l IH]; intros m H; simpl; [reflexivity|].
  rewrite IH by (intros; apply H; now right).
  apply exactStep_get_other. apply H. now left.
Qed.

Lemma exactFold_get query nq l (m : OMap.t SearchResult) it :
  NoDup (List.map id l) -> In it l -> normalize_default (name it) = nq ->
  OMap.get (fold_left (HybridSearchEngineCumulative.exactStep query nq) l m) (id it)
  = Some (exactByName query it).
Proof.
  revert m. induction l as [|b l IH]; intros m Hn Hin E; [destruct Hin|].
  inversion_clear Hn as [|? ? Hb Hl]. simpl.
  destruct Hin as [->|Hin].
  - rewrite exactFold_get_other.
    + rewrite (exactStep_name query m it E). apply get_set_same.
    + intros c Hc Eq. apply Hb. rewrite <- Eq. now apply in_map.
  - now apply IH.
Qed.

Lemma fuzzyStep_keeps query (m : OMap.t SearchResult) fr k v :
  OMap.get m k = Some v -> HybridSearchEngineCumulative.isPartial v = false ->
  OMap.get (HybridSearchEngineCumulative.fuzzyStep query m fr) k = Some v.
Proof.
  intros G Hp. unfold HybridSearchEngineCumulative.fuzzyStep. cbv zeta.
  destruct (list_eq_dec N.eq_dec (id (fr_item fr)) k) as [E|E].
  - rewrite E, G, Hp. exact G.
  - match goal with |- OMap.get (if ?c then _ else _) _ = _ => destruct c end;
      [|exact G].
    rewrite get_set_other by congruence. exact G.
Qed.

Lemma partialStep_keeps nq (m : OMap.t SearchResult) it k v :
  OMap.get m k = Some v -> HybridSearchEngineCumulative.isPartial v = false ->
  OMap.get (HybridSearchEngineCumulative.partialStep nq m it) k = Some v.
Proof.
  intros G Hp. unfold HybridSearchEngineCumulative.partialStep. cbv zeta.
  destruct (list_eq_dec N.eq_dec (id it) k) as [E|E].
  - rewrite E, G, Hp. exact G.
  - match goal with |- OMap.get (if ?c then _ else _) _ = _ => destruct c end;
      [exact G|].
    destruct (partialScoreOf nq it) as [s ts].
    destruct (Qpositive s); [|exact G].
    rewrite get_set_other by congruence. exact G.
Qed.

Lemma get_In_values (V : Type) (m : OMap.t V) k v :
  OMap.get m k = Some v -> In v (OMap.values m).
Proof.
  intros G. apply OMapFacts.get_In in G. now apply (in_map snd) in G.
Qed.

Lemma limitAndSort_member rs options r :
  truthyZ (maxResults options) = false ->
  passesMinScore options r = true -> In r rs ->
  In r (limitAndSort rs options).
Proof.
  intros Hm Hp Hr. rewrite (limitAndSort_unlimited rs options Hm).
  apply arraySort_In. apply filter_In. auto.
Qed.

Lemma exact_nonempty_length items query nq :
  (exists it, In it items /\ exactMatchOf query nq it <> []) ->
  (0 <? length (List.flat_map (exactMatchOf query nq) items))%nat = true.
Proof.
  intros (it & Hit & Hne). apply Nat.ltb_lt.
  destruct (exactMatchOf query nq it) as [|r rs] eqn:E; [congruence|].
  assert (Hr : In r (List.flat_map (exactMatchOf query nq) items)).
  { apply in_flat_map. exists it. split; [exact Hit|]. rewrite E. now left. }
  destruct (List.flat_map (exactMatchOf query nq) items); [destruct Hr|simpl; lia].
Qed.

Lemma hasExactMatch_candidates (F : FuseLibrary) items query options :
  hasExactMatch items query ->
  hierarchicalCandidates (new items) query options
  = List.flat_map (exactMatchOf query (normalize_default query)) items.
Proof.
  intros (it & Hit & Hm). unfold hierarchicalCandidates. cbv zeta.
  unfold getExactMatches. simpl HybridSearchEngine.items.
  rewrite exact_nonempty_length; [reflexivity|].
  exists it. split; [exact Hit|]. now apply exactMatchOf_nonempty.
Qed.

(** *** Commuting [limitAndSort] with a change of the carried query *)

Lemma insertSorted_withQuery q x l :
  insertSorted byScoreDesc (withQuery q x) (List.map (withQuery q) l)
  = List.map (withQuery q) (insertSorted byScoreDesc x l).
Proof.
  induction l as [|y l IH]; [reflexivity|].
  cbn [List.map insertSorted].
  change (byScoreDesc (withQuery q x) (withQuery q y)) with (byScoreDesc x y).
  destruct (Qpositive (byScoreDesc x y)); [|reflexivity].
  cbn [List.map]. now rewrite IH.
Qed.

Lemma arraySort_withQuery q l :
  arraySort byScoreDesc (List.map (withQuery q) l)
  = List.map (withQuery q) (arraySort byScoreDesc l).
Proof.
  induction l as [|x l IH]; [reflexivity|].
  cbn [List.map arraySort fold_right].
  fold (arraySort byScoreDesc (List.map (withQuery q) l)).
  fold (arraySort byScoreDesc l).
  rewrite IH. apply insertSorted_withQuery.
Qed.

Lemma filter_withQuery q options l :
  List.filter (passesMinScore options) (List.map (withQuery q) l)
  = List.map (withQuery q) (List.filter (passesMinScore options) l).
Proof.
  induction l as [|x l IH]; [reflexivity|].
  cbn [List.map List.filter].
  change (passesMinScore options (withQuery q x)) with (passesMinScore options x).
  destruct (passesMinScore options x); cbn [List.map]; now rewrite IH.
Qed.

Lemma slice0_map (A B : Type) (f : A -> B) l k :
  slice0 (List.map f l) k = List.map f (slice0 l k).
Proof.
  unfold slice0. rewrite length_map. destruct (0 <=? k)%Z; apply firstn_map.
Qed.

Lemma limitAndSort_withQuery q options l :
  limitAndSort (List.map (withQuery q) l) options
  = List.map (withQuery q) (limitAndSort l options).
Proof.
  unfold limitAndSort. rewrite filter_withQuery, arraySort_withQuery.
  destruct (truthyZ (maxResults options)); [|reflexivity].
  destruct (maxResults options); [apply slice0_map|reflexivity].
Qed.

Lemma exactMatchOf_withQuery q1 q2 nq it :
  exactMatchOf q1 nq it = List.map (withQuery q1) (exactMatchOf q2 nq it).
Proof.
  unfold exactMatchOf.
  destruct (ustring_eqb _ _); [reflexivity|].
  destruct (ustring_eqb _ _); reflexivity.
Qed.

Lemma exactMatches_withQuery q1 q2 nq items :
  List.flat_map (exactMatchOf q1 nq) items
  = List.map (withQuery q1) (List.flat_map (exactMatchOf q2 nq) items).
Proof.
  induction items as [|it items IH]; [reflexivity|].
  cbn [List.flat_map]. rewrite map_app, <- IH.
  now rewrite (exactMatchOf_withQuery q1 q2).
Qed.

End EngineExtras.

Lemma search_ranked_sorted_cumulative
      (U : UnicodeTables) (F : FuseLibrary) items query options :
  nonIncreasing (HybridSearchEngineCumulative.search
                   (HybridSearchEngineCumulative.new items) query options).
Proof.
  rewrite search_cumulative_eq. destruct (isBlank query); [constructor|].
  apply limitAndSort_nonIncreasing.
Qed.

(** X3. Given that Fuse reports records of its collection, every result of
    a search, in either revision of the engine, is for an item of the
    catalog the engine holds. *)
Theorem search_results_come_from_catalog
        (U : UnicodeTables) (F : FuseLibrary)
        (items : list Searchable) (query : ustring) (options : SearchOptions) :
  fuseResultsOf items (fuseSearch items query) ->
  Forall (fun r => In (item r) items)
         (HybridSearchEngine.search (HybridSearchEngine.new items) query options)
  /\ Forall (fun r => In (item r) items)
            (HybridSearchEngineCumulative.search
               (HybridSearchEngineCumulative.new items) query options).
Proof.
  intros Hf. apply both_searches_Forall.
  - intros it r Hit Hr.
    apply exactMatchOf_In in Hr as [[-> _]|[-> _]]; exact Hit.
  - intros fr Hfr. simpl. eapply fuseResultsOf_In; eauto.
  - intros it r Hit Hr. apply partialMatchOf_In in Hr as (-> & _). exact Hit.
Qed.

Lemma search_results_come_from_catalog_witness :
  fuseResultsOf Examples.catalog
    (fuseSearch (FuseLibrary := Examples.latinFuse) Examples.catalog (u "zanaoria"))
  /\ Forall (fun r => In (item r) Examples.catalog)
       (HybridSearchEngine.search (U := Latin1.tables)
          (HybridSearchEngine.new (F := Examples.latinFuse) Examples.catalog)
          (u "zanaoria") defaultSearchOptions).
Proof.
  assert (Hfuse : fuseResultsOf Examples.catalog
            (fuseSearch (FuseLibrary := Examples.latinFuse)
                        Examples.catalog (u "zanaoria"))).
  { split; vm_compute; repeat constructor. intros []. }
  split; [exact Hfuse|].
  exact (proj1 (@search_results_come_from_catalog Latin1.tables Examples.latinFuse
                  Examples.catalog (u "zanaoria") defaultSearchOptions Hfuse)).
Defined.

(** X4. In either revision an exact or fuzzy result carries the query as
    typed, a partial result carries the normalised query. *)
Theorem search_results_carry_query
        (U : UnicodeTables) (F : FuseLibrary)
        (items : list Searchable) (query : ustring) (options : SearchOptions) :
  Forall (carriesQuery query)
         (HybridSearchEngine.search (HybridSearchEngine.new items) query options)
  /\ Forall (carriesQuery query)
            (HybridSearchEngineCumulative.search
               (HybridSearchEngineCumulative.new items) query options).
Proof.
  apply both_searches_Forall.
  - intros it r _ Hr. apply exactMatchOf_In in Hr as [[-> _]|[-> _]]; reflexivity.
  - intros fr _. reflexivity.
  - intros it r _ Hr. apply partialMatchOf_In in Hr as (_ & Hm & Hq & _).
    unfold carriesQuery. now rewrite Hm.
Qed.

Lemma exact_in_band (U : UnicodeTables) query nq it r :
  In r (HybridSearchEngine.exactMatchOf query nq it) -> scoreInBand r.
Proof.
  intros Hr. apply exactMatchOf_In in Hr as [[-> _]|[-> _]];
    unfold scoreInBand; simpl; auto.
Qed.

Lemma fuzzy_in_band query rs fr :
  fuseScoresNonneg rs -> In fr rs ->
  scoreInBand (HybridSearchEngine.fuzzyMatchOf query fr).
Proof.
  intros Hf Hfr. unfold scoreInBand. simpl.
  apply fuzzyScoreOf_band. unfold fuseScoresNonneg in Hf.
  rewrite Forall_forall in Hf. now apply Hf.
Qed.

Lemma partial_in_band (U : UnicodeTables) nq it r :
  In r (HybridSearchEngine.partialMatchOf nq it) -> scoreInBand r.
Proof.
  intros Hr. apply partialMatchOf_In in Hr as (_ & Hm & _ & Hs).
  unfold scoreInBand. now rewrite Hm.
Qed.

(** X5. With Fuse scores not negative, the score of a result is fixed by
    its tier in either revision: 1.0 or 0.95 for an exact match, between 0
    and 0.8 for a fuzzy one, 0.6 or 0.5 for a partial one; no result is
    tagged synonym. *)
Theorem search_scores_in_bands
        (U : UnicodeTables) (F : FuseLibrary)
        (items : list Searchable) (query : ustring) (options : SearchOptions) :
  fuseScoresNonneg (fuseSearch items query) ->
  Forall scoreInBand
         (HybridSearchEngine.search (HybridSearchEngine.new items) query options)
  /\ Forall scoreInBand
            (HybridSearchEngineCumulative.search
               (HybridSearchEngineCumulative.new items) query options).
Proof.
  intros Hf. apply both_searches_Forall.
  - intros it r _ Hr. eapply exact_in_band; eauto.
  - intros fr Hfr. eapply fuzzy_in_band; eauto.
  - intros it r _ Hr. eapply partial_in_band; eauto.
Qed.

Lemma search_scores_in_bands_witness :
  fuseScoresNonneg
    (fuseSearch (FuseLibrary := Examples.latinFuse) Examples.catalog (u "zanaoria"))
  /\ Forall scoreInBand
       (HybridSearchEngine.search (U := Latin1.tables)
          (HybridSearchEngine.new (F := Examples.latinFuse) Examples.catalog)
          (u "zanaoria") defaultSearchOptions).
Proof.
  assert (Hfuse : fuseScoresNonneg
            (fuseSearch (FuseLibrary := Examples.latinFuse)
                        Examples.catalog (u "zanaoria"))).
  { vm_compute. repeat constructor. intros s [= <-]. discriminate. }
  split; [exact Hfuse|].
  exact (proj1 (@search_scores_in_bands Latin1.tables Examples.latinFuse
                  Examples.catalog (u "zanaoria") defaultSearchOptions Hfuse)).
Defined.

(** X6. The hierarchical engine answers from one tier only: all the
    results of a search share their match type. *)
Theorem hierarchical_results_share_tier
        (U : UnicodeTables) (F : FuseLibrary)
        (items : list Searchable) (query : ustring) (options : SearchOptions)
        (r1 r2 : SearchResult) :
  let found := HybridSearchEngine.search (HybridSearchEngine.new items) query options in
  In r1 found -> In r2 found -> matchType r1 = matchType r2.
Proof.
  cbv zeta. rewrite search_hierarchical_eq.
  destruct (isBlank query); [intros []|].
  intros H1 H2. apply limitAndSort_In in H1 as [H1 _].
  apply limitAndSort_In in H2 as [H2 _].
  revert H1 H2. unfold hierarchicalCandidates. cbv zeta.
  assert (T : forall t (l : list SearchResult),
             Forall (fun r => matchType r = t) l ->
             In r1 l -> In r2 l -> matchType r1 = matchType r2).
  { intros t l Hl A B. rewrite Forall_forall in Hl.
    rewrite (Hl _ A), (Hl _ B). reflexivity. }
  destruct (0 <? length _)%nat.
  - apply (T mt_exact). apply Forall_forall. intros r Hr.
    apply in_flat_map in Hr as (it & _ & Hr).
    apply exactMatchOf_In in Hr as [[-> _]|[-> _]]; reflexivity.
  - destruct (0 <? length _)%nat.
    + apply (T mt_fuzzy). apply Forall_forall. intros r Hr.
      apply in_map_iff in Hr as (fr & <- & _). reflexivity.
    + apply (T mt_partial). apply Forall_forall. intros r Hr.
      apply in_flat_map in Hr as (it & _ & Hr).
      now apply partialMatchOf_In in Hr as (_ & Hm & _).
Qed.

Lemma hierarchical_results_share_tier_witness :
  let found := HybridSearchEngine.search (U := Latin1.tables)
                 (HybridSearchEngine.new (F := Examples.latinFuse) Examples.catalog)
                 (u "r") defaultSearchOptions in
  exists r1 r2, found = [r1; r2] /\ matchType r1 = matchType r2.
Proof.
  cbv zeta. eexists. eexists. split; [vm_compute; reflexivity|].
  apply (@hierarchical_results_share_tier Latin1.tables Examples.latinFuse
           Examples.catalog (u "r") defaultSearchOptions);
    vm_compute; auto.
Defined.

(** X7. When some item matches the normalised query exactly, by name or by
    category, the hierarchical engine does not consult Fuse: the answer is
    the same under any Fuse, and every result is an exact match. *)
Theorem exact_tier_ignores_fuse
        (U : UnicodeTables) (F1 F2 : FuseLibrary)
        (items : list Searchable) (query : ustring) (options : SearchOptions) :
  hasExactMatch items query ->
  HybridSearchEngine.search (HybridSearchEngine.new (F := F1) items) query options
  = HybridSearchEngine.search (HybridSearchEngine.new (F := F2) items) query options
  /\ Forall (fun r => matchType r = mt_exact)
            (HybridSearchEngine.search
               (HybridSearchEngine.new (F := F1) items) query options).
Proof.
  intros H. rewrite !search_hierarchical_eq.
  rewrite (hasExactMatch_candidates F1 options H),
          (hasExactMatch_candidates F2 options H).
  split; [reflexivity|].
  destruct (isBlank query); [constructor|].
  apply Forall_forall. intros r Hr. apply limitAndSort_In in Hr as [Hr _].
  apply in_flat_map in Hr as (it & _ & Hr).
  apply exactMatchOf_In in Hr as [[-> _]|[-> _]]; reflexivity.
Qed.

Lemma exact_tier_ignores_fuse_witness :
  hasExactMatch (U := Latin1.tables) Examples.catalog (u "FRUTAS")
  /\ HybridSearchEngine.search (U := Latin1.tables)
       (HybridSearchEngine.new (F := Examples.latinFuse) Examples.catalog)
       (u "FRUTAS") defaultSearchOptions
     = HybridSearchEngine.search (U := Latin1.tables)
         (HybridSearchEngine.new (F := {| fuseSearch := fun _ _ => [] |})
                                 Examples.catalog)
         (u "FRUTAS") defaultSearchOptions.
Proof.
  assert (H : hasExactMatch (U := Latin1.tables) Examples.catalog (u "FRUTAS")).
  { exists (Examples.mkItem "2" "Aguacate" "Frutas").
    split; [right; now left|right; reflexivity]. }
  split; [exact H|].
  exact (proj1 (@exact_tier_ignores_fuse Latin1.tables Examples.latinFuse
                  {| fuseSearch := fun _ _ => [] |}
                  Examples.catalog (u "FRUTAS") defaultSearchOptions H)).
Defined.

(** X8. An item whose normalised name equals the normalised query is
    returned as an exact match with score 1.0, its name as matched term:
    by the hierarchical engine always, by the cumulative one when item ids
    are distinct (no limit on the number of results, the score passing
    [minScore]). *)
Theorem exact_name_match_is_returned
        (U : UnicodeTables) (F : FuseLibrary)
        (items : list Searchable) (query : ustring) (options : SearchOptions)
        (it : Searchable) :
  isBlank query = false ->
  In it items ->
  normalize_default (name it) = normalize_default query ->
  truthyZ (maxResults options) = false ->
  HybridSearchEngine.passesMinScore options (exactByName query it) = true ->
  In (exactByName query it)
     (HybridSearchEngine.search (HybridSearchEngine.new items) query options)
  /\ (NoDup (List.map id items) ->
      In (exactByName query it)
         (HybridSearchEngineCumulative.search
            (HybridSearchEngineCumulative.new items) query options)).
Proof.
  intros Hb Hit En Hm Hp.
  rewrite search_hierarchical_eq, search_cumulative_eq, Hb.
  split.
  - apply limitAndSort_member; auto.
    rewrite (@hasExactMatch_candidates U F items query options)
      by (exists it; auto).
    apply in_flat_map. exists it. split; [exact Hit|].
    rewrite (exactMatchOf_name query it En). now left.
  - intros Hn. apply limitAndSort_member; auto.
    unfold cumulativeCandidates. cbv zeta.
    apply get_In_values with (k := id it).
    unfold HybridSearchEngineCumulative.partialSearch,
      HybridSearchEngineCumulative.fuzzySearch.
    apply (fold_left_invariant
             (fun m => OMap.get m (id it) = Some (exactByName query it)));
      [intros; now apply partialStep_keeps|].
    apply (fold_left_invariant
             (fun m => OMap.get m (id it) = Some (exactByName query it)));
      [intros; now apply fuzzyStep_keeps|].
    unfold HybridSearchEngineCumulative.exactSearch.
    now apply exactFold_get.
Qed.

Lemma exact_name_match_is_returned_witness :
  let it := Examples.mkItem "1" "Zanahoria" "Verduras" in
  (isBlank (u "ZANAHORIA") = false /\ In it Examples.catalog
   /\ normalize_default (U := Latin1.tables) (name it)
      = normalize_default (U := Latin1.tables) (u "ZANAHORIA")
   /\ truthyZ (maxResults defaultSearchOptions) = false
   /\ HybridSearchEngine.passesMinScore defaultSearchOptions
        (exactByName (u "ZANAHORIA") it) = true)
  /\ In (exactByName (u "ZANAHORIA") it)
        (HybridSearchEngine.search (U := Latin1.tables)
           (HybridSearchEngine.new (F := Examples.latinFuse) Examples.catalog)
           (u "ZANAHORIA") defaultSearchOptions).
Proof.
  cbv zeta.
  assert (Hin : In (Examples.mkItem "1" "Zanahoria" "Verduras") Examples.catalog)
    by now left.
  split; [repeat split; try reflexivity; exact Hin|].
  exact (proj1 (@exact_name_match_is_returned Latin1.tables Examples.latinFuse
                  Examples.catalog (u "ZANAHORIA") defaultSearchOptions
                  (Examples.mkItem "1" "Zanahoria" "Verduras")
                  eq_refl Hin eq_refl eq_refl eq_refl)).
Defined.

(** X9. With Fuse scores not negative, the cumulative engine ranks every
    exact match before every fuzzy or partial one. *)
Theorem cumulative_exact_matches_rank_first
        (U : UnicodeTables) (F : FuseLibrary)
        (items : list Searchable) (query : ustring) (options : SearchOptions)
        (before after : list SearchResult) (r1 r2 : SearchResult) :
  fuseScoresNonneg (fuseSearch items query) ->
  HybridSearchEngineCumulative.search
    (HybridSearchEngineCumulative.new items) query options
  = before ++ r1 :: after ->
  In r2 after -> matchType r2 = mt_exact -> matchType r1 = mt_exact.
Proof.
  intros Hf E H2 Hx.
  assert (B : Forall scoreInBand
                (HybridSearchEngineCumulative.search
                   (HybridSearchEngineCumulative.new items) query options)).
  { apply (both_searches_Forall (F := F) scoreInBand items query options).
    - intros it r _ Hr. eapply exact_in_band; eauto.
    - intros fr Hfr. eapply fuzzy_in_band; eauto.
    - intros it r _ Hr. eapply partial_in_band; eauto. }
  pose proof (@search_ranked_sorted_cumulative U F items query options) as S.
  rewrite E in B, S. rewrite Forall_forall in B.
  assert (B1 : scoreInBand r1) by (apply B, in_or_app; right; now left).
  assert (B2 : scoreInBand r2) by (apply B, in_or_app; right; now right).
  apply StronglySorted_split in S. rewrite Forall_forall in S.
  specialize (S r2 H2). simpl in S.
  unfold scoreInBand in B1, B2. rewrite Hx in B2.
  destruct (matchType r1); [reflexivity|destruct B1| |]; exfalso.
  - destruct B1 as [_ B1]. destruct B2 as [B2|B2]; rewrite B2 in S; lra.
  - destruct B1 as [B1|B1], B2 as [B2|B2]; rewrite B1, B2 in S; lra.
Qed.

Lemma cumulative_exact_matches_rank_first_witness :
  let found := HybridSearchEngineCumulative.search (U := Latin1.tables)
                 (HybridSearchEngineCumulative.new (F := Examples.latinFuse) fruits)
                 (u "frutas") defaultSearchOptions in
  fuseScoresNonneg (fuseSearch (FuseLibrary := Examples.latinFuse) fruits (u "frutas"))
  /\ exists r1 r2, found = [] ++ r1 :: [r2]
                   /\ matchType r2 = mt_exact /\ matchType r1 = mt_exact.
Proof.
  cbv zeta.
  assert (Hf : fuseScoresNonneg
                 (fuseSearch (FuseLibrary := Examples.latinFuse) fruits (u "frutas")))
    by (vm_compute; constructor).
  split; [exact Hf|].
  eexists. eexists.
  assert (E : HybridSearchEngineCumulative.search (U := Latin1.tables)
                (HybridSearchEngineCumulative.new (F := Examples.latinFuse) fruits)
                (u "frutas") defaultSearchOptions
              = [] ++ exactByCategory (u "frutas") (Examples.mkItem "1" "Pera" "Frutas")
                   :: [exactByCategory (u "frutas")
                                       (Examples.mkItem "2" "Aguacate" "Frutas")])
    by (vm_compute; reflexivity).
  split; [exact E|]. split; [reflexivity|].
  exact (@cumulative_exact_matches_rank_first Latin1.tables Examples.latinFuse
           fruits (u "frutas") defaultSearchOptions [] _ _ _ Hf E
           (or_introl eq_refl) eq_refl).
Defined.

(** X10. Over an empty catalog every search is empty, in either revision,
    for every query and every option set (Fuse reporting only records of
    its collection). *)
Theorem search_empty_catalog
        (U : UnicodeTables) (F : FuseLibrary)
        (query : ustring) (options : SearchOptions) :
  fuseResultsOf [] (fuseSearch [] query) ->
  HybridSearchEngine.search (HybridSearchEngine.new []) query options = []
  /\ HybridSearchEngineCumulative.search
       (HybridSearchEngineCumulative.new []) query options = [].
Proof.
  intros [_ Hf].
  assert (E : fuseSearch [] query = []).
  { destruct (fuseSearch [] query) as [|fr rs]; [reflexivity|].
    inversion Hf as [|? ? Hfr _]. destruct (refIndex fr); discriminate. }
  rewrite search_hierarchical_eq, search_cumulative_eq.
  destruct (isBlank query); [split; reflexivity|].
  unfold hierarchicalCandidates, cumulativeCandidates. cbv zeta.
  unfold HybridSearchEngine.getFuzzyMatches,
    HybridSearchEngineCumulative.partialSearch,
    HybridSearchEngineCumulative.fuzzySearch,
    HybridSearchEngineCumulative.exactSearch.
  simpl HybridSearchEngine.fuse. simpl HybridSearchEngineCumulative.fuse.
  rewrite E. simpl. unfold HybridSearchEngine.limitAndSort. simpl.
  destruct (truthyZ (maxResults options)); [|split; reflexivity].
  destruct (maxResults options) as [k|]; [|split; reflexivity].
  unfold slice0. rewrite !firstn_nil. now destruct (0 <=? k)%Z.
Qed.

Lemma search_empty_catalog_witness :
  fuseResultsOf [] (fuseSearch (FuseLibrary := Examples.latinFuse) [] (u "palta"))
  /\ HybridSearchEngine.search (U := Latin1.tables)
       (HybridSearchEngine.new (F := Examples.latinFuse) []) (u "palta")
       defaultSearchOptions = [].
Proof.
  assert (Hf : fuseResultsOf []
                 (fuseSearch (FuseLibrary := Examples.latinFuse) [] (u "palta")))
    by (split; constructor).
  split; [exact Hf|].
  exact (proj1 (@search_empty_catalog Latin1.tables Examples.latinFuse
                  (u "palta") defaultSearchOptions Hf)).
Defined.

(** X11. When an item matches exactly, the hierarchical engine depends on
    the query only through its normalised form: two queries that are not
    blank and normalise alike get the same items, scores, match types and
    matched terms. *)
Theorem exact_tier_sees_normalised_query
        (U : UnicodeTables) (F : FuseLibrary)
        (items : list Searchable) (query1 query2 : ustring)
        (options : SearchOptions) :
  isBlank query1 = false -> isBlank query2 = false ->
  normalize_default query1 = normalize_default query2 ->
  hasExactMatch items query1 ->
  List.map resultCore
    (HybridSearchEngine.search (HybridSearchEngine.new items) query1 options)
  = List.map resultCore
      (HybridSearchEngine.search (HybridSearchEngine.new items) query2 options).
Proof.
  intros B1 B2 En H1.
  assert (H2 : hasExactMatch items query2).
  { destruct H1 as (it & Hit & Hm). exists it. rewrite <- En. auto. }
  rewrite !search_hierarchical_eq, B1, B2.
  rewrite (hasExactMatch_candidates F options H1),
          (hasExactMatch_candidates F options H2), <- En.
  rewrite (exactMatches_withQuery query1 query2), limitAndSort_withQuery.
  rewrite map_map. apply map_ext. reflexivity.
Qed.

Lemma exact_tier_sees_normalised_query_witness :
  (isBlank (u " Zanahoría! ") = false /\ isBlank (u "zanahoria") = false
   /\ normalize_default (U := Latin1.tables) (u " Zanahoría! ")
      = normalize_default (U := Latin1.tables) (u "zanahoria")
   /\ hasExactMatch (U := Latin1.tables) Examples.catalog (u " Zanahoría! "))
  /\ List.map resultCore
       (HybridSearchEngine.search (U := Latin1.tables)
          (HybridSearchEngine.new (F := Examples.latinFuse) Examples.catalog)
          (u " Zanahoría! ") defaultSearchOptions)
     = List.map resultCore
         (HybridSearchEngine.search (U := Latin1.tables)
            (HybridSearchEngine.new (F := Examples.latinFuse) Examples.catalog)
            (u "zanahoria") defaultSearchOptions).
Proof.
  assert (H : hasExactMatch (U := Latin1.tables) Examples.catalog (u " Zanahoría! ")).
  { exists (Examples.mkItem "1" "Zanahoria" "Verduras").
    split; [now left|left; reflexivity]. }
  split; [repeat split; try reflexivity; exact H|].
  exact (@exact_tier_sees_normalised_query Latin1.tables Examples.latinFuse
           Examples.catalog (u " Zanahoría! ") (u "zanahoria")
           defaultSearchOptions eq_refl eq_refl eq_refl H).
Defined.

(** X12. A query that is not blank but normalises to the empty string (one
    made of punctuation only) matches every item without a category: when
    the name of such an item does not normalise to the empty string, no
    result limit is set and the record passes the minimum score, the
    hierarchical engine returns the item as an exact match on its
    category, score 0.95, with the empty string as matched term. *)
Theorem punctuation_query_matches_uncategorised_items
        (U : UnicodeTables) (F : FuseLibrary)
        (items : list Searchable) (query : ustring) (options : SearchOptions)
        (it : Searchable) :
  isBlank query = false ->
  normalize_default query = [] ->
  In it items ->
  category it = None ->
  normalize_default (name it) <> [] ->
  truthyZ (maxResults options) = false ->
  HybridSearchEngine.passesMinScore options (exactByCategory query it) = true ->
  In (exactByCategory query it)
     (HybridSearchEngine.search (HybridSearchEngine.new items) query options)
  /\ matchedTerms (exactByCategory query it) = [[]].
Proof.
  intros Hb En Hit Hc Hname Hm Hp.
  assert (Ec : normalize_default (categoryOrEmpty it) = normalize_default query).
  { unfold categoryOrEmpty. rewrite Hc, En. reflexivity. }
  split; [|unfold exactByCategory, categoryOrEmpty; now rewrite Hc].
  rewrite search_hierarchical_eq, Hb.
  apply limitAndSort_member; auto.
  rewrite (@hasExactMatch_candidates U F items query options)
    by (exists it; auto).
  apply in_flat_map. exists it. split; [exact Hit|].
  unfold HybridSearchEngine.exactMatchOf.
  rewrite En in *.
  apply ustring_eqb_neq in Hname. rewrite Hname.
  apply ustring_eqb_eq in Ec. rewrite Ec. now left.
Qed.

Lemma punctuation_query_matches_uncategorised_items_witness :
  (isBlank (u "?!") = false
   /\ normalize_default (U := Latin1.tables) (u "?!") = []
   /\ In uncategorised (Examples.catalog ++ [uncategorised])
   /\ category uncategorised = None
   /\ normalize_default (U := Latin1.tables) (name uncategorised) <> [])
  /\ In (exactByCategory (u "?!") uncategorised)
        (HybridSearchEngine.search (U := Latin1.tables)
           (HybridSearchEngine.new (F := Examples.latinFuse)
                                   (Examples.catalog ++ [uncategorised]))
           (u "?!") defaultSearchOptions).
Proof.
  assert (Hin : In uncategorised (Examples.catalog ++ [uncategorised]))
    by (apply in_or_app; right; now left).
  assert (Hn : normalize_default (U := Latin1.tables) (name uncategorised) <> [])
    by (vm_compute; discriminate).
  split; [repeat split; try reflexivity; assumption|].
  exact (proj1 (@punctuation_query_matches_uncategorised_items
                  Latin1.tables Examples.latinFuse
                  (Examples.catalog ++ [uncategorised]) (u "?!")
                  defaultSearchOptions uncategorised
                  eq_refl eq_refl Hin eq_refl Hn eq_refl eq_refl)).
Defined.

(* ------------------------------------------------------------------ *)
(** ** SynonymMatchStrategy.findMatches *)

Section StrategyExtras.
Context {U : UnicodeTables}.
Import SynonymService SynonymMatchStrategy.

Lemma updateFirst_map (A B : Type) (g : A -> B) (p : A -> bool) (f : A -> A) l :
  (forall x, g (f x) = g x) -> List.map g (updateFirst p f l) = List.map g l.
Proof.
  intros H. induction l as [|x l IH]; simpl; [reflexivity|].
  destruct (p x); simpl; [now rewrite H|now rewrite IH].
Qed.

Lemma updateFirst_In (A : Type) (p : A -> bool) (f : A -> A) l y :
  In y (updateFirst p f l) -> In y l \/ exists x, In x l /\ y = f x.
Proof.
  induction l as [|x l IH]; simpl; [tauto|].
  destruct (p x); simpl.
  - intros [<-|H]; [right; eauto|auto].
  - intros [<-|H]; [auto|].
    destruct (IH H) as [?|(z & ? & ?)]; [auto|right; eauto].
Qed.

Lemma itemStep_ids_NoDup query sm cn results it :
  NoDup (List.map resultId results) ->
  NoDup (List.map resultId (itemStep query sm cn results it)).
Proof.
  intros H. unfold itemStep.
  destruct (scoreAgainst sm cn it) as [[s|] ts]; [|exact H].
  destruct (Qpositive s); [|exact H].
  destruct (arrayFind (sameItem it) results) as [existing|] eqn:Ef.
  - destruct (Qlt_bool _ _); [|exact H].
    rewrite updateFirst_map; [exact H|reflexivity].
  - rewrite map_app. simpl.
    apply NoDup_app; [exact H|repeat constructor; intros []|].
    intros k Hk [<-|[]]. unfold arrayFind in Ef.
    apply in_map_iff in Hk as (r & Er & Hr).
    pose proof (find_none _ _ Ef r Hr) as Hs. unfold sameItem in Hs.
    apply ustring_eqb_neq in Hs. apply Hs. exact Er.
Qed.

Lemma findMatches_fold_invariant (P : list SearchResult -> Prop)
      service items query :
  P [] ->
  (forall sm results it,
      In sm (findSynonyms service query) -> In it items -> P results ->
      P (itemStep query sm
                  match canonicalTerm sm with
                  | Some canonicalTerm => normalize_default canonicalTerm
                  | None => []
                  end results it)) ->
  P (fold_left (synonymStep items query) (findSynonyms service query) []).
Proof.
  intros H0 Hs.
  apply (fold_left_invariant_In P); [|exact H0].
  intros results sm Hsm Hr. unfold synonymStep.
  apply (fold_left_invariant_In P); [|exact Hr].
  intros rs it Hit Hrs. now apply Hs.
Qed.

Lemma findMatches_In service items query nq r :
  In r (findMatches service items query nq) ->
  In r (fold_left (synonymStep items query) (findSynonyms service query) []).
Proof.
  unfold findMatches. cbv zeta.
  destruct (length _ =? 0)%nat; [intros []|].
  apply arraySort_In.
Qed.

(** Bounds of the two ratios of the scoring formulas. *)
Lemma lengthQ_nonneg s : 0 <= lengthQ s.
Proof.
  unfold lengthQ. change 0 with (inject_Z 0). rewrite <- Zle_Qle. lia.
Qed.

Lemma ratio_bounds (a b : Q) : 0 <= a -> a <= b -> 0 <= a / b /\ a / b <= 1.
Proof.
  intros Ha Hab.
  destruct (Qlt_le_dec 0 b) as [Hb|Hb].
  - split.
    + apply Qle_shift_div_l; [exact Hb|lra].
    + apply Qle_shift_div_r; [exact Hb|lra].
  - assert (Eb : b == 0) by lra.
    assert (E : a / b == 0).
    { unfold Qdiv. rewrite Eb. unfold Qinv. simpl. ring. }
    rewrite E. split; lra.
Qed.

Lemma startsWith_length s p : startsWith s p = true -> (length p <= length s)%nat.
Proof.
  revert s. induction p as [|a p IH]; intros s; simpl; [lia|].
  destruct s as [|b s]; [discriminate|].
  intros H. apply andb_prop in H as [_ H]. apply IH in H. simpl. lia.
Qed.

Lemma indexOf_bound s p i :
  indexOf s p = Some i -> (i + length p <= length s)%nat.
Proof.
  revert i. induction s as [|c s IH]; intros i.
  - cbn [indexOf]. destruct (startsWith [] p) eqn:E.
    + intros [= <-]. apply startsWith_length in E. simpl in *. lia.
    + discriminate.
  - cbn [indexOf]. destruct (startsWith (c :: s) p) eqn:E.
    + intros [= <-]. apply startsWith_length in E. lia.
    + destruct (indexOf s p) as [j|] eqn:Ej; [|discriminate].
      intros [= <-]. specialize (IH j eq_refl). simpl. lia.
Qed.

Lemma lengthQ_le s t : (length s <= length t)%nat -> lengthQ s <= lengthQ t.
Proof. intros H. unfold lengthQ. rewrite <- Zle_Qle. lia. Qed.

Lemma scoreAgainst_bound sm cn it c s :
  sm_confidence sm = Some c -> 0 <= c ->
  fst (scoreAgainst sm cn it) = Some s -> s <= c * 0.95.
Proof.
  intros Esm Hc. unfold scoreAgainst. cbv zeta. rewrite Esm.
  set (n := normalize_default (name it)).
  destruct (ustring_eqb n cn); [simpl; intros [= <-]; lra|].
  destruct (startsWith n cn) eqn:Es.
  { simpl. intros [= <-]. apply startsWith_length in Es.
    destruct (ratio_bounds (lengthQ_nonneg cn) (lengthQ_le _ _ Es)) as [R0 R1].
    set (ratio := lengthQ cn / lengthQ n) in *. nra. }
  destruct ((4 <=? length cn)%nat && includes n cn) eqn:Ei.
  { simpl. intros [= <-]. apply andb_prop in Ei as [_ Ei]. unfold includes in Ei.
    destruct (indexOf n cn) as [i|] eqn:Ex; [|discriminate].
    apply indexOf_bound in Ex.
    assert (Hcn : (length cn <= length n)%nat) by lia.
    assert (Hi : (i <= length n)%nat) by lia.
    destruct (ratio_bounds (lengthQ_nonneg cn) (lengthQ_le _ _ Hcn)) as [R0 R1].
    assert (P0 : 0 <= inject_Z (Z.of_nat i)).
    { change 0 with (inject_Z 0). rewrite <- Zle_Qle. lia. }
    assert (P1 : inject_Z (Z.of_nat i) <= lengthQ n).
    { unfold lengthQ. rewrite <- Zle_Qle. lia. }
    destruct (ratio_bounds P0 P1) as [S0 S1].
    set (ratio := lengthQ cn / lengthQ n) in *.
    set (pen := inject_Z (Z.of_nat i) / lengthQ n) in *.
    assert (A : 0 <= c * (0.7 + ratio * 0.15)) by nra.
    assert (B : c * (0.7 + ratio * 0.15) <= c * 0.85) by nra.
    assert (C : 1 - pen * 0.3 <= 1) by lra.
    assert (D : 0 <= 1 - pen * 0.3) by lra.
    nra. }
  destruct (ustring_eqb _ cn); simpl; intros [= <-]; lra.
Qed.

(** A match without a confidence adds no result: its scores are [NaN], or
    the 0 of an item that does not match. *)
Lemma itemStep_undefined query sm cn results it :
  sm_confidence sm = None -> itemStep query sm cn results it = results.
Proof.
  intros Esm. unfold itemStep, scoreAgainst. cbv zeta. rewrite Esm.
  destruct (ustring_eqb _ cn); [reflexivity|].
  destruct (startsWith _ cn); [reflexivity|].
  destruct (_ && _); [reflexivity|].
  destruct (ustring_eqb _ cn); reflexivity.
Qed.

Lemma synonymStep_undefined items query results sm :
  sm_confidence sm = None -> synonymStep items query results sm = results.
Proof.
  intros Esm. unfold synonymStep. cbv zeta.
  generalize (match canonicalTerm sm with
              | Some canonicalTerm => normalize_default canonicalTerm
              | None => []
              end).
  intros cn. revert results.
  induction items as [|it items IH]; intros results; [reflexivity|].
  cbn [fold_left]. now rewrite (itemStep_undefined _ _ _ _ _ Esm).
Qed.

End StrategyExtras.

(** X13. The synonym strategy returns at most one result per item id,
    whatever the catalog (items repeated or not) and whatever the index. *)
Theorem findMatches_no_duplicate_ids
        (U : UnicodeTables) (service : SynonymService.t)
        (items : list Searchable) (query normalizedQuery : ustring) :
  NoDup (List.map resultId
           (SynonymMatchStrategy.findMatches service items query normalizedQuery)).
Proof.
  unfold SynonymMatchStrategy.findMatches. cbv zeta.
  destruct (length _ =? 0)%nat; [constructor|].
  eapply Permutation_NoDup; [apply Permutation_map, arraySort_perm|].
  apply (findMatches_fold_invariant
           (fun rs => NoDup (List.map resultId rs))); [constructor|].
  intros. now apply itemStep_ids_NoDup.
Qed.

(** X14. The results of the synonym strategy are in non-increasing order of
    score; each is for an item of the given list, has a positive score, is
    tagged partial and carries the query as typed. *)
Theorem findMatches_results_well_formed
        (U : UnicodeTables) (service : SynonymService.t)
        (items : list Searchable) (query normalizedQuery : ustring) :
  let found := SynonymMatchStrategy.findMatches service items query normalizedQuery in
  nonIncreasing found
  /\ Forall (fun r => In (item r) items /\ 0 < score r
                      /\ matchType r = mt_partial /\ originalQuery r = query) found.
Proof.
  cbv zeta. split.
  - unfold SynonymMatchStrategy.findMatches. cbv zeta.
    destruct (length _ =? 0)%nat; [constructor|apply arraySort_nonIncreasing].
  - apply Forall_forall. intros r Hr. apply findMatches_In in Hr. revert r Hr.
    apply Forall_forall.
    apply (findMatches_fold_invariant
             (fun rs => Forall (fun r => In (item r) items /\ 0 < score r
                                         /\ matchType r = mt_partial
                                         /\ originalQuery r = query) rs));
      [constructor|].
    intros sm results it _ Hit H. unfold SynonymMatchStrategy.itemStep.
    destruct (SynonymMatchStrategy.scoreAgainst sm _ it) as [[s|] ts]; [|exact H].
    destruct (Qpositive s) eqn:Ep; [|exact H].
    apply Qpositive_true in Ep.
    destruct (arrayFind _ _) as [existing|].
    + destruct (Qlt_bool _ _); [|exact H].
      apply updateFirst_Forall; [|exact H].
      intros x (A & _ & C & D). simpl. auto.
    + apply Forall_app. split; [exact H|]. repeat constructor; simpl; auto.
Qed.

(** X15. The synonym strategy returns nothing for a blank query and for a
    query whose normalised form is not a key of the index. *)
Theorem findMatches_without_synonym
        (U : UnicodeTables) (service : SynonymService.t)
        (items : list Searchable) (query normalizedQuery : ustring) :
  isBlank query = true
  \/ OMap.get (SynonymService.index service) (normalize_default query) = None ->
  SynonymMatchStrategy.findMatches service items query normalizedQuery = [].
Proof.
  intros H. unfold SynonymMatchStrategy.findMatches. cbv zeta.
  destruct (isBlank query) eqn:B.
  - unfold SynonymService.findSynonyms. now rewrite B.
  - destruct H as [H|H]; [discriminate|].
    rewrite (findSynonyms_lookup service query B), (readProperty_None _ _ H).
    destruct (SynonymService.isPrototypeMember _); [|reflexivity].
    simpl length. simpl (1 =? 0)%nat. cbv iota. cbn [fold_left].
    now rewrite synonymStep_undefined.
Qed.

Lemma findMatches_without_synonym_witness :
  OMap.get (SynonymService.index Examples.shippedService)
           (normalize_default (U := Latin1.tables) (u "brócoli")) = None
  /\ SynonymMatchStrategy.findMatches (U := Latin1.tables)
       Examples.shippedService Examples.catalog (u "brócoli") (u "brocoli") = [].
Proof.
  split; [vm_compute; reflexivity|].
  apply (@findMatches_without_synonym Latin1.tables Examples.shippedService
           Examples.catalog (u "brócoli") (u "brocoli")).
  right. vm_compute. reflexivity.
Defined.

(** X16. When the query resolves to an index entry of confidence c >= 0,
    every result of the synonym strategy scores at most c * 0.95 (the
    score of an exact hit on the canonical term) and lists the note
    "query → canonical term" among its matched terms. *)
Theorem findMatches_score_bound_and_note
        (U : UnicodeTables) (service : SynonymService.t)
        (items : list Searchable) (query normalizedQuery : ustring)
        (entry : SynonymEntry) :
  OMap.get (SynonymService.index service) (normalize_default query) = Some entry ->
  0 <= confidence entry ->
  Forall (fun r => score r <= confidence entry * 0.95
                   /\ In (query ++ [0x20; 0x2192; 0x20]%N ++ canonical entry)
                         (matchedTerms r))
         (SynonymMatchStrategy.findMatches service items query normalizedQuery).
Proof.
  intros G Hc. apply Forall_forall. intros r Hr. apply findMatches_In in Hr.
  revert r Hr. apply Forall_forall.
  destruct (isBlank query) eqn:B.
  { unfold SynonymService.findSynonyms. rewrite B. constructor. }
  rewrite (findSynonyms_lookup service query B), (readProperty_own _ _ G).
  cbn [fold_left]. unfold SynonymMatchStrategy.synonymStep.
  cbn [SynonymService.canonicalTerm matchOfEntry].
  apply fold_left_invariant; [|constructor].
  intros results it H. unfold SynonymMatchStrategy.itemStep.
  pose proof (@scoreAgainst_bound U (matchOfEntry query entry)
                (normalize_default (canonical entry))
                it (confidence entry)) as Hb.
  destruct (SynonymMatchStrategy.scoreAgainst _ _ it) as [[s|] ts]; [|exact H].
  specialize (Hb s eq_refl Hc eq_refl).
  destruct (Qpositive s); [|exact H].
  destruct (arrayFind _ _) as [existing|].
  - destruct (Qlt_bool _ _); [|exact H].
    apply updateFirst_Forall; [|exact H].
    intros x [_ Hx]. simpl. split; [exact Hb|].
    apply in_or_app. now left.
  - apply Forall_app. split; [exact H|]. repeat constructor; simpl; [exact Hb|].
    apply in_or_app. right. now left.
Qed.

Lemma findMatches_score_bound_and_note_witness :
  let entry := {| canonical := u "aguacate"; productId := u "temp_aguacate";
                  confidence := 0.9;
                  regionInfo := Some {| region := u "AR"; country := u "Argentina";
                                        language := Some (u "es") |} |} in
  (OMap.get (SynonymService.index Examples.aguacateService)
            (normalize_default (U := Latin1.tables) (u "Palta")) = Some entry
   /\ 0 <= confidence entry)
  /\ Forall (fun r => score r <= 0.9 * 0.95
                      /\ In (u "Palta → aguacate") (matchedTerms r))
            (SynonymMatchStrategy.findMatches (U := Latin1.tables)
               Examples.aguacateService Examples.catalog (u "Palta") (u "palta")).
Proof.
  cbv zeta.
  assert (Hc : 0 <= 0.9) by (unfold Qle; simpl; lia).
  split; [split; [reflexivity|exact Hc]|].
  exact (@findMatches_score_bound_and_note Latin1.tables Examples.aguacateService
           Examples.catalog (u "Palta") (u "palta") _ eq_refl Hc).
Defined.

(* ------------------------------------------------------------------ *)
(** ** buildSearchIndex *)

Section BuildExtras.
Context {U : UnicodeTables}.

Lemma addSynonym_fold_None canonical productId syns :
  fold_left (addSynonym canonical productId) syns None = None.
Proof.
  induction syns as [|[s rs] syns IH]; simpl; [reflexivity|exact IH].
Qed.

Lemma addSynonym_step canonical productId idx s r rs :
  addSynonym canonical productId (Some idx) (s, r :: rs)
  = Some (OMap.set idx (toLowerCase s)
            {| canonical := canonical; productId := productId; confidence := 0.9;
               regionInfo := Some {| region := r; country := getCountryName r;
                                     language := Some (if (length r =? 2)%nat
                                                       then u "es" else u "en") |} |}).
Proof. reflexivity. Qed.

(** The inner loop, with what it maintains. *)
Lemma addSynonym_fold canonical productId syns idx :
  (Forall (fun s => snd s <> []) syns ->
   exists idx', fold_left (addSynonym canonical productId) syns (Some idx) = Some idx')
  /\ (forall idx',
        fold_left (addSynonym canonical productId) syns (Some idx) = Some idx' ->
        Forall (fun s => snd s <> []) syns
        /\ (NoDup (OMap.keys idx) -> NoDup (OMap.keys idx'))
        /\ (forall k, In k (OMap.keys idx') <->
                      In k (OMap.keys idx)
                      \/ In k (List.map toLowerCase (List.map fst syns)))
        /\ (forall P : SynonymEntry -> Prop,
              Forall P (OMap.values idx) ->
              (forall r, P {| canonical := canonical; productId := productId;
                              confidence := 0.9;
                              regionInfo :=
                                Some {| region := r; country := getCountryName r;
                                        language := Some (if (length r =? 2)%nat
                                                          then u "es" else u "en") |} |}) ->
              Forall P (OMap.values idx'))).
Proof.
  revert idx. induction syns as [|[s rs] syns IH]; intros idx.
  - simpl. split; [eauto|]. intros idx' [= <-].
    repeat split; auto; simpl; tauto.
  - destruct rs as [|r rs].
    + cbn [fold_left]. change (addSynonym canonical productId (Some idx) (s, []))
        with (@None (OMap.t SynonymEntry)).
      rewrite addSynonym_fold_None. split.
      * intros H. inversion H as [|? ? Hs _]. now destruct Hs.
      * discriminate.
    + cbn [fold_left]. rewrite addSynonym_step.
      destruct (IH (OMap.set idx (toLowerCase s)
            {| canonical := canonical; productId := productId; confidence := 0.9;
               regionInfo := Some {| region := r; country := getCountryName r;
                                     language := Some (if (length r =? 2)%nat
                                                       then u "es" else u "en") |} |}))
        as [IH1 IH2].
      split.
      * intros H. inversion H; subst. auto.
      * intros idx' E. destruct (IH2 idx' E) as (A & B & C & D).
        split; [constructor; [discriminate|exact A]|].
        split; [intros Hn; apply B; now apply OMapFacts.set_keys_NoDup|].
        split.
        -- intros k. rewrite C. simpl. split.
           ++ intros [H|H]; [|auto].
              apply OMapFacts.set_keys_In in H as [->|H]; auto.
           ++ intros [H|[<-|H]]; [left; now apply set_keys_incl
                                  |left; apply set_keys_new|auto].
        -- intros P HP Hnew. apply D; [|exact Hnew].
           apply Forall_forall. intros x Hx. unfold OMap.values in Hx.
           apply in_map_iff in Hx as ([k v] & <- & He).
           apply OMapFacts.set_In in He as [Eq|He]; [inversion Eq; apply Hnew|].
           rewrite Forall_forall in HP. apply HP.
           now apply (in_map snd) in He.
Qed.

Lemma addGroup_fold_None data :
  fold_left addGroup data None = None.
Proof. induction data as [|[c g] data IH]; simpl; [reflexivity|exact IH]. Qed.

Lemma addGroup_step db c g :
  addGroup (Some db) (c, g)
  = match fold_left (addSynonym c (groupProductId c g)) (g_synonyms g)
            (Some (OMap.set (searchIndex db) (toLowerCase c)
                     {| canonical := c; productId := groupProductId c g;
                        confidence := 1.0; regionInfo := None |})) with
    | None => None
    | Some idx =>
      Some {| searchIndex := idx;
              metadata := OMap.set (metadata db) (groupProductId c g)
                            {| m_canonical := c; m_regions := g_synonyms g |} |}
    end.
Proof. reflexivity. Qed.

(** The outer loop, from any database reached so far. *)
Lemma addGroup_fold data db :
  (regionsListed data -> exists db', fold_left addGroup data (Some db) = Some db')
  /\ (forall db',
        fold_left addGroup data (Some db) = Some db' ->
        regionsListed data
        /\ (NoDup (OMap.keys (searchIndex db)) -> NoDup (OMap.keys (searchIndex db')))
        /\ (forall k, In k (OMap.keys (searchIndex db')) <->
                      In k (OMap.keys (searchIndex db))
                      \/ In k (List.map toLowerCase (termsOf data)))
        /\ (forall P : ustring -> SynonymEntry -> Prop,
              Forall (fun e => exists c, P c e) (OMap.values (searchIndex db)) ->
              (forall c g, In (c, g) data ->
                           P c {| canonical := c; productId := groupProductId c g;
                                  confidence := 1.0; regionInfo := None |}) ->
              (forall c g r, In (c, g) data ->
                 P c {| canonical := c; productId := groupProductId c g;
                        confidence := 0.9;
                        regionInfo :=
                          Some {| region := r; country := getCountryName r;
                                  language := Some (if (length r =? 2)%nat
                                                    then u "es" else u "en") |} |}) ->
              Forall (fun e => exists c, P c e) (OMap.values (searchIndex db')))).
Proof.
  unfold regionsListed.
  revert db. induction data as [|[c g] data IH]; intros db.
  - simpl. split; [eauto|]. intros db' [= <-].
    repeat split; auto; simpl; tauto.
  - cbn [fold_left]. rewrite addGroup_step.
    set (idx0 := OMap.set (searchIndex db) (toLowerCase c)
                   {| canonical := c; productId := groupProductId c g;
                      confidence := 1.0; regionInfo := None |}).
    destruct (addSynonym_fold c (groupProductId c g) (g_synonyms g) idx0)
      as [S1 S2].
    destruct (fold_left (addSynonym c (groupProductId c g)) (g_synonyms g) (Some idx0))
      as [idx1|] eqn:E1.
    + destruct (S2 idx1 eq_refl) as (A & B & C & D).
      set (db1 := {| searchIndex := idx1;
                     metadata := OMap.set (metadata db) (groupProductId c g)
                                   {| m_canonical := c; m_regions := g_synonyms g |} |}).
      destruct (IH db1) as [IH1 IH2].
      split.
      * intros H. inversion H; subst. auto.
      * intros db' E. destruct (IH2 db' E) as (A' & B' & C' & D').
        split; [constructor; assumption|].
        split; [intros Hn; apply B', B; now apply OMapFacts.set_keys_NoDup|].
        split.
        -- intros k. rewrite C'. simpl searchIndex. rewrite C.
           cbn [termsOf List.flat_map fst snd]. rewrite map_app. cbn [List.map].
           rewrite in_app_iff. simpl In. unfold idx0. split.
           ++ intros [[H|H]|H]; auto.
              apply OMapFacts.set_keys_In in H as [->|H]; auto.
           ++ intros [H|[[<-|H]|H]]; auto.
              ** left. left. now apply set_keys_incl.
              ** left. left. apply set_keys_new.
        -- intros P HP Hc Hs. apply D'.
           ++ simpl searchIndex. apply D.
              ** unfold idx0. apply Forall_forall. intros x Hx.
                 unfold OMap.values in Hx.
                 apply in_map_iff in Hx as ([k v] & <- & He).
                 apply OMapFacts.set_In in He as [Eq|He].
                 { inversion Eq. exists c. apply (Hc c g). now left. }
                 rewrite Forall_forall in HP. apply HP.
                 now apply (in_map snd) in He.
              ** intros r. exists c. apply (Hs c g r). now left.
           ++ intros c' g' Hin. apply Hc. now right.
           ++ intros c' g' r Hin. apply Hs. now right.
    + rewrite addGroup_fold_None. split; [|discriminate].
      intros H. inversion H as [|? ? Hg _]; subst.
      destruct (S1 Hg) as [? ?]. discriminate.
Qed.

End BuildExtras.

(** X17. [buildSearchIndex] over a vocabulary completes exactly when every
    synonym lists at least one region; a synonym with an empty region list
    makes it throw. *)
Theorem buildSearchIndex_completes_iff_regions_listed
        (U : UnicodeTables) (data : OMap.t SynonymGroup) :
  (exists db, buildSearchIndexFrom data = Some db) <-> regionsListed data.
Proof.
  unfold buildSearchIndexFrom, OMap.entries.
  destruct (addGroup_fold data {| searchIndex := OMap.empty; metadata := OMap.empty |})
    as [H1 H2].
  split; [|exact H1].
  intros [db E]. now destruct (H2 db E).
Qed.



(** X19. Every entry of a built index names a group of the vocabulary as
    its canonical term and is either a canonical entry (confidence 1.0, no
    region) or a synonym entry (confidence 0.9, region information derived
    from one region code: its country name from the table, language "es"
    for a two-letter code and "en" otherwise). *)
Theorem buildSearchIndex_entries
        (U : UnicodeTables) (data : OMap.t SynonymGroup) (db : SynonymDatabase) :
  buildSearchIndexFrom data = Some db ->
  Forall (builtEntry data) (OMap.values (searchIndex db)).
Proof.
  unfold buildSearchIndexFrom, OMap.entries. intros E.
  destruct (addGroup_fold data {| searchIndex := OMap.empty; metadata := OMap.empty |})
    as [_ H2].
  destruct (H2 db E) as (_ & _ & _ & D).
  assert (A : Forall (fun e => exists c, canonical e = c /\ In c (OMap.keys data)
                                        /\ builtEntry data e)
                     (OMap.values (searchIndex db))).
  { apply (D (fun c e => canonical e = c /\ In c (OMap.keys data)
                         /\ builtEntry data e)).
    - constructor.
    - intros c g Hin.
      assert (Hk : In c (OMap.keys data)) by (now apply (in_map fst) in Hin).
      split; [reflexivity|]. split; [exact Hk|]. split; [exact Hk|].
      left. split; reflexivity.
    - intros c g r Hin.
      assert (Hk : In c (OMap.keys data)) by (now apply (in_map fst) in Hin).
      split; [reflexivity|]. split; [exact Hk|]. split; [exact Hk|].
      right. split; [reflexivity|]. exists r. reflexivity. }
  eapply Forall_impl; [|exact A].
  intros e (c & _ & _ & H). exact H.
Qed.

Lemma buildSearchIndex_entries_witness :
  let db := {| searchIndex := SynonymService.index Examples.aguacateService;
               metadata := [(u "temp_aguacate",
                             {| m_canonical := u "aguacate";
                                m_regions := [ (u "palta", [u "AR"; u "CL"; u "PE"; u "UY"]);
                                               (u "avocado", [u "US"; u "GB"]) ] |})] |} in
  buildSearchIndexFrom (U := Latin1.tables) Examples.aguacateVocabulary = Some db
  /\ Forall (builtEntry Examples.aguacateVocabulary)
            (OMap.values (SynonymService.index Examples.aguacateService)).
Proof.
  cbv zeta.
  assert (E : buildSearchIndexFrom (U := Latin1.tables) Examples.aguacateVocabulary
  = Some {| searchIndex := SynonymService.index Examples.aguacateService;
            metadata := [(u "temp_aguacate",
                          {| m_canonical := u "aguacate";
                             m_regions := [ (u "palta", [u "AR"; u "CL"; u "PE"; u "UY"]);
                                            (u "avocado", [u "US"; u "GB"]) ] |})] |})
    by (vm_compute; reflexivity).
  split; [exact E|].
  exact (@buildSearchIndex_entries Latin1.tables Examples.aguacateVocabulary
           {| searchIndex := SynonymService.index Examples.aguacateService;
              metadata := [(u "temp_aguacate",
                            {| m_canonical := u "aguacate";
                               m_regions := [ (u "palta", [u "AR"; u "CL"; u "PE"; u "UY"]);
                                              (u "avocado", [u "US"; u "GB"]) ] |})] |}
           E).
Defined.

(* ------------------------------------------------------------------ *)
(** ** SynonymService: the lookups agree *)

(** X20. For a term that is not blank the four lookups read one value of
    the index object: [hasSynonyms] is true exactly when [findSynonyms]
    returns a match, and [getCanonicalTerm] and [getRegionInfo] return the
    canonical term and the region of that match; the match carries the
    term as typed. *)
Theorem lookups_agree
        (U : UnicodeTables) (this : SynonymService.t) (term : ustring) :
  isBlank term = false ->
  let found := SynonymService.findSynonyms this term in
  SynonymService.hasSynonyms this term = negb (length found =? 0)%nat
  /\ SynonymService.getCanonicalTerm this term
     = match hd_error found with
       | Some m => SynonymService.canonicalTerm m
       | None => None
       end
  /\ SynonymQueries.getRegionInfo this term
     = match hd_error found with
       | Some m => SynonymService.sm_regionInfo m
       | None => None
       end
  /\ Forall (fun m => SynonymService.originalTerm m = term) found.
Proof.
  intros B. cbv zeta. rewrite (findSynonyms_lookup this term B).
  unfold SynonymService.hasSynonyms, SynonymService.getCanonicalTerm,
    SynonymQueries.getRegionInfo.
  destruct (SynonymService.readProperty (SynonymService.index this)
                                       (normalize_default term));
    repeat split; repeat constructor.
Qed.

Lemma lookups_agree_witness :
  isBlank (u "Palta") = false
  /\ SynonymService.getCanonicalTerm (U := Latin1.tables)
       Examples.shippedService (u "Palta")
     = match hd_error (SynonymService.findSynonyms (U := Latin1.tables)
                         Examples.shippedService (u "Palta")) with
       | Some m => SynonymService.canonicalTerm m
       | None => None
       end.
Proof.
  split; [reflexivity|].
  exact (proj1 (proj2 (@lookups_agree Latin1.tables Examples.shippedService
                         (u "Palta") eq_refl))).
Defined.

(** X21. Over an index with distinct keys, a variation returned by
    [findAllVariations] whose term is not blank and is its own
    normalisation is found again by [findSynonyms] on that term: the
    lookup returns exactly that variation. *)
Theorem variation_is_found_again
        (U : UnicodeTables) (this : SynonymService.t)
        (canonicalTerm : ustring) (m : SynonymService.SynonymMatch) :
  NoDup (OMap.keys (SynonymService.index this)) ->
  In m (SynonymService.findAllVariations this canonicalTerm) ->
  isBlank (SynonymService.originalTerm m) = false ->
  normalize_default (SynonymService.originalTerm m) = SynonymService.originalTerm m ->
  SynonymService.findSynonyms this (SynonymService.originalTerm m) = [m].
Proof.
  intros Hn Hm B En.
  unfold SynonymService.findAllVariations in Hm. cbv zeta in Hm.
  rewrite variations_fold in Hm. simpl in Hm.
  apply in_map_iff in Hm as ([k e] & <- & He).
  apply filter_In in He as [He _]. simpl in *.
  rewrite (findSynonyms_lookup this k B), En.
  now rewrite (readProperty_own _ _ (In_get _ _ _ Hn He)).
Qed.

Lemma variation_is_found_again_witness :
  let m := matchOfEntry (u "palta")
             {| canonical := u "aguacate"; productId := u "temp_aguacate";
                confidence := 0.9;
                regionInfo := Some {| region := u "AR"; country := u "Argentina";
                                      language := Some (u "es") |} |} in
  (NoDup (OMap.keys (SynonymService.index Examples.aguacateService))
   /\ In m (SynonymService.findAllVariations (U := Latin1.tables)
              Examples.aguacateService (u "Aguacate"))
   /\ isBlank (SynonymService.originalTerm m) = false
   /\ normalize_default (U := Latin1.tables) (SynonymService.originalTerm m)
      = SynonymService.originalTerm m)
  /\ SynonymService.findSynonyms (U := Latin1.tables)
       Examples.aguacateService (u "palta") = [m].
Proof.
  cbv zeta.
  assert (Hn : NoDup (OMap.keys (SynonymService.index Examples.aguacateService))).
  { vm_compute. repeat constructor; simpl; intuition discriminate. }
  assert (Hm : In (matchOfEntry (u "palta")
             {| canonical := u "aguacate"; productId := u "temp_aguacate";
                confidence := 0.9;
                regionInfo := Some {| region := u "AR"; country := u "Argentina";
                                      language := Some (u "es") |} |})
                  (SynonymService.findAllVariations (U := Latin1.tables)
                     Examples.aguacateService (u "Aguacate")))
    by (vm_compute; auto).
  split; [repeat split; try reflexivity; assumption|].
  exact (@variation_is_found_again Latin1.tables Examples.aguacateService
           (u "Aguacate") _ Hn Hm eq_refl eq_refl).
Defined.

(* ------------------------------------------------------------------ *)
(** ** TextNormalizationService: what the output looks like *)

Section TextExtras.
Context {U : UnicodeTables}.

Lemma collapse_spaces_only s :
  Forall (fun c => isWhiteSpace c = true -> c = 32%N) (collapseWhitespace s).
Proof.
  apply collapse_units; [reflexivity|].
  apply Forall_forall. intros c _ H1 H2. congruence.
Qed.

Lemma setAdd_In s y x : In x (setAdd s y) <-> In x s \/ x = y.
Proof.
  unfold setAdd. destruct (existsb (ustring_eqb y) s) eqn:E.
  - split; [auto|]. intros [H|H]; [exact H|]. subst x.
    apply existsb_exists in E as (z & Hz & Ez).
    apply ustring_eqb_eq in Ez. now subst.
  - rewrite in_app_iff. simpl. intuition.
Qed.

Lemma setAdd_NoDup s y : NoDup s -> NoDup (setAdd s y).
Proof.
  intros H. unfold setAdd. destruct (existsb (ustring_eqb y) s) eqn:E; [exact H|].
  apply NoDup_app; [exact H|repeat constructor; intros []|].
  intros x Hx [Ex|[]].
  assert (T : existsb (ustring_eqb y) s = true).
  { apply existsb_exists. exists x. split; [exact Hx|]. apply ustring_eqb_eq.
    exact Ex. }
  congruence.
Qed.

Lemma setAdd_length s y : (length (setAdd s y) <= S (length s))%nat.
Proof.
  unfold setAdd. destruct (existsb _ _); [lia|].
  rewrite length_app. simpl. lia.
Qed.

Lemma NoDup_filter (A : Type) (p : A -> bool) l : NoDup l -> NoDup (List.filter p l).
Proof.
  induction 1 as [|x l Hx _ IH]; simpl; [constructor|].
  destruct (p x); [constructor|]; auto.
  intros H. apply Hx. now apply filter_In in H.
Qed.

Lemma filter_length_le (A : Type) (p : A -> bool) l :
  (length (List.filter p l) <= length l)%nat.
Proof. induction l as [|x l IH]; simpl; [lia|]. destruct (p x); simpl; lia. Qed.

Lemma nonempty_length (s : ustring) : (0 <? length s)%nat = true <-> s <> [].
Proof.
  destruct s; simpl; split; try discriminate; try congruence; auto.
Qed.

End TextExtras.

(** X22. Whatever the options, every white-space character of a normalised
    text is a plain space and no two of them are adjacent. *)
Theorem normalize_output_is_single_spaced
        (U : UnicodeTables) (text : ustring) (options : PartialNormalizationOptions) :
  Forall (fun c => isWhiteSpace c = true -> c = 32%N) (normalize text options)
  /\ singleSpaced (normalize text options) = true.
Proof.
  unfold normalize. destruct text as [|c text]; [split; [constructor|reflexivity]|].
  unfold normalizeWith. cbv zeta.
  split; [apply collapse_spaces_only|apply collapse_singleSpaced].
Qed.

(** X23. With the removal of special characters on (the default), a
    normalised text holds only [A-Za-z0-9_] and plain spaces, and no
    capital letter when lower-casing is on as well. *)
Theorem normalize_output_alphabet
        (U : UnicodeTables) (L : UnicodeLaws U)
        (text : ustring) (options : PartialNormalizationOptions) :
  removeSpecialChars (mergeOptions options) = true ->
  Forall (fun c => (isWordChar c = true \/ c = 32%N)
                   /\ (toLowerCaseOpt (mergeOptions options) = true ->
                       isUpper c = false))
         (normalize text options).
Proof.
  intros Hs. unfold normalize. destruct text as [|c text]; [constructor|].
  destruct (normalizeWith_clean (mergeOptions options) (c :: text) Hs) as [C _].
  eapply Forall_impl; [|exact C].
  intros d Hd. cbv beta in Hd. split.
  - unfold cleanUnit in Hd. apply orb_prop in Hd as [Hd|Hd].
    + left. now apply andb_prop in Hd.
    + right. now apply N.eqb_eq.
  - intros Hl. rewrite Hl in Hd. now apply cleanUnit_not_upper.
Qed.

Lemma normalize_output_alphabet_witness :
  removeSpecialChars (mergeOptions noOptions) = true
  /\ Forall (fun c => (isWordChar c = true \/ c = 32%N)
                      /\ (toLowerCaseOpt (mergeOptions noOptions) = true ->
                          isUpper c = false))
            (normalize (U := Latin1.tables) (u "¿Dónde está el Ñame?") noOptions).
Proof.
  split; [reflexivity|].
  exact (@normalize_output_alphabet Latin1.tables Latin1Facts.laws
           (u "¿Dónde está el Ñame?") noOptions eq_refl).
Defined.

(** X24. Under the default options a text made only of white space
    normalises to the empty string. *)
Theorem normalize_blank_is_empty
        (U : UnicodeTables) (L : UnicodeLaws U) (text : ustring) :
  forallb isWhiteSpace text = true -> normalize text noOptions = [].
Proof.
  intros H. apply isBlank_whitespace in H.
  now apply (normalize_blank L).
Qed.

Lemma normalize_blank_is_empty_witness :
  forallb isWhiteSpace [9; 32; 0xA0; 10]%N = true
  /\ normalize (U := Latin1.tables) [9; 32; 0xA0; 10]%N noOptions = [].
Proof.
  split; [reflexivity|].
  exact (@normalize_blank_is_empty Latin1.tables Latin1Facts.laws
           [9; 32; 0xA0; 10]%N eq_refl).
Defined.

(** X25. [normalizeTerms] never returns an empty term: it returns the
    normalised forms of the terms that are not empty once normalised, so
    at most as many as it was given. *)
Theorem normalizeTerms_drops_empty_terms
        (U : UnicodeTables) (terms : list ustring)
        (options : PartialNormalizationOptions) :
  let out := normalizeTerms terms options in
  Forall (fun t => t <> []) out
  /\ (forall t, In t out <->
                t <> [] /\ exists term, In term terms /\ normalize term options = t)
  /\ (length out <= length terms)%nat.
Proof.
  cbv zeta. unfold normalizeTerms.
  assert (M : forall t,
             In t (List.filter (fun term => (0 <? length term)%nat)
                     (List.map (fun term => normalize term options) terms)) <->
             t <> [] /\ exists term, In term terms /\ normalize term options = t).
  { intros t. rewrite filter_In, in_map_iff, nonempty_length.
    split; intros [A B]; split; auto.
    - destruct A as (x & E & Hx). eauto.
    - destruct B as (x & Hx & E). eauto. }
  split; [|split; [exact M|]].
  - apply Forall_forall. intros t Ht. now apply M in Ht.
  - etransitivity; [apply filter_length_le|]. now rewrite length_map.
Qed.

(** X26. [createSearchVariations] returns at most four strings, pairwise
    distinct and none empty; each is the term itself or one of its three
    normalisations, and the term and its full normalisation are among them
    whenever they are not empty. *)
Theorem createSearchVariations_distinct_nonempty
        (U : UnicodeTables) (term : ustring) :
  let out := TextVariations.createSearchVariations term in
  NoDup out
  /\ Forall (fun v => v <> []) out
  /\ (length out <= 4)%nat
  /\ (forall v, In v out ->
        v = term \/ v = normalize term noOptions
        \/ v = normalize term TextVariations.accentsOnly
        \/ v = normalize term TextVariations.lowerOnly)
  /\ (term <> [] -> In term out)
  /\ (normalize term noOptions <> [] -> In (normalize term noOptions) out).
Proof.
  cbv zeta. unfold TextVariations.createSearchVariations. cbv zeta.
  set (s := setAdd (setAdd (setAdd (setAdd [] term) (normalize term noOptions))
                           (normalize term TextVariations.accentsOnly))
                   (normalize term TextVariations.lowerOnly)).
  assert (Hs : forall v, In v s <->
                 v = term \/ v = normalize term noOptions
                 \/ v = normalize term TextVariations.accentsOnly
                 \/ v = normalize term TextVariations.lowerOnly).
  { intros v. unfold s. rewrite !setAdd_In. simpl. tauto. }
  split; [apply NoDup_filter; unfold s; repeat apply setAdd_NoDup; constructor|].
  split.
  { apply Forall_forall. intros v Hv. apply filter_In in Hv as [_ Hv].
    now apply nonempty_length. }
  split.
  { etransitivity; [apply filter_length_le|]. unfold s.
    repeat (etransitivity; [apply setAdd_length|]; apply le_n_S). simpl. lia. }
  split.
  { intros v Hv. apply filter_In in Hv as [Hv _]. now apply Hs. }
  split; intros H; apply filter_In; (split; [apply Hs; auto|now apply nonempty_length]).
Qed.

(* ------------------------------------------------------------------ *)
(** ** QueryEngine: the registry and the item sequence *)

(** X27. [registerFilter] stores the definition under its type: a lookup of
    that type returns it, the other types are as before, the definition is
    listed by [getRegisteredFilters], and registering a type again replaces
    the earlier definition without adding an entry. *)
Theorem registerFilter_lookup
        (Payload : Type) (this : QueryEngine.t Payload)
        (definition : QueryEngine.FilterDefinition Payload) :
  let registry := QueryEngine.filterRegistry this in
  let registry' := QueryEngine.filterRegistry (QueryEngine.registerFilter this definition) in
  OMap.get registry' (QueryEngine.fd_type definition) = Some definition
  /\ (forall k, k <> QueryEngine.fd_type definition ->
                OMap.get registry' k = OMap.get registry k)
  /\ In definition
        (QueryRegistry.getRegisteredFilters (QueryEngine.registerFilter this definition))
  /\ (In (QueryEngine.fd_type definition) (OMap.keys registry) ->
      length (QueryRegistry.getRegisteredFilters
                (QueryEngine.registerFilter this definition))
      = length (QueryRegistry.getRegisteredFilters this)).
Proof.
  cbv zeta. unfold QueryEngine.registerFilter, QueryRegistry.getRegisteredFilters.
  simpl QueryEngine.filterRegistry.
  split; [apply get_set_same|].
  split; [intros k Hk; now apply get_set_other|].
  split; [eapply get_In_values, get_set_same|].
  intros Hin. unfold OMap.values. rewrite !length_map, set_length.
  replace (existsb (ustring_eqb (QueryEngine.fd_type definition))
                   (OMap.keys (QueryEngine.filterRegistry this))) with true;
    [reflexivity|].
  symmetry. apply existsb_exists. eexists. split; [exact Hin|apply ustring_eqb_refl].
Qed.

Section QueryExtras.
Context {U : UnicodeTables}.
Variable Payload : Type.
Variable propertyGreater : ustring -> Searchable -> Searchable -> bool.
Variable hostSort : (Searchable -> Searchable -> Z) -> list Searchable -> list Searchable.
Import QueryEngine.

Lemma filterStage_incl (this : QueryEngine.t Payload) options its0 :
  (forall d its f, In d (OMap.values (filterRegistry this)) ->
                   incl (applyFilter d its f) its) ->
  incl (fst (filterStage this options (its0, []))) its0.
Proof.
  intros Hf. unfold filterStage.
  destruct (filters options) as [fs|]; [|apply incl_refl].
  generalize (@nil (FilterCriteria Payload)).
  assert (G : forall its ap, incl its its0 ->
                incl (fst (fold_left (filterStep this) fs (its, ap))) its0).
  { induction fs as [|f fs IH]; intros its ap Hi; [exact Hi|].
    cbn [fold_left]. unfold filterStep at 2.
    destruct (OMap.get (filterRegistry this) (type f)) as [d|] eqn:G.
    - apply IH. eapply incl_tran; [|exact Hi].
      apply Hf. eapply get_In_values; eauto.
    - now apply IH. }
  intros ap. apply G, incl_refl.
Qed.

End QueryExtras.

(** X28. When every registered filter returns items out of those it was
    given and the host's sort only rearranges, [executeQuery] returns items
    of its input only, and [totalCount] is the number of items returned. *)
Theorem executeQuery_returns_input_items
        (U : UnicodeTables) (Payload : Type)
        (propertyGreater : ustring -> Searchable -> Searchable -> bool)
        (hostSort : (Searchable -> Searchable -> Z) -> list Searchable -> list Searchable)
        (this : QueryEngine.t Payload) (items : list Searchable)
        (options : QueryEngine.QueryOptions Payload) :
  (forall d its f, In d (OMap.values (QueryEngine.filterRegistry this)) ->
                   incl (QueryEngine.applyFilter d its f) its) ->
  (forall compareFn l, Permutation l (hostSort compareFn l)) ->
  let result := QueryEngine.executeQuery propertyGreater hostSort this items options in
  incl (QueryEngine.items result) items
  /\ QueryEngine.totalCount result = length (QueryEngine.items result).
Proof.
  intros Hf Hs. cbv zeta. unfold QueryEngine.executeQuery. cbv zeta.
  pose proof (filterStage_incl this options
                (QueryEngine.textStage options items) Hf) as Hi.
  destruct (QueryEngine.filterStage this options
              (QueryEngine.textStage options items, [])) as [its ap].
  simpl in *. split; [|reflexivity].
  assert (Ht : incl (QueryEngine.textStage options items) items).
  { unfold QueryEngine.textStage.
    destruct (QueryEngine.hasSearchTerm options); [|apply incl_refl].
    destruct (QueryEngine.searchTerm options); [|apply incl_refl].
    intros x Hx. now apply filter_In in Hx. }
  assert (Hsort : incl (QueryEngine.sortStage propertyGreater hostSort options its) its).
  { unfold QueryEngine.sortStage.
    destruct (QueryEngine.sortBy options) as [[|c key]|]; try apply incl_refl.
    intros x Hx. eapply Permutation_in; [symmetry; apply Hs|exact Hx]. }
  eapply incl_tran; [exact Hsort|]. eapply incl_tran; [exact Hi|exact Ht].
Qed.

Lemma executeQuery_returns_input_items_witness :
  let options := {| QueryEngine.searchTerm := Some (u "a");
                    QueryEngine.filters :=
                      Some [ {| QueryEngine.type := u "category";
                                QueryEngine.payload := u "Frutas" |} ];
                    QueryEngine.sortBy := Some (u "name");
                    QueryEngine.sortOrder := Some QueryEngine.desc |} in
  ((forall d its f,
       In d (OMap.values (QueryEngine.filterRegistry Examples.queryEngine)) ->
       incl (QueryEngine.applyFilter d its f) its)
   /\ (forall compareFn l, Permutation l (Examples.insertionHostSort compareFn l)))
  /\ incl (QueryEngine.items
             (QueryEngine.executeQuery (U := Latin1.tables) Examples.nameGreater
                Examples.insertionHostSort Examples.queryEngine Examples.catalog
                options))
          Examples.catalog.
Proof.
  cbv zeta.
  assert (Hf : forall d its f,
             In d (OMap.values (QueryEngine.filterRegistry Examples.queryEngine)) ->
             incl (QueryEngine.applyFilter d its f) its).
  { intros d its f [<-|[]] x Hx. simpl in Hx. now apply filter_In in Hx. }
  assert (Hs : forall compareFn l,
             Permutation l (Examples.insertionHostSort compareFn l)).
  { intros. apply arraySort_perm. }
  split; [split; assumption|].
  exact (proj1 (@executeQuery_returns_input_items Latin1.tables ustring
                  Examples.nameGreater Examples.insertionHostSort
                  Examples.queryEngine Examples.catalog _ Hf Hs)).
Defined.

(* ------------------------------------------------------------------ *)
(** ** Favorites *)

Section FavoritesExtras.
Context {U : UnicodeTables}.
Variable Product : Type.
Variable product_id : Product -> ustring.
Variable product_image : Product -> ustring.
Variable product_rating : Product -> Q.
Variable getProductById : ustring -> option Product.
Variable translateProductName : Product -> ustring.
Import Favorites.

Lemma convert_fold (es : list (ustring * FavoriteStatus)) acc :
  (forall k p, getProductById k = Some p -> product_id p = k) ->
  List.map id
    (fold_left (convertStep product_id product_image product_rating
                            getProductById translateProductName) es acc)
  = List.map id acc
    ++ List.map fst
         (List.filter (fun e => match snd e, getProductById (fst e) with
                                | heart, Some _ => true
                                | _, _ => false
                                end) es)
  /\ (Forall (fun i => status i = heart) acc ->
      Forall (fun i => status i = heart)
        (fold_left (convertStep product_id product_image product_rating
                                getProductById translateProductName) es acc)).
Proof.
  intros Hid. revert acc. induction es as [|[k s] es IH]; intros acc.
  - simpl. now rewrite app_nil_r.
  - cbn [fold_left List.filter fst snd].
    unfold convertStep at 2 4.
    destruct s; [|apply IH].
    destruct (getProductById k) as [p|] eqn:G; [|apply IH].
    destruct (IH (acc ++ [ {| id := product_id p; name := translateProductName p;
                              image := product_image p; rating := product_rating p;
                              status := heart |} ])) as [E1 E2].
    split.
    + rewrite E1, map_app. simpl. rewrite (Hid k p G), <- app_assoc. reflexivity.
    + intros H. apply E2. apply Forall_app. split; [exact H|]. repeat constructor.
Qed.

End FavoritesExtras.

(** X29. When the product table answers a lookup with the product of that
    id, the favourites list holds only hearts, one item per stored key that
    is marked heart and names a known product, in the order of the stored
    keys: its ids are distinct when the keys are, and no thumb-down key is
    among them. *)
Theorem convertToFavoriteItems_hearts_only
        (Product : Type)
        (product_id product_image : Product -> ustring)
        (product_rating : Product -> Q)
        (getProductById : ustring -> option Product)
        (translateProductName : Product -> ustring)
        (favoritesData : OMap.t Favorites.FavoriteStatus) :
  (forall k p, getProductById k = Some p -> product_id p = k) ->
  NoDup (OMap.keys favoritesData) ->
  let out := Favorites.convertToFavoriteItems product_id product_image
               product_rating getProductById translateProductName favoritesData in
  Forall (fun i => Favorites.status i = Favorites.heart) out
  /\ NoDup (List.map Favorites.id out)
  /\ (forall k, In k (List.map Favorites.id out) <->
                In (k, Favorites.heart) favoritesData
                /\ exists p, getProductById k = Some p).
Proof.
  intros Hid Hn. cbv zeta. unfold Favorites.convertToFavoriteItems, OMap.entries.
  destruct (convert_fold product_id product_image product_rating getProductById
              translateProductName favoritesData [] Hid) as [E1 E2].
  split; [apply E2; constructor|].
  rewrite E1. simpl. split.
  - apply NoDup_map_filter. exact Hn.
  - intros k. rewrite in_map_iff. split.
    + intros ([k' s] & <- & H). apply filter_In in H as [H1 H2]. simpl in *.
      destruct s; [|discriminate].
      destruct (getProductById k') as [p|]; [|discriminate]. eauto.
    + intros (H & p & G). exists (k, Favorites.heart). split; [reflexivity|].
      apply filter_In. split; [exact H|]. simpl. now rewrite G.
Qed.

Lemma convertToFavoriteItems_hearts_only_witness :
  ((forall k p, sampleProduct k = Some p -> id p = k)
   /\ NoDup (OMap.keys sampleFavorites))
  /\ List.map Favorites.id (sampleConvert sampleFavorites) = [u "2"]
  /\ NoDup (List.map Favorites.id (sampleConvert sampleFavorites)).
Proof.
  assert (Hid : forall k p, sampleProduct k = Some p -> id p = k).
  { intros k p H. unfold sampleProduct in H. apply find_some in H as [_ H].
    now apply ustring_eqb_eq. }
  assert (Hn : NoDup (OMap.keys sampleFavorites)).
  { repeat constructor; simpl; intuition discriminate. }
  split; [split; assumption|]. split; [vm_compute; reflexivity|].
  exact (proj1 (proj2 (@convertToFavoriteItems_hearts_only Searchable id
                         (fun _ => []) (fun _ => 0) sampleProduct name
                         sampleFavorites Hid Hn))).
Defined.

(** X30. The search of the favourites screen returns favourites only,
    whatever list it is handed: all of them for a term that is empty or
    white space, otherwise those whose lower-cased name contains the
    lower-cased term as typed (not trimmed). *)
Theorem handleSearch_returns_favourites
        (U : UnicodeTables)
        (favoriteItems : list Favorites.FavoriteItem) (searchTerm : ustring)
        (items : list Favorites.FavoriteItem) :
  let out := Favorites.handleSearch favoriteItems searchTerm items in
  incl out favoriteItems
  /\ (forallb isWhiteSpace searchTerm = true -> out = favoriteItems)
  /\ (trim searchTerm <> [] ->
      forall i, In i out <->
                In i favoriteItems
                /\ includes (toLowerCase (Favorites.name i))
                            (toLowerCase searchTerm) = true).
Proof.
  cbv zeta. unfold Favorites.handleSearch. split; [|split].
  - destruct (ustring_eqb (trim searchTerm) []); [apply incl_refl|].
    intros x Hx. now apply filter_In in Hx.
  - intros H. unfold trim, trimStart, trimEnd.
    now rewrite (dropWhile_all _ _ H).
  - intros H i. apply ustring_eqb_neq in H. rewrite H. apply filter_In.
Qed.
